(** * ggbackuplib.ggbackup: a shallow embedding of the [GGBackup] class

    The development follows [src/ggbackuplib/ggbackup.py].  The class keeps a
    dictionary of group records that is filled from the Directory API and
    enriched, batch by batch, with the answers of the Groups Settings API and
    of the membership listing.

    - Python dictionaries whose key order is observable ([self.groups], whose
      [keys()] feed the batches) are insertion-ordered association lists;
      group records and settings answers, whose order is never observed, are
      [gmap string json].
    - Methods are computations in a small monad: they read and update the
      object, may raise, and emit events (log records, requests sent to the
      remote services, activations of [run_next_batch]).
    - The remote services are a parameter: functions from a request to its
      answer.
    - The client of the Directory API, [self.service], is an attribute of
      the object: it says which keywords its [members().list] takes.  The
      client that [auth] builds is that of version 1 of the API; a stand-in
      that takes other keywords can only be put there by hand.
    - [run_next_batch] calls itself; the number of nested activations that
      the interpreter allows is a parameter of [get_members], and the call
      that exceeds it raises [RecursionError]. *)

From Stdlib Require Import ZArith QArith Qround Ascii.
From stdpp Require Import base list strings pretty gmap.

#[local] Set Warnings "-register-all".
#[local] Open Scope nat_scope.

(** ** Values *)

(** JSON values, as the API client hands them to the callbacks. *)
Inductive json :=
| JNull
| JBool (b : bool)
| JNum (n : Z)
| JStr (s : string)
| JList (l : list json)
| JObj (o : gmap string json).

(** A group record is a Python [dict] from field names to values. *)
Abbreviation record := (gmap string json).

(** [str.lower()] on the ASCII range, which is where e-mail addresses live. *)
Definition lower_ascii (c : ascii) : ascii :=
  let n := nat_of_ascii c in
  if (65 <=? n) && (n <=? 90) then ascii_of_nat (n + 32) else c.

Fixpoint lower (s : string) : string :=
  match s with
  | EmptyString => EmptyString
  | String c s' => String (lower_ascii c) (lower s')
  end.

(** ** Insertion-ordered dictionaries *)

Section Dict.
Context {V : Type}.

Definition dict := list (string * V).

Definition keys (d : dict) : list string := d.*1.

Fixpoint dict_get (k : string) (d : dict) : option V :=
  match d with
  | [] => None
  | (k', v) :: d' => if decide (k = k') then Some v else dict_get k d'
  end.

(** [d[k] = v]: an existing key keeps its place, a new one goes last. *)
Fixpoint dict_set (k : string) (v : V) (d : dict) : dict :=
  match d with
  | [] => [(k, v)]
  | (k', v') :: d' =>
      if decide (k = k') then (k, v) :: d' else (k', v') :: dict_set k v d'
  end.

Definition dict_set_all (l : list (string * V)) (d : dict) : dict :=
  foldl (λ d kv, dict_set kv.1 kv.2 d) d l.
End Dict.
Arguments dict : clear implicits.

(** ** [GGBackup.batch] *)

Section Batch.
Context {A : Type}.

(** [items[low:high]] for [0 <= low <= high]. *)
Definition slice (items : list A) (low high : nat) : list A :=
  take (high - low) (drop low items).

(** [ceil(float(len(items)) / 1000.)].  The quotient is taken in the
    rationals; the double-precision quotient has the same ceiling for every
    length below 2^53. *)
Definition batch_count (items : list A) : Z :=
  Qceiling (inject_Z (Z.of_nat (length items)) / 1000).

(** The [while i < count] loop; [None] when the fuel is used up. *)
Fixpoint batch_loop (fuel : nat) (items : list A) (count : Z) (i : nat)
    (batches : list (list A)) : option (list (list A)) :=
  if (Z.of_nat i <? count)%Z then
    match fuel with
    | 0 => None
    | S fuel' =>
        let low := i * 1000 in
        let high := (i + 1) * 1000 in
        batch_loop fuel' items count (i + 1) (batches ++ [slice items low high])
    end
  else Some batches.

(** The [i]-th slice the loop appends. *)
Definition chunk (items : list A) (i : nat) : list A :=
  slice items (i * 1000) ((i + 1) * 1000).

Definition batch_fuel (fuel : nat) (items : list A) : option (list (list A)) :=
  batch_loop fuel items (batch_count items) 0 [].

(** The loop runs at most [len(items)] times, see [batch_fuel_enough]. *)
Definition batch (items : list A) : list (list A) :=
  default [] (batch_fuel (length items) items).
End Batch.

(** ** Exceptions, requests, events *)

Inductive exn :=
| Exception (msg : string)
| KeyError (key : string)
| AttributeError (msg : string)
| TypeError (msg : string)
| RecursionError (msg : string)
| HttpError (status : Z) (reason : string).

(** A request built by [members().list]: the group, and the page token
    when one is passed ([alt='json'] is constant and left out). *)
Record members_request := {
  groupKey : string;
  nextPage : option string
}.

(** The requests the class builds ([alt='json'] is constant and left out). *)
Inductive request :=
| GroupsList (domain : string) (pageToken : option string)
| SettingsGet (groupUniqueId : string)
| MembersList (rq : members_request).

(** One page of [groups().list]: [{groups: [...], nextPageToken?}]. *)
Record groups_page := {
  gp_groups : option (list record);
  gp_nextPageToken : option string
}.

(** One page of [members().list]: [{members?: [...], nextPageToken?}]. *)
Record members_page := {
  members : option (list json);
  nextPageToken : option string
}.

(** The remote services: what [execute()] obtains for a request, an
    exception or an answer. *)
Record Remote := {
  groups_list : string → option string → exn + groups_page;
  settings_get : string → exn + record;
  members_list : string → option string → exn + members_page
}.

Inductive level := DEBUG | INFO | WARNING.

(** Arguments of a log record, kept unformatted as [logging] does. *)
Inductive log_arg :=
| ArgStr (s : string)
| ArgNat (n : nat)
| ArgJson (j : json)
| ArgExn (e : exn).

(** What a run does besides updating the object: log records, requests sent,
    and the activations of [run_next_batch] (its frames on the call stack). *)
Inductive event :=
| Log (lv : level) (msg : string) (args : list log_arg)
| Send (rq : request)
| Enter (f : string)
| Leave (f : string).

(** ** The client of the Directory API *)

(** [build('admin', 'directory_v1', http=...)] makes the client from the
    discovery document of the service.  A method of the client takes the
    parameters that the document declares for it and refuses every other
    keyword.  [members_query] are the query parameters declared for
    [members().list], besides its path parameter [groupKey] and the
    parameters that every method has. *)
Record Service := { members_query : list string }.

Definition common_parameters : list string :=
  ["alt"; "fields"; "key"; "oauth_token"; "prettyPrint"; "quotaUser"; "userIp"].

(** Version 1 of the Directory API: the page of a listing is asked for with
    [pageToken]. *)
Definition directory_v1 : Service :=
  {| members_query :=
       ["includeDerivedMembership"; "maxResults"; "pageToken"; "roles"] |}.

Definition accepts (svc : Service) (name : string) : bool :=
  bool_decide (name ∈ "groupKey" :: common_parameters ++ members_query svc).

(** [svc.members().list(...)] with keyword arguments: the first keyword
    that is no parameter of the method raises [TypeError]; otherwise the
    request holds the group and the page asked for. *)
Definition list_members (svc : Service) (kwargs : list (string * string))
    : exn + members_request :=
  match filter (λ kv, accepts svc kv.1 = false) kwargs with
  | kv :: _ => inl (TypeError ("Got an unexpected keyword argument " +:+ kv.1))
  | [] =>
      match dict_get "groupKey" kwargs with
      | Some g => inr {| groupKey := g; nextPage := dict_get "nextPage" kwargs |}
      | None => inl (TypeError "Missing required parameter groupKey")
      end
  end.

(** ** The object *)

Record Credentials := { invalid : bool }.

(** The attributes of a [GGBackup].  [_group_batches] is [None] until the
    attribute is created; [_next_batch] is created, empty, by [get_members]
    before anything reads it. *)
Record GGBackup := {
  domain : string;
  http_auth : option unit;
  credentials : option Credentials;
  service : option Service;
  gsetservice : option unit;
  groups : dict record;
  _group_batch : option (list (list string));
  _group_batches : option (list (list string));
  _next_batch : list (string * members_request)
}.

Definition set_groups (f : dict record → dict record) (s : GGBackup) : GGBackup :=
  {| domain := domain s; http_auth := http_auth s;
     credentials := credentials s; service := service s;
     gsetservice := gsetservice s; groups := f (groups s);
     _group_batch := _group_batch s; _group_batches := _group_batches s;
     _next_batch := _next_batch s |}.

Definition set_group_batches (b : list (list string)) (s : GGBackup) : GGBackup :=
  {| domain := domain s; http_auth := http_auth s;
     credentials := credentials s; service := service s;
     gsetservice := gsetservice s; groups := groups s;
     _group_batch := _group_batch s; _group_batches := Some b;
     _next_batch := _next_batch s |}.

Definition set_next_batch
    (f : list (string * members_request) → list (string * members_request))
    (s : GGBackup) : GGBackup :=
  {| domain := domain s; http_auth := http_auth s;
     credentials := credentials s; service := service s;
     gsetservice := gsetservice s; groups := groups s;
     _group_batch := _group_batch s; _group_batches := _group_batches s;
     _next_batch := f (_next_batch s) |}.

Definition set_credentials (c : option Credentials) (s : GGBackup) : GGBackup :=
  {| domain := domain s; http_auth := http_auth s;
     credentials := c; service := service s;
     gsetservice := gsetservice s; groups := groups s;
     _group_batch := _group_batch s; _group_batches := _group_batches s;
     _next_batch := _next_batch s |}.

Definition set_session (h : unit) (s : GGBackup) : GGBackup :=
  {| domain := domain s; http_auth := Some h;
     credentials := credentials s; service := Some directory_v1;
     gsetservice := Some h; groups := groups s;
     _group_batch := _group_batch s; _group_batches := _group_batches s;
     _next_batch := _next_batch s |}.

(** ** The monad of methods *)

Inductive result (A : Type) :=
| Return (a : A)
| Raise (e : exn)
| OutOfFuel.
Arguments Return {A} a.
Arguments Raise {A} e.
Arguments OutOfFuel {A}.

Definition M (A : Type) : Type := GGBackup → result A * GGBackup * list event.

#[export] Instance M_ret : MRet M := λ A a s, (Return a, s, []).

#[export] Instance M_bind : MBind M := λ A B f m s,
  match m s with
  | (Return a, s', ev) => let '(r, s'', ev') := f a s' in (r, s'', ev ++ ev')
  | (Raise e, s', ev) => (Raise e, s', ev)
  | (OutOfFuel, s', ev) => (OutOfFuel, s', ev)
  end.

Definition raise {A} (e : exn) : M A := λ s, (Raise e, s, []).
Definition out_of_fuel {A} : M A := λ s, (OutOfFuel, s, []).
Definition get : M GGBackup := λ s, (Return s, s, []).
Definition modify (f : GGBackup → GGBackup) : M unit := λ s, (Return tt, f s, []).
Definition emit (e : event) : M unit := λ s, (Return tt, s, [e]).

(** [for x in l: body]. *)
Fixpoint for_ {A} (l : list A) (body : A → M unit) : M unit :=
  match l with
  | [] => mret tt
  | x :: l' => body x;; for_ l' body
  end.

(** The activation of a function: its frame is on the stack from [Enter] to
    [Leave], also when the body raises. *)
Definition frame {A} (f : string) (body : M A) : M A := λ s,
  let '(r, s', ev) := body s in (r, s', Enter f :: ev ++ [Leave f]).

Definition res {A} (x : result A * GGBackup * list event) : result A := x.1.1.
Definition obj {A} (x : result A * GGBackup * list event) : GGBackup := x.1.2.
Definition trace {A} (x : result A * GGBackup * list event) : list event := x.2.

(** ** Python primitives on values *)

(** [d[k]] on a record. *)
Definition getitem (d : record) (k : string) : M json :=
  match d !! k with
  | Some v => mret v
  | None => raise (KeyError k)
  end.

(** [v.lower()]. *)
Definition str_lower (v : json) : M string :=
  match v with
  | JStr s => mret (lower s)
  | _ => raise (AttributeError "object has no attribute 'lower'")
  end.

(** ** Methods *)

Definition init (domain : string) : GGBackup :=
  {| domain := domain; http_auth := None; credentials := None;
     service := None; gsetservice := None; groups := [];
     _group_batch := None; _group_batches := None; _next_batch := [] |}.

Definition check_credentials : M unit :=
  s ← get;
  match credentials s with
  | None => raise (Exception "Credentials not found.")
  | Some c =>
      if invalid c then raise (Exception "Credentials are invalid.")
      else mret tt
  end.

Definition check_auth : M unit :=
  s ← get;
  if http_auth s is None then raise (Exception "HTTP Auth not completed.")
  else if service s is None
  then raise (Exception "Admin SDK service is not available.")
  else if gsetservice s is None
  then raise (Exception "Groups Settings service is not available.")
  else mret tt.

(** [load]: the credentials are whatever the store holds. *)
Definition load (stored : option Credentials) : M unit :=
  modify (set_credentials stored).

Definition auth : M unit :=
  check_credentials;;
  modify (set_session ()).

(** [list_next(request, response)] of the API client: the request for the
    following page, or [None] when the answer carries no token. *)
Definition list_next (domain : string) (page : groups_page) : option request :=
  match gp_nextPageToken page with
  | Some t => Some (GroupsList domain (Some t))
  | None => None
  end.

Section Methods.
Variable R : Remote.

(** The body of [for group in groups['groups']]. *)
Definition insert_group (group : record) : M unit :=
  email ← getitem group "email";
  key ← str_lower email;
  modify (set_groups (dict_set key group)).

(** The [while request is not None] loop of [get_groups]. *)
Fixpoint get_groups_loop (fuel : nat) (request : option request) : M unit :=
  match request with
  | Some (GroupsList d tok) =>
      match fuel with
      | 0 => out_of_fuel
      | S fuel' =>
          emit (Send (GroupsList d tok));;
          page ← (match groups_list R d tok with
                  | inl e => raise e
                  | inr page => mret page
                  end);
          gs ← (match gp_groups page with
                | Some gs => mret gs
                | None => raise (KeyError "groups")
                end);
          for_ gs insert_group;;
          get_groups_loop fuel' (list_next d page)
      end
  | _ => mret tt
  end.

Definition get_groups (fuel : nat) : M unit :=
  check_auth;;
  s ← get;
  get_groups_loop fuel (Some (GroupsList (domain s) None));;
  s ← get;
  emit (Log INFO "Retrieved %s groups." [ArgNat (length (groups s))]).

(** The [group_batches] property. *)
Definition group_batches : M (list (list string)) :=
  s ← get;
  (if _group_batch s is None
   then modify (set_group_batches (batch (keys (groups s))))
   else mret tt);;
  s ← get;
  match _group_batches s with
  | Some b => mret b
  | None => raise (AttributeError "object has no attribute '_group_batches'")
  end.

(** One answer of a batch reaches the callback as
    [(request_id, response, exception)]. *)
Definition answer {Rq Rs : Type} (remote : Rq → exn + Rs)
    (callback : string → option Rs → option exn → M unit)
    (r : string * Rq) : M unit :=
  match remote r.2 with
  | inl e => callback r.1 None (Some e)
  | inr a => callback r.1 (Some a) None
  end.

(** The answers are delivered in the order the requests were added; an
    exception raised by the callback ends the delivery. *)
Definition deliver {Rq Rs : Type} (remote : Rq → exn + Rs)
    (callback : string → option Rs → option exn → M unit)
    (reqs : list (string * Rq)) : M unit :=
  for_ reqs (answer remote callback).

(** [batchreq.execute()]: the sub-requests go out in one exchange, then the
    answers are delivered. *)
Definition execute {Rq Rs : Type} (wire : Rq → request)
    (remote : Rq → exn + Rs)
    (callback : string → option Rs → option exn → M unit)
    (reqs : list (string * Rq)) : M unit :=
  for_ reqs (λ r, emit (Send (wire r.2)));;
  deliver remote callback reqs.

(** The callback of [get_settings]. *)
Definition add_settings (request_id : string) (response : option record)
    (exception : option exn) : M unit :=
  match exception with
  | Some e =>
      emit (Log WARNING "Exception encountered while gathering settings: %s"
              [ArgExn e])
  | None =>
      response ← (match response with
                  | Some r => mret r
                  | None =>
                      raise (TypeError "'NoneType' object is not subscriptable")
                  end);
      email ← getitem response "email";
      emit (Log DEBUG "Settings for group %s retrieved." [ArgJson email]);;
      key ← str_lower email;
      s ← get;
      email ← (match dict_get key (groups s) with
               | Some r => mret r
               | None => raise (KeyError key)
               end);
      modify (set_groups (dict_set key (response ∪ email)))
  end.

(** Requests added without [request_id] are numbered "1", "2", ... by the
    batch object. *)
Definition auto_ids {Rq : Type} (reqs : list Rq) : list (string * Rq) :=
  imap (λ i rq, (pretty (S i), rq)) reqs.

(** The body of [for batch in self.group_batches] in [get_settings]. *)
Definition settings_batch (batch : list string) : M unit :=
  for_ batch (λ group,
    emit (Log DEBUG "Added group %s to batch." [ArgStr group]));;
  emit (Log DEBUG "Executing batch." []);;
  execute SettingsGet (settings_get R) add_settings (auto_ids batch).

Definition get_settings : M unit :=
  check_auth;;
  batches ← group_batches;
  for_ batches settings_batch.

(** [email['members'] += new] on the record [email]. *)
Definition extend_members (email : record) (new : list json) : M record :=
  match email !! "members" with
  | Some (JList l) => mret (<["members" := JList (l ++ new)]> email)
  | _ => raise (TypeError "unsupported operand type(s) for +=")
  end.

(** The callback of [get_members]. *)
Definition add_members (request_id : string) (response : option members_page)
    (exception : option exn) : M unit :=
  match exception with
  | Some e =>
      emit (Log WARNING
              "Exception encountered while gathering group members: %s"
              [ArgExn e])
  | None =>
      response ← (match response with
                  | Some r => mret r
                  | None =>
                      raise (AttributeError
                               "'NoneType' object has no attribute 'get'")
                  end);
      emit (Log DEBUG "Group %s members retrieved: %s"
              [ArgStr request_id;
               ArgNat (length (default [] (members response)))]);;
      s ← get;
      email ← (match dict_get request_id (groups s) with
               | Some r => mret r
               | None => raise (KeyError request_id)
               end);
      email ← (if email !! "members" is None
               then
                 let email' := <["members" := JList []]> email in
                 modify (set_groups (dict_set request_id email'));;
                 mret email'
               else mret email);
      email ← extend_members email (default [] (members response));
      modify (set_groups (dict_set request_id email));;
      match nextPageToken response with
      | Some tok =>
          s ← get;
          svc ← (match service s with
                 | Some svc => mret svc
                 | None =>
                     raise (AttributeError
                              "'NoneType' object has no attribute 'members'")
                 end);
          rq ← (match list_members svc [("groupKey", request_id);
                                        ("nextPage", tok); ("alt", "json")] with
                | inl e => raise e
                | inr rq => mret rq
                end);
          modify (set_next_batch (λ nb, nb ++ [(request_id, rq)]))
      | None => mret tt
      end
  end.

Definition fetch_members (rq : members_request) : exn + members_page :=
  members_list R (groupKey rq) (nextPage rq).

(** The body of [for batch in batches] in [run_next_batch]. *)
Definition next_page_batch (batch : list (string * members_request)) : M unit :=
  for_ batch (λ req,
    emit (Log DEBUG "Building next page batch for group %s" [ArgStr req.1]));;
  emit (Log DEBUG "Executing batch." []);;
  execute MembersList fetch_members add_members batch.

(** [run_next_batch], which ends by calling itself.  [limit] is the number
    of nested activations that the recursion limit of the interpreter leaves
    room for: the call that would exceed it raises [RecursionError]
    ([RuntimeError] before Python 3.5). *)
Fixpoint run_next_batch (limit : nat) : M unit :=
  match limit with
  | 0 => raise (RecursionError "maximum recursion depth exceeded")
  | S limit' =>
      frame "run_next_batch" (
        s ← get;
        if decide (length (_next_batch s) = 0)
        then emit (Log DEBUG "No more pages to retrieve." [])
        else
          emit (Log DEBUG "Building next page batches." []);;
          let working_batch := _next_batch s in
          modify (set_next_batch (λ _, []));;
          let batches := batch working_batch in
          for_ batches next_page_batch;;
          run_next_batch limit')
  end.

(** The request for the first page of a group, under its correlation id:
    [members().list(groupKey=group, alt='json')], whose keywords every
    client takes (see [list_members_first]). *)
Definition first_page (group : string) : string * members_request :=
  (lower group, {| groupKey := group; nextPage := None |}).

(** The body of [for batch in self.group_batches] in [get_members]. *)
Definition first_page_batch (batch : list string) : M unit :=
  for_ batch (λ group,
    emit (Log DEBUG "Added group %s to batch." [ArgStr group]));;
  emit (Log DEBUG "Executing batch." []);;
  execute MembersList fetch_members add_members (first_page <$> batch).

Definition get_members (limit : nat) : M unit :=
  check_auth;;
  modify (set_next_batch (λ _, []));;
  batches ← group_batches;
  for_ batches first_page_batch;;
  run_next_batch limit.
End Methods.

(** ** Notions used in the statements *)

(** An entry of [self.groups] written by the listing: a group kept under its
    lower-cased e-mail. *)
Definition by_lower_email (kg : string * record) : Prop :=
  ∃ e, kg.2 !! "email" = Some (JStr e) ∧ kg.1 = lower e.

(** The record's ["members"] field is absent or a list: [+=] with a list
    is defined on it. *)
Definition members_ok (rec : record) : bool :=
  match rec !! "members" with
  | None | Some (JList _) => true
  | Some _ => false
  end.

Definition records_ok (G : dict record) : Prop :=
  Forall (λ kv, members_ok kv.2 = true) G.

(** The members a record holds so far. *)
Definition record_members (rec : record) : list json :=
  match rec !! "members" with
  | Some (JList l) => l
  | _ => []
  end.

(** [response.get('members', [])]. *)
Definition page_members (p : members_page) : list json :=
  default [] (members p).

(** A record after one more page. *)
Definition merge_page (p : members_page) (rec : record) : record :=
  <["members" := JList (record_members rec ++ page_members p)]> rec.

(** The pending page request that an answer gives rise to. *)
Definition next_request (rid : string) (p : members_page)
    : list (string * members_request) :=
  match nextPageToken p with
  | Some tok => [(rid, {| groupKey := rid; nextPage := Some tok |})]
  | None => []
  end.

(** Whether the client of the session takes the keyword [nextPage], under
    which [add_members] passes the token of the following page. *)
Definition takes_nextPage (s : GGBackup) : bool :=
  match service s with
  | Some svc => accepts svc "nextPage"
  | None => false
  end.

Section Pagination.
Variable R : Remote.

(** What the answer to a request queues when the client builds the request
    for the following page, and what it does to the map. *)
Definition succ_requests (r : string * members_request)
    : list (string * members_request) :=
  match fetch_members R r.2 with
  | inr p => next_request r.1 p
  | inl _ => []
  end.

Definition merge_answer (G : dict record) (r : string * members_request)
    : dict record :=
  match fetch_members R r.2 with
  | inr p =>
      match dict_get r.1 G with
      | Some rec => dict_set r.1 (merge_page p rec) G
      | None => G
      end
  | inl _ => G
  end.

Definition step (r : string * members_request) (s : GGBackup) : GGBackup :=
  set_next_batch (λ nb, nb ++ succ_requests r)
    (set_groups (λ G, merge_answer G r) s).

(** The object after the answers to [reqs] have been merged. *)
Definition after (reqs : list (string * members_request)) (s : GGBackup)
    : GGBackup :=
  foldl (λ s r, step r s) s reqs.

(** The answers to [reqs] can all be taken in: the client builds the
    requests for the following pages, or no answer asks for one. *)
Definition proceeds (s : GGBackup) (reqs : list (string * members_request))
    : Prop :=
  takes_nextPage s = true ∨ Forall (λ r, succ_requests r = []) reqs.

(** A group whose listing is over with the first request: an exception, or
    a page without token. *)
Definition single_page (k : string) : Prop :=
  match members_list R k None with
  | inl _ => True
  | inr p => nextPageToken p = None
  end.

(** One round of [run_next_batch] on a non-empty queue. *)
Definition round (s : GGBackup) : GGBackup :=
  after (_next_batch s) (set_next_batch (λ _, []) s).

(** The object that at most [fuel] activations of [run_next_batch] leave,
    when every answer can be taken in. *)
Fixpoint run_state (fuel : nat) (s : GGBackup) : GGBackup :=
  match fuel with
  | 0 => s
  | S fuel' =>
      match _next_batch s with
      | [] => s
      | _ => run_state fuel' (round s)
      end
  end.

(** The queues worked on, round after round. *)
Fixpoint rounds (fuel : nat) (W : list (string * members_request))
    : list (list (string * members_request)) :=
  match fuel with
  | 0 => []
  | S fuel' =>
      match W with
      | [] => []
      | _ => W :: rounds fuel' (flat_map succ_requests W)
      end
  end.

(** Whether an activation finds the queue empty before the limit [fuel] on
    the activations is reached. *)
Fixpoint finishes (fuel : nat) (W : list (string * members_request)) : bool :=
  match fuel with
  | 0 => false
  | S fuel' =>
      match W with
      | [] => true
      | _ => finishes fuel' (flat_map succ_requests W)
      end
  end.

(** The number of activations of [run_next_batch], each inside the
    previous one. *)
Fixpoint activations (fuel : nat) (W : list (string * members_request)) : nat :=
  match fuel with
  | 0 => 0
  | S fuel' =>
      match W with
      | [] => 1
      | _ => S (activations fuel' (flat_map succ_requests W))
      end
  end.

(** The requests and frames of a run of [run_next_batch], log records
    left out. *)
Fixpoint visible_run (fuel : nat) (W : list (string * members_request))
    : list event :=
  match fuel with
  | 0 => []
  | S fuel' =>
      Enter "run_next_batch"
        :: match W with
           | [] => []
           | _ => (Send ∘ MembersList <$> W.*2)
                    ++ visible_run fuel' (flat_map succ_requests W)
           end
        ++ [Leave "run_next_batch"]
  end.

(** What the answer to a request does to the record of its group. *)
Definition merge_record (o : option record) (r : string * members_request)
    : option record :=
  match fetch_members R r.2 with
  | inr p => merge_page p <$> o
  | inl _ => o
  end.

(** The object when the first pass of [get_members] starts (an empty queue,
    the batches stored) and when it ends. *)
Definition first_pass_start (s : GGBackup) : GGBackup :=
  set_group_batches (batch (keys (groups s))) (set_next_batch (λ _, []) s).

Definition first_pass (s : GGBackup) : GGBackup :=
  after (first_page <$> keys (groups s)) (first_pass_start s).

(** The object from which the first pass is one more round. *)
Definition queued (s : GGBackup) : GGBackup :=
  set_next_batch (λ _, first_page <$> keys (groups s)) (first_pass_start s).

(** The pages of a group from a page token on: every page but the last
    carries the token of the next one. *)
Inductive page_stream (g : string) : option string → list members_page → Prop :=
| stream_last tok p :
    members_list R g tok = inr p →
    nextPageToken p = None →
    page_stream g tok [p]
| stream_more tok p t ps :
    members_list R g tok = inr p →
    nextPageToken p = Some t →
    page_stream g (Some t) ps →
    page_stream g tok (p :: ps).

(** The listing of a group ends, with a last page or with an exception,
    after at most [n] requests. *)
Inductive stream_ends (g : string) : option string → nat → Prop :=
| ends_exception tok e n :
    members_list R g tok = inl e →
    stream_ends g tok (S n)
| ends_last tok p n :
    members_list R g tok = inr p →
    nextPageToken p = None →
    stream_ends g tok (S n)
| ends_more tok p t n :
    members_list R g tok = inr p →
    nextPageToken p = Some t →
    stream_ends g (Some t) n →
    stream_ends g tok (S n).
(** A queued request whose group's listing ends within [m] requests. *)
Definition ends_within (m : nat) (r : string * members_request) : Prop :=
  groupKey r.2 = r.1 ∧ stream_ends r.1 (nextPage r.2) m.
End Pagination.

(** The queued requests of one group, and queues whose requests carry the
    group they are filed under. *)
Definition for_group (g : string) (W : list (string * members_request))
    : list (string * members_request) :=
  filter (λ r, r.1 = g) W.

Definition coherent (W : list (string * members_request)) : Prop :=
  Forall (λ r, groupKey r.2 = r.1) W.

(** The request for the page of [g] behind a token, filed under [g]. *)
Definition page_request (g : string) (tok : option string)
    : string * members_request :=
  (g, {| groupKey := g; nextPage := tok |}).

(** The requests for the pages of a stream that starts at [tok]. *)
Definition stream_requests (g : string) (tok : option string)
    (ps : list members_page) : list members_request :=
  (λ t, {| groupKey := g; nextPage := t |})
    <$> take (length ps) (tok :: (nextPageToken <$> ps)).

(** The membership requests of a trace, and those about one group. *)
Definition member_sends (ev : list event) : list members_request :=
  omap (λ e, match e with Send (MembersList rq) => Some rq | _ => None end) ev.

Definition sends_for (g : string) (ev : list event) : list members_request :=
  filter (λ rq, groupKey rq = g) (member_sends ev).

(** An event without its log records. *)
Definition visible (e : event) : option event :=
  match e with
  | Log _ _ _ => None
  | _ => Some e
  end.

(** The current and the greatest number of open frames along a trace. *)
Definition depth_step (d : nat * nat) (e : event) : nat * nat :=
  match e with
  | Enter _ => (S d.1, Nat.max d.2 (S d.1))
  | Leave _ => (pred d.1, d.2)
  | _ => d
  end.

Definition stack_depth (ev : list event) : nat :=
  (foldl depth_step (0, 0) ev).2.

(** The activations of [run_next_batch] in a trace, and the continuation
    rounds it starts. *)
Definition entered (ev : list event) : nat :=
  length (omap (λ e, match e with Enter f => Some f | _ => None end) ev).

Definition continued (ev : list event) : nat :=
  length (omap (λ e, match e with
                     | Log _ msg _ =>
                         if decide (msg = "Building next page batches.")
                         then Some msg else None
                     | _ => None
                     end) ev).

(** The skeleton of a trace: the frames, and the records that start a
    continuation round. *)
Definition skeleton (ev : list event) : list event :=
  omap (λ e, match e with
             | Enter _ | Leave _ => Some e
             | Log _ msg _ =>
                 if decide (msg = "Building next page batches.")
                 then Some e else None
             | Send _ => None
             end) ev.

(** The skeleton of [n] activations, each inside the previous one, of which
    the first [r] start a round. *)
Fixpoint nested (n r : nat) : list event :=
  match n with
  | 0 => []
  | S n' =>
      Enter "run_next_batch"
        :: match r with
           | 0 => []
           | S r' => Log DEBUG "Building next page batches." [] :: nested n' r'
           end
        ++ [Leave "run_next_batch"]
  end.

(** No request for a following page is pending, and none can be built. *)
Definition idle (s : GGBackup) : Prop :=
  takes_nextPage s = false ∧ _next_batch s = [].

(** A trace without continuation round, whose membership requests all ask
    for a first page. *)
Definition first_pages_only (ev : list event) : Prop :=
  continued ev = 0 ∧ Forall (λ rq, nextPage rq = None) (member_sends ev).

(** A computation that keeps an idle object idle, with such a trace. *)
Definition stays_idle {A} (m : M A) : Prop :=
  ∀ s, idle s → idle (obj (m s)) ∧ first_pages_only (trace (m s)).

(** The ids of the requests are keys of the map. *)
Definition known (s : GGBackup) (reqs : list (string * members_request)) : Prop :=
  Forall (λ r, r.1 ∈ keys (groups s)) reqs.

(** What [get_members] relies on: a session, keys that are distinct and in
    lower case (as the listing writes them), records whose ["members"] is a
    list when present, and [_group_batch] as [init] left it. *)
Definition members_ready (s : GGBackup) : Prop :=
  res (check_auth s) = Return tt
  ∧ _group_batch s = None
  ∧ NoDup (keys (groups s))
  ∧ Forall (λ k, lower k = k) (keys (groups s))
  ∧ records_ok (groups s).

(** ** Sample data *)

(** A remote with three groups listed on two pages (the first e-mail in
    upper case), settings that fail for one group, and a two-page membership
    for ["a@x.com"]. *)
Definition sample_remote : Remote := {|
  groups_list := λ _ tok,
    match tok with
    | None =>
        inr {| gp_groups := Some [ {["email" := JStr "A@x.com"]};
                                   {["email" := JStr "b@x.com"]} ];
               gp_nextPageToken := Some "p2" |}
    | Some _ =>
        inr {| gp_groups := Some [ {["email" := JStr "c@x.com"]} ];
               gp_nextPageToken := None |}
    end;
  settings_get := λ g,
    if decide (g = "b@x.com") then inl (HttpError 404 "Not Found")
    else inr {["email" := JStr g; "whoCanJoin" := JStr "INVITED_CAN_JOIN"]};
  members_list := λ g tok,
    match tok with
    | None =>
        inr {| members := Some [JStr "m1"; JStr "m2"];
               nextPageToken :=
                 if decide (g = "a@x.com") then Some "t1" else None |}
    | Some _ =>
        inr {| members := Some [JStr "m3"; JStr "m4"; JStr "m5"];
               nextPageToken := None |}
    end
|}.

(** The sample remote with settings that name ["a@x.com"] in upper case. *)
Definition shouting_remote : Remote := {|
  groups_list := groups_list sample_remote;
  settings_get := λ g,
    if decide (g = "a@x.com")
    then inr {["email" := JStr "A@x.com"; "whoCanJoin" := JStr "ANYONE"]}
    else inl (HttpError 404 "Not Found");
  members_list := members_list sample_remote
|}.

(** A session opened with valid credentials, before and after the listing. *)
Definition sample_session : GGBackup :=
  obj ((load (Some {| invalid := false |});; auth) (init "x.com")).

Definition sample_listed : GGBackup :=
  obj (get_groups sample_remote 2 sample_session).

(** Five groups on one page; the settings and the membership of
    ["c@x.com"] fail. *)
Definition five_remote : Remote := {|
  groups_list := λ _ _,
    inr {| gp_groups :=
             Some ((λ e, {["email" := JStr e]})
                     <$> ["a@x.com"; "b@x.com"; "c@x.com"; "d@x.com"; "e@x.com"]);
           gp_nextPageToken := None |};
  settings_get := λ g,
    if decide (g = "c@x.com") then inl (HttpError 500 "Backend Error")
    else inr {["email" := JStr g; "whoCanJoin" := JStr "INVITED_CAN_JOIN"]};
  members_list := λ g _,
    if decide (g = "c@x.com") then inl (HttpError 500 "Backend Error")
    else inr {| members := Some [JStr g]; nextPageToken := None |}
|}.

Definition five_listed : GGBackup :=
  obj (get_groups five_remote 1 sample_session).

(** A remote with one group whose membership takes [n] pages: the token
    that follows page [i] is a string of [i] letters. *)
Fixpoint token (i : nat) : string :=
  match i with
  | 0 => EmptyString
  | S i' => String "t" (token i')
  end.

Definition page_index (tok : option string) : nat :=
  match tok with
  | None => 0
  | Some t => String.length t
  end.

Definition paged_remote (n : nat) : Remote := {|
  groups_list := λ _ _,
    inr {| gp_groups := Some [ {["email" := JStr "g@x.com"]} ];
           gp_nextPageToken := None |};
  settings_get := λ g, inr {["email" := JStr g]};
  members_list := λ _ tok,
    inr {| members := Some [JNum (Z.of_nat (page_index tok))];
           nextPageToken :=
             if decide (S (page_index tok) < n)
             then Some (token (S (page_index tok))) else None |}
|}.

(** A stand-in for the client whose [members().list] takes [nextPage], as a
    test double of the service does, and an object that holds it. *)
Definition lenient : Service :=
  {| members_query := ["maxResults"; "nextPage"] |}.

Definition lenient_session : GGBackup :=
  {| domain := "x.com"; http_auth := Some ();
     credentials := Some {| invalid := false |};
     service := Some lenient; gsetservice := Some (); groups := [];
     _group_batch := None; _group_batches := None; _next_batch := [] |}.

Definition lenient_group : GGBackup :=
  obj (get_groups (paged_remote 1) 1 lenient_session).

(** ** The credential store *)

(** [save]: [Storage(cred_file).put(self.credentials)].  The store maps the
    path of a file to the credentials it holds; the method hands back the
    store as the write leaves it. *)
Definition save (cred_file : string) (store : gmap string Credentials)
    : M (gmap string Credentials) :=
  check_credentials;;
  s ← get;
  store' ← (match credentials s with
            | Some c => mret (<[cred_file := c]> store)
            | None =>
                raise (AttributeError
                         "'NoneType' object has no attribute 'to_json'")
            end);
  emit (Log INFO "Saved credentials to %s" [ArgStr cred_file]);;
  mret store'.

(** [load] from a path: [Storage(cred_file).get()] is [None] when the file
    holds nothing. *)
Definition load_from (cred_file : string) (store : gmap string Credentials)
    : M unit :=
  load (store !! cred_file).

(** ** The listing, page by page *)

(** The entry that [get_groups] writes for a group: the group under its
    lower-cased e-mail; none when the e-mail is missing or not a string. *)
Definition group_entry (group : record) : option (string * record) :=
  match group !! "email" with
  | Some (JStr e) => Some (lower e, group)
  | _ => None
  end.

(** The exception that [get_groups] raises on a group without entry. *)
Definition group_error (group : record) : exn :=
  match group !! "email" with
  | None => KeyError "email"
  | Some _ => AttributeError "object has no attribute 'lower'"
  end.

(** A page that carries its ['groups'] and only groups with an entry. *)
Definition well_formed_page (page : groups_page) : Prop :=
  is_Some (gp_groups page)
  ∧ Forall (λ group, is_Some (group_entry group)) (default [] (gp_groups page)).

(** The entries of the pages of a listing, in the order they are written. *)
Definition listed_entries (pages : list groups_page) : list (string * record) :=
  omap group_entry (concat ((λ page, default [] (gp_groups page)) <$> pages)).

(** The pages of the listing of a domain from a page token on. *)
Inductive listing_stream (R : Remote) (d : string)
    : option string → list groups_page → Prop :=
| listing_last tok page :
    groups_list R d tok = inr page →
    gp_nextPageToken page = None →
    listing_stream R d tok [page]
| listing_more tok page t pages :
    groups_list R d tok = inr page →
    gp_nextPageToken page = Some t →
    listing_stream R d (Some t) pages →
    listing_stream R d tok (page :: pages).

(** The requests for the pages of a listing that starts at [tok]. *)
Definition listing_requests (d : string) (tok : option string)
    (pages : list groups_page) : list request :=
  GroupsList d <$> take (length pages) (tok :: (gp_nextPageToken <$> pages)).

(** The last entry written under a key, if any. *)
Definition last_entry (k : string) (l : list (string * record)) : option record :=
  snd <$> last (filter (λ kg, kg.1 = k) l).

(** A domain without groups: the listing comes without ['groups']. *)
Definition empty_domain_remote : Remote := {|
  groups_list := λ _ _, inr {| gp_groups := None; gp_nextPageToken := None |};
  settings_get := λ g, inl (HttpError 404 "Not Found");
  members_list := λ _ _, inl (HttpError 404 "Not Found")
|}.

(** A listing whose second group has no e-mail. *)
Definition broken_remote : Remote := {|
  groups_list := λ _ _,
    inr {| gp_groups := Some [ {["email" := JStr "A@x.com"]};
                               {["name" := JStr "nameless"]};
                               {["email" := JStr "c@x.com"]} ];
           gp_nextPageToken := None |};
  settings_get := λ g, inl (HttpError 404 "Not Found");
  members_list := λ _ _, inl (HttpError 404 "Not Found")
|}.

(** The two pages of the listing of the sample remote. *)
Definition sample_listing : list groups_page :=
  [ {| gp_groups := Some [ {["email" := JStr "A@x.com"]};
                           {["email" := JStr "b@x.com"]} ];
       gp_nextPageToken := Some "p2" |};
    {| gp_groups := Some [ {["email" := JStr "c@x.com"]} ];
       gp_nextPageToken := None |} ].

(** ** What a method leaves alone *)

(** A computation that, however it ends, leaves an observation of the
    object as it found it. *)
Definition preserves {X A : Type} (f : GGBackup → X) (m : M A) : Prop :=
  ∀ s, f (obj (m s)) = f s.

(** The attributes that [__init__], [load] and [auth] set. *)
Definition session_of (s : GGBackup) :=
  (domain s, http_auth s, credentials s, service s, gsetservice s,
   _group_batch s).

(** The keys of the map, in order. *)
Definition group_keys (s : GGBackup) : list string := keys (groups s).

(** ** The settings of the map *)

(** The answer of the settings service for a key is an exception, or
    settings whose e-mail is the key up to case. *)
Definition settings_answer_ok (R : Remote) (k : string) : Prop :=
  match settings_get R k with
  | inl _ => True
  | inr resp => ∃ e, resp !! "email" = Some (JStr e) ∧ lower e = k
  end.

(** A record after the answer for its key. *)
Definition merge_settings (R : Remote) (k : string) (rec : record) : record :=
  match settings_get R k with
  | inr resp => resp ∪ rec
  | inl _ => rec
  end.

(** The map after the answer for a key. *)
Definition settle (R : Remote) (G : dict record) (k : string) : dict record :=
  match dict_get k G with
  | Some rec => dict_set k (merge_settings R k rec) G
  | None => G
  end.

(** The settings requests of a trace. *)
Definition settings_sends (ev : list event) : list string :=
  omap (λ e, match e with Send (SettingsGet g) => Some g | _ => None end) ev.

(** What [get_settings] needs besides answers: a session, and
    [_group_batch] as [init] left it. *)
Definition settings_ready (s : GGBackup) : Prop :=
  res (check_auth s) = Return tt ∧ _group_batch s = None.

(** ** A listing with an odd record *)

(** A listing whose first group comes with a ["members"] that is no list. *)
Definition odd_remote : Remote := {|
  groups_list := λ _ _,
    inr {| gp_groups :=
             Some [ {["email" := JStr "g@x.com"; "members" := JStr "none"]};
                    {["email" := JStr "h@x.com"]} ];
           gp_nextPageToken := None |};
  settings_get := λ g, inr {["email" := JStr g]};
  members_list := λ _ _,
    inr {| members := Some [JStr "m1"]; nextPageToken := Some "t1" |}
|}.

Definition odd_listed : GGBackup :=
  obj (get_groups odd_remote 1 sample_session).

(** * Properties of [batch] *)

Section BatchFacts.
Context {A : Type}.
Implicit Types (items : list A) (i k n : nat).

Lemma batch_count_div items :
  batch_count items = ((Z.of_nat (length items) + 999) / 1000)%Z.
Proof.
  unfold batch_count, Qceiling, Qfloor, Qopp, Qdiv, Qmult, Qinv, inject_Z.
  cbn [Qnum Qden].
  replace (Z.pos (1 * 1000)) with 1000%Z by reflexivity.
  generalize (Z.of_nat (length items)) (Nat2Z.is_nonneg (length items)).
  intros z Hz. rewrite Z.mul_1_r.
  pose proof (Z.div_mod (- z) 1000 ltac:(lia)).
  pose proof (Z.mod_pos_bound (- z) 1000 ltac:(lia)).
  pose proof (Z.div_mod (z + 999) 1000 ltac:(lia)).
  pose proof (Z.mod_pos_bound (z + 999) 1000 ltac:(lia)).
  lia.
Qed.

Lemma batch_count_nat items :
  batch_count items = Z.of_nat ((length items + 999) / 1000).
Proof.
  rewrite batch_count_div, Nat2Z.inj_div, Nat2Z.inj_add. reflexivity.
Qed.

Lemma batch_loop_chunks fuel items c i batches :
  c - i ≤ fuel →
  batch_loop fuel items (Z.of_nat c) i batches
  = Some (batches ++ (chunk items <$> seq i (c - i))).
Proof.
  revert i batches. induction fuel as [|fuel IH]; intros i batches Hfuel.
  - cbn. destruct (Z.ltb_spec (Z.of_nat i) (Z.of_nat c)); [lia|].
    replace (c - i) with 0 by lia. by rewrite app_nil_r.
  - cbn [batch_loop]. destruct (Z.ltb_spec (Z.of_nat i) (Z.of_nat c)).
    + rewrite IH by lia.
      replace (c - i) with (S (c - (i + 1))) by lia.
      cbn [seq fmap list_fmap]. rewrite <- app_assoc.
      by replace (S i) with (i + 1) by lia.
    + replace (c - i) with 0 by lia. by rewrite app_nil_r.
Qed.

Lemma div_up_le n : (n + 999) / 1000 ≤ n.
Proof.
  destruct n as [|n]; [done|].
  apply Nat.Div0.div_le_upper_bound. lia.
Qed.

Lemma batch_fuel_enough fuel items :
  (length items + 999) / 1000 ≤ fuel →
  batch_fuel fuel items
  = Some (chunk items <$> seq 0 ((length items + 999) / 1000)).
Proof.
  intros Hfuel. unfold batch_fuel. rewrite batch_count_nat.
  rewrite batch_loop_chunks by lia. by rewrite Nat.sub_0_r.
Qed.

Lemma batch_chunks items :
  batch items = chunk items <$> seq 0 ((length items + 999) / 1000).
Proof.
  unfold batch. by rewrite batch_fuel_enough by apply div_up_le.
Qed.

Lemma concat_chunks items c :
  concat (chunk items <$> seq 0 c) = take (c * 1000) items.
Proof.
  induction c as [|c IH]; [done|].
  rewrite seq_S, fmap_app, concat_app, IH. cbn.
  rewrite app_nil_r. unfold chunk, slice.
  replace ((c + 1) * 1000 - c * 1000) with 1000 by lia.
  rewrite take_take_drop. f_equal. lia.
Qed.

Lemma batch_concat items : concat (batch items) = items.
Proof.
  rewrite batch_chunks, concat_chunks. apply take_ge.
  pose proof (Nat.div_mod (length items + 999) 1000 ltac:(lia)).
  pose proof (Nat.mod_upper_bound (length items + 999) 1000 ltac:(lia)).
  lia.
Qed.

Lemma batch_length items : length (batch items) = (length items + 999) / 1000.
Proof. by rewrite batch_chunks, length_fmap, length_seq. Qed.

Lemma chunk_length items i :
  length (chunk items i) = Nat.min 1000 (length items - i * 1000).
Proof.
  unfold chunk, slice. rewrite length_take, length_drop. lia.
Qed.

Lemma batch_chunk_bounds items :
  Forall (λ c, 0 < length c ≤ 1000) (batch items).
Proof.
  rewrite batch_chunks. apply Forall_fmap, Forall_forall.
  intros i Hi%elem_of_seq. cbn. rewrite chunk_length.
  pose proof (Nat.div_mod (length items + 999) 1000 ltac:(lia)).
  pose proof (Nat.mod_upper_bound (length items + 999) 1000 ltac:(lia)).
  lia.
Qed.

Lemma batch_nil : batch (@nil A) = [].
Proof. reflexivity. Qed.

Lemma batch_exact items k :
  length items = 1000 * k →
  length (batch items) = k ∧ Forall (λ c, length c = 1000) (batch items).
Proof.
  intros Hk.
  assert ((length items + 999) / 1000 = k) as Hdiv.
  { rewrite Hk. symmetry. apply Nat.div_unique with 999; lia. }
  split; [by rewrite batch_length|].
  rewrite batch_chunks, Hdiv. apply Forall_fmap, Forall_forall.
  intros i Hi%elem_of_seq. cbn. rewrite chunk_length. lia.
Qed.
End BatchFacts.

(** C1.  [batch] always returns (the loop needs at most [len(items)]
    iterations); its result is the sequence of consecutive slices
    [items[1000*i : 1000*(i+1)]], whose concatenation is [items]; every chunk
    holds between 1 and 1000 items; there are [ceil(len(items)/1000)] chunks;
    the empty sequence gives no chunk; and a sequence of [1000*k] items gives
    exactly [k] chunks of 1000 items, none of them empty. *)
Theorem batch_partition {A : Type} (items : list A) :
  (∀ fuel, length items ≤ fuel → batch_fuel fuel items = Some (batch items))
  ∧ batch items = (λ i, slice items (i * 1000) ((i + 1) * 1000))
                    <$> seq 0 (length (batch items))
  ∧ concat (batch items) = items
  ∧ Forall (λ c, 0 < length c ≤ 1000) (batch items)
  ∧ Z.of_nat (length (batch items))
    = Qceiling (inject_Z (Z.of_nat (length items)) / 1000)
  ∧ length (batch items) = (length items + 999) / 1000
  ∧ batch (@nil A) = []
  ∧ (∀ k, length items = 1000 * k →
       length (batch items) = k ∧ Forall (λ c, length c = 1000) (batch items)).
Proof.
  split_and!.
  - intros fuel Hfuel. rewrite batch_chunks. apply batch_fuel_enough.
    pose proof (div_up_le (length items)). lia.
  - rewrite batch_length. apply batch_chunks.
  - apply batch_concat.
  - apply batch_chunk_bounds.
  - rewrite batch_length. symmetry. apply batch_count_nat.
  - apply batch_length.
  - reflexivity.
  - apply batch_exact.
Qed.

(** A sequence of 2000 items is cut into exactly two full chunks. *)
Lemma batch_partition_witness :
  length (replicate 2000 tt) = 1000 * 2
  ∧ length (batch (replicate 2000 tt)) = 2
  ∧ Forall (λ c, length c = 1000) (batch (replicate 2000 tt)).
Proof.
  split; [reflexivity|].
  apply (batch_partition (replicate 2000 tt)). reflexivity.
Defined.


(** * Reasoning about computations *)

Section MonadFacts.
Context {A B : Type}.

Lemma bind_run (m : M A) (f : A → M B) s :
  (m ≫= f) s
  = match m s with
    | (Return a, s', ev) => let '(r, s'', ev') := f a s' in (r, s'', ev ++ ev')
    | (Raise e, s', ev) => (Raise e, s', ev)
    | (OutOfFuel, s', ev) => (OutOfFuel, s', ev)
    end.
Proof. reflexivity. Qed.

Lemma bind_Return (m : M A) (f : A → M B) s a s' ev :
  m s = (Return a, s', ev) →
  (m ≫= f) s = (res (f a s'), obj (f a s'), ev ++ trace (f a s')).
Proof.
  intros Hm. rewrite bind_run, Hm. by destruct (f a s') as [[??]?].
Qed.

Lemma bind_Raise (m : M A) (f : A → M B) s e s' ev :
  m s = (Raise e, s', ev) → (m ≫= f) s = (Raise e, s', ev).
Proof. intros Hm. by rewrite bind_run, Hm. Qed.

Lemma bind_OutOfFuel (m : M A) (f : A → M B) s s' ev :
  m s = (OutOfFuel, s', ev) → (m ≫= f) s = (OutOfFuel, s', ev).
Proof. intros Hm. by rewrite bind_run, Hm. Qed.
End MonadFacts.

(** Runs the primitive steps of a computation applied to an object. *)
Ltac run :=
  repeat (unfold mbind, M_bind, mret, M_ret, get, emit, modify, raise,
            out_of_fuel, str_lower;
          cbn).

Lemma run_eta {A} (x : result A * GGBackup * list event) :
  x = (res x, obj x, trace x).
Proof. by destruct x as [[??]?]. Qed.

Lemma for_app {A} (l1 l2 : list A) (body : A → M unit) s :
  for_ (l1 ++ l2) body s = (for_ l1 body;; for_ l2 body) s.
Proof.
  revert s. induction l1 as [|x l1 IH]; intros s.
  - cbn. rewrite bind_run. cbn. by destruct (for_ l2 body s) as [[??]?].
  - cbn [app for_]. rewrite !bind_run.
    destruct (body x s) as [[[[]|e|] s1] ev1]; try done.
    rewrite IH, !bind_run.
    destruct (for_ l1 body s1) as [[[[]|e|] s2] ev2]; try done.
    destruct (for_ l2 body s2) as [[r3 s3] ev3]. by rewrite app_assoc.
Qed.

(** * The session check *)

Lemma check_auth_run s :
  check_auth s
  = match http_auth s, service s, gsetservice s with
    | None, _, _ => (Raise (Exception "HTTP Auth not completed."), s, [])
    | Some _, None, _ =>
        (Raise (Exception "Admin SDK service is not available."), s, [])
    | Some _, Some _, None =>
        (Raise (Exception "Groups Settings service is not available."), s, [])
    | Some _, Some _, Some _ => (Return tt, s, [])
    end.
Proof.
  unfold check_auth. rewrite bind_run. cbn.
  by destruct (http_auth s), (service s), (gsetservice s).
Qed.

Lemma check_auth_raise_bind {B} (k : M B) s e :
  check_auth s = (Raise e, s, []) → (check_auth;; k) s = (Raise e, s, []).
Proof. apply bind_Raise. Qed.

(** C9.  Each of [get_groups], [get_settings] and [get_members] starts with
    [check_auth]: when the HTTP transport, the directory service or the
    settings service is unset (looked at in this order), the operation raises
    the exception that names it, sends no request, logs nothing and leaves
    the object, hence the group-record map, as it was. *)
Theorem fetch_requires_session (R : Remote) (fuel : nat) (s : GGBackup)
    (op : M unit) :
  op ∈ [get_groups R fuel; get_settings R; get_members R fuel] →
  (http_auth s = None →
     op s = (Raise (Exception "HTTP Auth not completed."), s, []))
  ∧ (is_Some (http_auth s) → service s = None →
     op s = (Raise (Exception "Admin SDK service is not available."), s, []))
  ∧ (is_Some (http_auth s) → is_Some (service s) → gsetservice s = None →
     op s = (Raise (Exception "Groups Settings service is not available."),
             s, [])).
Proof.
  intros Hop.
  assert (∃ k : M unit, op = (check_auth;; k)) as [k ->].
  { rewrite !elem_of_cons, elem_of_nil in Hop.
    destruct Hop as [->|[->|[->|[]]]]; eexists; reflexivity. }
  split_and!.
  - intros H1. apply check_auth_raise_bind. by rewrite check_auth_run, H1.
  - intros [h1 H1] H2. apply check_auth_raise_bind.
    by rewrite check_auth_run, H1, H2.
  - intros [h1 H1] [h2 H2] H3. apply check_auth_raise_bind.
    by rewrite check_auth_run, H1, H2, H3.
Qed.

(** An object fresh from [init] has no transport: the listing is refused. *)
Lemma fetch_requires_session_witness :
  get_groups sample_remote 2 (init "x.com")
  = (Raise (Exception "HTTP Auth not completed."), init "x.com", []).
Proof.
  apply (fetch_requires_session sample_remote 2 (init "x.com")
           (get_groups sample_remote 2)).
  - apply list_elem_of_here.
  - reflexivity.
Defined.

(** * Dictionaries *)

Section DictFacts.
Context {V : Type}.
Implicit Types (d : dict V) (k : string) (v : V).

Lemma dict_get_set_eq k v d : dict_get k (dict_set k v d) = Some v.
Proof.
  induction d as [|[k' v'] d IH]; cbn.
  - by rewrite decide_True.
  - destruct (decide (k = k')) as [->|Hne]; cbn.
    + by rewrite decide_True.
    + by rewrite decide_False.
Qed.

Lemma dict_get_set_ne k k' v d :
  k ≠ k' → dict_get k' (dict_set k v d) = dict_get k' d.
Proof.
  intros Hne. induction d as [|[k1 v1] d IH]; cbn.
  - by rewrite decide_False.
  - destruct (decide (k = k1)) as [->|Hne1]; cbn.
    + by rewrite !decide_False.
    + by rewrite IH.
Qed.

Lemma dict_get_Some_keys k v d : dict_get k d = Some v → k ∈ keys d.
Proof.
  induction d as [|[k1 v1] d IH]; cbn; [done|].
  destruct (decide (k = k1)) as [->|Hne]; intros Hget.
  - apply list_elem_of_here.
  - apply list_elem_of_further. by apply IH.
Qed.

Lemma dict_get_is_Some k d : k ∈ keys d → is_Some (dict_get k d).
Proof.
  induction d as [|[k1 v1] d IH]; cbn.
  - by intros ?%elem_of_nil.
  - destruct (decide (k = k1)) as [->|Hne]; [by eexists|].
    intros [?|?]%elem_of_cons; [done|]. by apply IH.
Qed.

Lemma dict_get_None k d : k ∉ keys d → dict_get k d = None.
Proof.
  intros Hk. destruct (dict_get k d) as [v|] eqn:Hget; [|done].
  by apply dict_get_Some_keys in Hget.
Qed.

Lemma keys_dict_set_in k v d : k ∈ keys d → keys (dict_set k v d) = keys d.
Proof.
  induction d as [|[k1 v1] d IH]; cbn.
  - by intros ?%elem_of_nil.
  - destruct (decide (k = k1)) as [->|Hne]; [done|].
    intros [?|?]%elem_of_cons; [done|]. cbn. f_equal. by apply IH.
Qed.

Lemma keys_dict_set_notin k v d : k ∉ keys d → keys (dict_set k v d) = keys d ++ [k].
Proof.
  induction d as [|[k1 v1] d IH]; cbn; [done|].
  intros Hk. apply not_elem_of_cons in Hk as [Hne Hk].
  rewrite decide_False by done. cbn. f_equal. by apply IH.
Qed.

Lemma elem_of_keys_dict_set k k' v d :
  k' ∈ keys (dict_set k v d) ↔ k' = k ∨ k' ∈ keys d.
Proof.
  destruct (decide (k ∈ keys d)) as [Hin|Hnin].
  - rewrite keys_dict_set_in by done.
    split; [by right|]. by intros [->|?].
  - rewrite keys_dict_set_notin, elem_of_app, list_elem_of_singleton by done.
    tauto.
Qed.

Lemma NoDup_keys_dict_set k v d : NoDup (keys d) → NoDup (keys (dict_set k v d)).
Proof.
  intros Hnd. destruct (decide (k ∈ keys d)) as [Hin|Hnin].
  - by rewrite keys_dict_set_in.
  - rewrite keys_dict_set_notin by done. apply NoDup_app. split_and!; [done| |].
    + intros x Hx ->%list_elem_of_singleton. done.
    + apply NoDup_singleton.
Qed.

Lemma dict_set_id k v d : dict_get k d = Some v → dict_set k v d = d.
Proof.
  induction d as [|[k1 v1] d IH]; cbn; [done|].
  destruct (decide (k = k1)) as [->|Hne].
  - by intros [= ->].
  - intros Hget. by rewrite IH.
Qed.

Lemma dict_set_set k v v' d : dict_set k v' (dict_set k v d) = dict_set k v' d.
Proof.
  induction d as [|[k1 v1] d IH]; cbn.
  - by rewrite decide_True.
  - destruct (decide (k = k1)) as [->|Hne]; cbn.
    + by rewrite decide_True.
    + by rewrite decide_False, IH.
Qed.

Lemma dict_set_comm k k' v v' d :
  k ≠ k' → k ∈ keys d →
  dict_set k' v' (dict_set k v d) = dict_set k v (dict_set k' v' d).
Proof.
  intros Hne. induction d as [|[k1 v1] d IH]; cbn.
  - by intros ?%elem_of_nil.
  - intros Hin.
    destruct (decide (k = k1)) as [->|Hne1], (decide (k' = k1)) as [->|Hne2];
      cbn; try done.
    + by rewrite decide_False, decide_True.
    + by rewrite decide_True, decide_False.
    + rewrite !decide_False by done.
      apply elem_of_cons in Hin as [?|Hin]; [done|]. by rewrite IH.
Qed.
End DictFacts.

Lemma getitem_run (d : record) k s :
  getitem d k s
  = match d !! k with
    | Some v => (Return v, s, [])
    | None => (Raise (KeyError k), s, [])
    end.
Proof. unfold getitem. by destruct (d !! k). Qed.

(** * The settings callback *)

Lemma set_groups_groups f s : groups (set_groups f s) = f (groups s).
Proof. reflexivity. Qed.

Lemma add_settings_exception rid response e s :
  add_settings rid response (Some e) s
  = (Return tt, s,
     [Log WARNING "Exception encountered while gathering settings: %s"
        [ArgExn e]]).
Proof. reflexivity. Qed.

Lemma add_settings_success rid (response : record) e s :
  response !! "email" = Some (JStr e) →
  add_settings rid (Some response) None s
  = match dict_get (lower e) (groups s) with
    | Some rec =>
        (Return tt, set_groups (dict_set (lower e) (response ∪ rec)) s,
         [Log DEBUG "Settings for group %s retrieved." [ArgJson (JStr e)]])
    | None =>
        (Raise (KeyError (lower e)), s,
         [Log DEBUG "Settings for group %s retrieved." [ArgJson (JStr e)]])
    end.
Proof.
  intros Hemail. unfold add_settings. run. unfold getitem. rewrite Hemail. run.
  destruct (dict_get (lower e) (groups s)); by run.
Qed.

Lemma answer_inl {Rq Rs} (remote : Rq → exn + Rs) callback r e :
  remote r.2 = inl e → answer remote callback r = callback r.1 None (Some e).
Proof. intros Hr. unfold answer. by rewrite Hr. Qed.

Lemma answer_inr {Rq Rs} (remote : Rq → exn + Rs) callback r a :
  remote r.2 = inr a → answer remote callback r = callback r.1 (Some a) None.
Proof. intros Hr. unfold answer. by rewrite Hr. Qed.

(** An exception raised by the callback ends the delivery of a batch. *)
Lemma deliver_raise {Rq Rs} (remote : Rq → exn + Rs) callback pre r post s e s' ev :
  res (deliver remote callback pre s) = Return tt →
  answer remote callback r (obj (deliver remote callback pre s))
  = (Raise e, s', ev) →
  deliver remote callback (pre ++ r :: post) s
  = (Raise e, s', trace (deliver remote callback pre s) ++ ev).
Proof.
  intros Hpre Hr. unfold deliver in *. rewrite for_app, bind_run.
  rewrite (run_eta (for_ pre _ s)), Hpre. cbn [for_].
  rewrite bind_run, Hr. reflexivity.
Qed.

(** C10.  A successful settings answer whose lower-cased e-mail is not a key
    of [self.groups] makes [add_settings] raise [KeyError] on that key: no
    warning is logged (only the debug record that precedes the lookup) and
    the object is left as it was.  The exception ends the delivery of the
    batch: the answers that follow are not merged. *)
Theorem add_settings_unknown_group (rid : string) (response : record)
    (e : string) (s : GGBackup) :
  response !! "email" = Some (JStr e) →
  dict_get (lower e) (groups s) = None →
  add_settings rid (Some response) None s
  = (Raise (KeyError (lower e)), s,
     [Log DEBUG "Settings for group %s retrieved." [ArgJson (JStr e)]])
  ∧ ∀ (remote : string → exn + record) pre g post s0,
      res (deliver remote add_settings pre s0) = Return tt →
      obj (deliver remote add_settings pre s0) = s →
      remote g = inr response →
      let out := deliver remote add_settings (pre ++ (rid, g) :: post) s0 in
      res out = Raise (KeyError (lower e)) ∧ obj out = s.
Proof.
  intros Hemail Hget.
  assert (add_settings rid (Some response) None s
          = (Raise (KeyError (lower e)), s,
             [Log DEBUG "Settings for group %s retrieved." [ArgJson (JStr e)]]))
    as Hrun by (by rewrite (add_settings_success _ _ e), Hget).
  split; [done|].
  intros remote pre g post s0 Hpre Hobj Hg out. subst out.
  erewrite deliver_raise; [done|done|].
  rewrite (answer_inr _ _ _ response), Hobj by done. apply Hrun.
Qed.

(** The listing knows no ["z@x.com"]: its settings answer raises. *)
Lemma add_settings_unknown_group_witness :
  add_settings "1" (Some {["email" := JStr "Z@x.com"]}) None sample_listed
  = (Raise (KeyError "z@x.com"), sample_listed,
     [Log DEBUG "Settings for group %s retrieved." [ArgJson (JStr "Z@x.com")]]).
Proof.
  apply (add_settings_unknown_group "1" {["email" := JStr "Z@x.com"]}
           "Z@x.com" sample_listed); reflexivity.
Defined.

(** The merge step: a successful settings answer whose lower-cased e-mail
    is a key of [self.groups] is merged into the record stored under that
    lower-cased key: the record gets every field of the answer, keeps its
    other fields, and neither the keys of the map nor any other record
    change. *)
Lemma add_settings_merge_step (rid : string) (response rec : record)
    (e : string) (s : GGBackup) :
  response !! "email" = Some (JStr e) →
  dict_get (lower e) (groups s) = Some rec →
  let out := add_settings rid (Some response) None s in
  res out = Return tt
  ∧ obj out = set_groups (dict_set (lower e) (response ∪ rec)) s
  ∧ keys (groups (obj out)) = keys (groups s)
  ∧ (∃ rec', dict_get (lower e) (groups (obj out)) = Some rec'
       ∧ ∀ f, rec' !! f = match response !! f with
                          | Some v => Some v
                          | None => rec !! f
                          end)
  ∧ (∀ k, k ≠ lower e →
       dict_get k (groups (obj out)) = dict_get k (groups s)).
Proof.
  intros Hemail Hget out. subst out.
  rewrite (add_settings_success _ _ e), Hget by done.
  unfold res, obj. cbn [fst snd]. rewrite set_groups_groups.
  split_and!; [done|done| | |].
  - apply keys_dict_set_in. by eapply dict_get_Some_keys.
  - eexists. split; [apply dict_get_set_eq|].
    intros f. rewrite lookup_union.
    by destruct (response !! f), (rec !! f).
  - intros k Hk. by apply dict_get_set_ne.
Qed.

(** * Failed sub-requests *)

Lemma add_members_exception rid response e s :
  add_members rid response (Some e) s
  = (Return tt, s,
     [Log WARNING "Exception encountered while gathering group members: %s"
        [ArgExn e]]).
Proof. reflexivity. Qed.

(** A sub-request on which the callback only logs is transparent for the
    rest of its batch. *)
Lemma deliver_skip {Rq Rs} (remote : Rq → exn + Rs) callback pre r post s e w :
  remote r.2 = inl e →
  (∀ s', callback r.1 None (Some e) s' = (Return tt, s', w)) →
  res (deliver remote callback (pre ++ r :: post) s)
  = res (deliver remote callback (pre ++ post) s)
  ∧ obj (deliver remote callback (pre ++ r :: post) s)
    = obj (deliver remote callback (pre ++ post) s).
Proof.
  intros Hr Hcb. unfold deliver. rewrite !for_app, !bind_run.
  destruct (for_ pre _ s) as [[[[]|e1|] s1] ev1]; try done.
  cbn [for_]. rewrite bind_run, (answer_inl _ _ _ e), Hcb by done.
  by destruct (for_ post _ s1) as [[??]?].
Qed.

(** C6.  When a sub-request of a batch comes back with an exception, the
    callback of [get_settings] and the callback of [get_members] log one
    warning and return: the object is left as it was (no record changes,
    nothing is queued for a second attempt), and the other answers of the
    batch are merged as if the failed sub-request had not been part of it. *)
Theorem sub_request_error_isolated
    (settings : string → exn + record)
    (membership : members_request → exn + members_page)
    (pre post : list (string * string))
    (pre' post' : list (string * members_request))
    (rid g rid' : string) (rq : members_request) (e e' : exn) (s : GGBackup) :
  settings g = inl e →
  membership rq = inl e' →
  (∀ response s',
     add_settings rid response (Some e) s'
     = (Return tt, s',
        [Log WARNING "Exception encountered while gathering settings: %s"
           [ArgExn e]]))
  ∧ (∀ response s',
     add_members rid' response (Some e') s'
     = (Return tt, s',
        [Log WARNING
           "Exception encountered while gathering group members: %s"
           [ArgExn e']]))
  ∧ res (deliver settings add_settings (pre ++ (rid, g) :: post) s)
    = res (deliver settings add_settings (pre ++ post) s)
  ∧ obj (deliver settings add_settings (pre ++ (rid, g) :: post) s)
    = obj (deliver settings add_settings (pre ++ post) s)
  ∧ res (deliver membership add_members (pre' ++ (rid', rq) :: post') s)
    = res (deliver membership add_members (pre' ++ post') s)
  ∧ obj (deliver membership add_members (pre' ++ (rid', rq) :: post') s)
    = obj (deliver membership add_members (pre' ++ post') s).
Proof.
  intros Hg Hrq.
  pose proof (deliver_skip settings add_settings pre (rid, g) post s e _
                Hg (λ s', add_settings_exception rid None e s')) as [??].
  pose proof (deliver_skip membership add_members pre' (rid', rq) post' s e' _
                Hrq (λ s', add_members_exception rid' None e' s')) as [??].
  split_and!; done.
Qed.

(** A batch of five settings answers, the third one failed: the four others
    are merged, and ["c@x.com"] keeps the record of the listing. *)
Lemma sub_request_error_isolated_witness :
  let reqs := auto_ids ["a@x.com"; "b@x.com"; "c@x.com"; "d@x.com"; "e@x.com"] in
  let out := deliver (settings_get five_remote) add_settings reqs five_listed in
  res out = Return tt
  ∧ ((λ kv, (kv.1, kv.2 !! "whoCanJoin")) <$> groups (obj out))
    = [("a@x.com", Some (JStr "INVITED_CAN_JOIN"));
       ("b@x.com", Some (JStr "INVITED_CAN_JOIN"));
       ("c@x.com", None);
       ("d@x.com", Some (JStr "INVITED_CAN_JOIN"));
       ("e@x.com", Some (JStr "INVITED_CAN_JOIN"))].
Proof.
  destruct (sub_request_error_isolated
    (settings_get five_remote) (fetch_members five_remote)
    [("1", "a@x.com"); ("2", "b@x.com")] [("4", "d@x.com"); ("5", "e@x.com")]
    [] []
    "3" "c@x.com" "c@x.com" {| groupKey := "c@x.com"; nextPage := None |}
    (HttpError 500 "Backend Error") (HttpError 500 "Backend Error")
    five_listed) as (_ & _ & Hres & Hobj & _); [reflexivity..|].
  change (auto_ids ["a@x.com"; "b@x.com"; "c@x.com"; "d@x.com"; "e@x.com"])
    with ([("1", "a@x.com"); ("2", "b@x.com")]
            ++ ("3", "c@x.com") :: [("4", "d@x.com"); ("5", "e@x.com")]).
  cbv zeta. rewrite Hres, Hobj. vm_compute. split; reflexivity.
Defined.

(** * The cached batches *)

(** [_group_batch] is [None] from [init] on and no method assigns it, so the
    property computes the batches at every access. *)
Lemma group_batches_recomputes s :
  _group_batch s = None →
  group_batches s
  = (Return (batch (keys (groups s))),
     set_group_batches (batch (keys (groups s))) s, []).
Proof. intros Hnone. unfold group_batches. run. rewrite Hnone. by run. Qed.

(** C2.  The batches are not frozen by the first access.  The listing holds
    three groups when [group_batches] is first read; a second listing then
    adds two groups, and the next read returns a partition with the five
    keys, not the three-key partition stored by the first read. *)
Theorem group_batches_not_cached :
  let first := group_batches sample_listed in
  let relisted := obj (get_groups five_remote 1 (obj first)) in
  let second := group_batches relisted in
  res first = Return [["a@x.com"; "b@x.com"; "c@x.com"]]
  ∧ _group_batches (obj first) = Some [["a@x.com"; "b@x.com"; "c@x.com"]]
  ∧ _group_batches relisted = Some [["a@x.com"; "b@x.com"; "c@x.com"]]
  ∧ res second
    = Return [["a@x.com"; "b@x.com"; "c@x.com"; "d@x.com"; "e@x.com"]]
  ∧ res second ≠ res first.
Proof. vm_compute. split_and!; done. Qed.

(** * The listing *)

Section DictSetAll.
Context {V : Type}.
Implicit Types (d l : dict V) (k : string) (v : V).

Lemma dict_set_all_cons k v l d :
  dict_set_all ((k, v) :: l) d = dict_set_all l (dict_set k v d).
Proof. reflexivity. Qed.

Lemma dict_set_all_app l1 l2 d :
  dict_set_all (l1 ++ l2) d = dict_set_all l2 (dict_set_all l1 d).
Proof. apply foldl_app. Qed.

Lemma elem_of_keys_dict_set_all k l d :
  k ∈ keys (dict_set_all l d) ↔ k ∈ keys l ∨ k ∈ keys d.
Proof.
  revert d. induction l as [|[k1 v1] l IH]; intros d.
  - cbn. rewrite elem_of_nil. tauto.
  - rewrite dict_set_all_cons, IH, elem_of_keys_dict_set. cbn.
    rewrite elem_of_cons. tauto.
Qed.

Lemma NoDup_keys_dict_set_all l d :
  NoDup (keys d) → NoDup (keys (dict_set_all l d)).
Proof.
  revert d. induction l as [|[k1 v1] l IH]; intros d Hd; [done|].
  rewrite dict_set_all_cons. by apply IH, NoDup_keys_dict_set.
Qed.

Lemma dict_get_set_all_notin k l d :
  k ∉ keys l → dict_get k (dict_set_all l d) = dict_get k d.
Proof.
  revert d. induction l as [|[k1 v1] l IH]; intros d Hk; [done|].
  cbn in Hk. apply not_elem_of_cons in Hk as [Hne Hk].
  rewrite dict_set_all_cons, IH by done. by apply dict_get_set_ne.
Qed.

(** A write that a later write of the run overrides leaves no mark. *)
Lemma dict_set_all_absorb k v l d :
  k ∈ keys l → k ∈ keys d →
  dict_set_all l (dict_set k v d) = dict_set_all l d.
Proof.
  revert d. induction l as [|[k1 v1] l IH]; intros d Hl Hd.
  - by apply elem_of_nil in Hl.
  - rewrite !dict_set_all_cons. destruct (decide (k = k1)) as [->|Hne].
    + by rewrite dict_set_set.
    + rewrite dict_set_comm by done. apply IH.
      * cbn in Hl. apply elem_of_cons in Hl as [?|?]; done.
      * apply elem_of_keys_dict_set. by right.
Qed.

Lemma dict_set_all_idemp l d :
  dict_set_all l (dict_set_all l d) = dict_set_all l d.
Proof.
  revert d. induction l as [|[k v] l IH]; intros d; [done|].
  rewrite !dict_set_all_cons.
  set (d1 := dict_set k v d). destruct (decide (k ∈ keys l)) as [Hin|Hnin].
  - rewrite dict_set_all_absorb; [apply IH|done|].
    apply elem_of_keys_dict_set_all. right.
    apply elem_of_keys_dict_set. by left.
  - rewrite dict_set_id; [apply IH|].
    rewrite dict_get_set_all_notin by done. apply dict_get_set_eq.
Qed.
End DictSetAll.

Lemma set_groups_ext f g s :
  f (groups s) = g (groups s) → set_groups f s = set_groups g s.
Proof. intros Hfg. unfold set_groups. by rewrite Hfg. Qed.

Lemma set_groups_nil s : set_groups (dict_set_all []) s = s.
Proof. by destruct s. Qed.

Lemma set_groups_app l1 l2 s :
  set_groups (dict_set_all l2) (set_groups (dict_set_all l1) s)
  = set_groups (dict_set_all (l1 ++ l2)) s.
Proof.
  unfold set_groups. cbn. by rewrite dict_set_all_app.
Qed.

Lemma insert_group_run group s :
  insert_group group s
  = match group !! "email" with
    | Some (JStr e) => (Return tt, set_groups (dict_set (lower e) group) s, [])
    | Some _ =>
        (Raise (AttributeError "object has no attribute 'lower'"), s, [])
    | None => (Raise (KeyError "email"), s, [])
    end.
Proof.
  unfold insert_group. rewrite bind_run, getitem_run.
  by destruct (group !! "email") as [[]|].
Qed.

(** The writes of a listing do not depend on the object they are made on. *)
Lemma listing_inserts (gs : list record) :
  ∃ r l ev,
    Forall by_lower_email l
    ∧ ∀ s, for_ gs insert_group s = (r, set_groups (dict_set_all l) s, ev).
Proof.
  induction gs as [|group gs (r & l & ev & Hl & IH)].
  - exists (Return tt), [], []. split; [done|].
    intros s. cbn. by rewrite set_groups_nil.
  - destruct (group !! "email") as [[|b|n|e|l0|o]|] eqn:Hemail.
    4:{ exists r, ((lower e, group) :: l), ev. split.
        - constructor; [by exists e|done].
        - intros s. cbn [for_].
          rewrite bind_run, insert_group_run, Hemail, IH. reflexivity. }
    all: eexists (Raise _), [], []; (split; [done|]); intros s; cbn [for_];
      rewrite bind_run, insert_group_run, Hemail, set_groups_nil;
      reflexivity.
Qed.

Lemma get_groups_loop_S R fuel d tok s :
  get_groups_loop R (S fuel) (Some (GroupsList d tok)) s
  = match groups_list R d tok with
    | inl e => (Raise e, s, [Send (GroupsList d tok)])
    | inr page =>
        match gp_groups page with
        | None => (Raise (KeyError "groups"), s, [Send (GroupsList d tok)])
        | Some gs =>
            let x := for_ gs insert_group s in
            match res x with
            | Return _ =>
                let y := get_groups_loop R fuel (list_next d page) (obj x) in
                (res y, obj y, Send (GroupsList d tok) :: trace x ++ trace y)
            | Raise e => (Raise e, obj x, Send (GroupsList d tok) :: trace x)
            | OutOfFuel => (OutOfFuel, obj x, Send (GroupsList d tok) :: trace x)
            end
        end
    end.
Proof.
  cbn [get_groups_loop]. run.
  destruct (groups_list R d tok) as [e|page]; [done|]. run.
  destruct (gp_groups page) as [gs|]; [|done]. run.
  destruct (for_ gs insert_group s) as [[[[]|e|] s1] ev1]; try done.
  unfold res, obj, trace. cbn.
  by destruct (get_groups_loop R fuel (list_next d page) s1) as [[??]?].
Qed.

Lemma get_groups_loop_inserts R fuel rq :
  ∃ r l ev,
    Forall by_lower_email l
    ∧ ∀ s, get_groups_loop R fuel rq s
           = (r, set_groups (dict_set_all l) s, ev).
Proof.
  revert rq. induction fuel as [|fuel IH]; intros rq.
  - destruct rq as [[d tok| |]|];
      try (exists (Return tt), [], []; (split; [done|]);
           intros s; cbn; by rewrite set_groups_nil).
    exists OutOfFuel, [], []. split; [done|].
    intros s. cbn. by rewrite set_groups_nil.
  - destruct rq as [[d tok| |]|];
      try (exists (Return tt), [], []; (split; [done|]);
           intros s; cbn; by rewrite set_groups_nil).
    destruct (groups_list R d tok) as [e|page] eqn:Hpage.
    { eexists (Raise e), [], _. split; [done|]. intros s.
      rewrite get_groups_loop_S, Hpage, set_groups_nil. reflexivity. }
    destruct (gp_groups page) as [gs|] eqn:Hgs.
    2:{ eexists (Raise _), [], _. split; [done|]. intros s.
        rewrite get_groups_loop_S, Hpage, Hgs, set_groups_nil. reflexivity. }
    destruct (listing_inserts gs) as (r1 & l1 & ev1 & Hl1 & H1).
    destruct (IH (list_next d page)) as (r2 & l2 & ev2 & Hl2 & H2).
    destruct r1 as [[]|e|].
    + exists r2, (l1 ++ l2), (Send (GroupsList d tok) :: ev1 ++ ev2).
      split; [by apply Forall_app|].
      intros s. rewrite get_groups_loop_S, Hpage, Hgs. cbv zeta.
      rewrite H1. unfold res, obj, trace. cbn.
      rewrite H2, set_groups_app. reflexivity.
    + exists (Raise e), l1, (Send (GroupsList d tok) :: ev1). split; [done|].
      intros s. rewrite get_groups_loop_S, Hpage, Hgs. cbv zeta.
      rewrite H1. reflexivity.
    + exists OutOfFuel, l1, (Send (GroupsList d tok) :: ev1). split; [done|].
      intros s. rewrite get_groups_loop_S, Hpage, Hgs. cbv zeta.
      rewrite H1. reflexivity.
Qed.

Lemma check_auth_set_groups f s :
  check_auth (set_groups f s)
  = (res (check_auth s), set_groups f s, []).
Proof.
  rewrite !check_auth_run. cbn.
  by destruct (http_auth s), (service s), (gsetservice s).
Qed.

Lemma check_auth_obj s : check_auth s = (res (check_auth s), s, []).
Proof.
  rewrite !check_auth_run.
  by destruct (http_auth s), (service s), (gsetservice s).
Qed.

Lemma get_groups_run R fuel s :
  get_groups R fuel s
  = match res (check_auth s) with
    | Return _ =>
        let x := get_groups_loop R fuel (Some (GroupsList (domain s) None)) s in
        match res x with
        | Return _ =>
            (Return tt, obj x,
             trace x ++ [Log INFO "Retrieved %s groups."
                           [ArgNat (length (groups (obj x)))]])
        | Raise e => (Raise e, obj x, trace x)
        | OutOfFuel => (OutOfFuel, obj x, trace x)
        end
    | Raise e => (Raise e, s, [])
    | OutOfFuel => (OutOfFuel, s, [])
    end.
Proof.
  unfold get_groups. rewrite bind_run, check_auth_obj.
  destruct (res (check_auth s)) as [[]|e|]; try done.
  run.
  by destruct (get_groups_loop R fuel _ s) as [[[[]|e|] s1] ev1].
Qed.

(** C7.  Listing a second time against the same remote changes nothing: the
    second run ends as the first one did and leaves the object, hence the
    keys of [self.groups] and every record under them, exactly as the first
    run left them.  The map after a run is the map before it with the listed
    groups written under their lower-cased e-mails, and a write under a key
    that exists replaces the record in place, so keys are never duplicated. *)
Theorem get_groups_idempotent (R : Remote) (fuel : nat) (s : GGBackup) :
  let once := get_groups R fuel s in
  let twice := get_groups R fuel (obj once) in
  res twice = res once
  ∧ obj twice = obj once
  ∧ keys (groups (obj twice)) = keys (groups (obj once))
  ∧ (∀ k, dict_get k (groups (obj twice)) = dict_get k (groups (obj once)))
  ∧ (∃ l, Forall by_lower_email l
          ∧ groups (obj once) = dict_set_all l (groups s))
  ∧ (NoDup (keys (groups s)) → NoDup (keys (groups (obj once)))).
Proof.
  intros once twice.
  destruct (get_groups_loop_inserts R fuel
              (Some (GroupsList (domain s) None))) as (r & l & ev & Hl & Hloop).
  assert (obj once = set_groups (dict_set_all (if res (check_auth s) is Return _
                                               then l else [])) s) as Hobj.
  { subst once. rewrite get_groups_run.
    destruct (res (check_auth s)) as [[]|e|]; try by rewrite set_groups_nil.
    cbv zeta. rewrite Hloop. by destruct r as [[]|e|]. }
  assert (twice = once) as Htwice.
  { subst twice. rewrite Hobj. subst once. rewrite !get_groups_run.
    rewrite check_auth_set_groups. unfold res at 1. cbn [fst snd].
    destruct (res (check_auth s)) as [[]|e|]; try by rewrite set_groups_nil.
    cbn [domain set_groups]. cbv zeta. rewrite !Hloop.
    unfold res, obj, trace. cbn [fst snd].
    assert (set_groups (dict_set_all l) (set_groups (dict_set_all l) s)
            = set_groups (dict_set_all l) s) as ->; [|done].
    unfold set_groups. cbn. by rewrite dict_set_all_idemp. }
  rewrite Htwice. split_and!; try done.
  - eexists. split; [|by rewrite Hobj].
    by destruct (res (check_auth s)) as [[]|e|].
  - intros Hnd. rewrite Hobj. cbn. by apply NoDup_keys_dict_set_all.
Qed.

(** Two listings of the sample remote in a row: three keys, as after one. *)
Lemma get_groups_idempotent_witness :
  NoDup (keys (groups sample_session))
  ∧ NoDup (keys (groups (obj (get_groups sample_remote 2 sample_session))))
  ∧ keys (groups (obj (get_groups sample_remote 2
                         (obj (get_groups sample_remote 2 sample_session)))))
    = ["a@x.com"; "b@x.com"; "c@x.com"].
Proof.
  assert (NoDup (keys (groups sample_session))) as Hnd by apply NoDup_nil_2.
  split; [exact Hnd|].
  destruct (get_groups_idempotent sample_remote 2 sample_session)
    as (_ & _ & Hkeys & _ & _ & Hnodup).
  split; [exact (Hnodup Hnd)|].
  rewrite Hkeys. vm_compute. reflexivity.
Defined.

(** * The membership callback *)

Lemma records_ok_get G k rec :
  records_ok G → dict_get k G = Some rec → members_ok rec = true.
Proof.
  unfold records_ok. induction G as [|[k1 v1] G IH]; cbn; [done|].
  intros [Hv HG]%Forall_cons. destruct (decide (k = k1)) as [->|Hne].
  - by intros [= <-].
  - by apply IH.
Qed.

Lemma records_ok_set G k rec :
  records_ok G → members_ok rec = true → records_ok (dict_set k rec G).
Proof.
  unfold records_ok. intros HG Hrec.
  induction G as [|[k1 v1] G IH]; cbn.
  - by repeat constructor.
  - apply Forall_cons in HG as [Hv HG].
    destruct (decide (k = k1)) as [->|Hne]; constructor; auto.
Qed.

Lemma members_ok_merge_page p rec : members_ok (merge_page p rec) = true.
Proof. unfold members_ok, merge_page. by rewrite lookup_insert_eq. Qed.

Lemma extend_members_run rec new s :
  members_ok rec = true →
  extend_members (if rec !! "members" is None
                  then <["members" := JList []]> rec else rec) new s
  = (Return (<["members" := JList (record_members rec ++ new)]> rec), s, []).
Proof.
  unfold members_ok, extend_members, record_members.
  destruct (rec !! "members") as [[]|] eqn:Hm; try done.
  - intros _. by rewrite Hm.
  - intros _. by rewrite lookup_insert_eq, insert_insert_eq.
Qed.

(** The keywords of the two calls of [members().list]. *)
Lemma accepts_groupKey svc : accepts svc "groupKey" = true.
Proof. apply bool_decide_eq_true_2, list_elem_of_here. Qed.

Lemma accepts_alt svc : accepts svc "alt" = true.
Proof.
  apply bool_decide_eq_true_2, list_elem_of_further, list_elem_of_here.
Qed.

Lemma list_members_first svc g :
  list_members svc [("groupKey", g); ("alt", "json")]
  = inr {| groupKey := g; nextPage := None |}.
Proof.
  unfold list_members. rewrite !filter_cons. cbn [fst].
  rewrite accepts_groupKey, accepts_alt.
  by rewrite !decide_False by done.
Qed.

Lemma list_members_next svc rid tok :
  accepts svc "nextPage" = true →
  list_members svc [("groupKey", rid); ("nextPage", tok); ("alt", "json")]
  = inr {| groupKey := rid; nextPage := Some tok |}.
Proof.
  intros Hnext. unfold list_members. rewrite !filter_cons. cbn [fst].
  rewrite accepts_groupKey, accepts_alt, Hnext.
  by rewrite !decide_False by done.
Qed.

Lemma list_members_refused svc rid tok :
  accepts svc "nextPage" = false →
  list_members svc [("groupKey", rid); ("nextPage", tok); ("alt", "json")]
  = inl (TypeError "Got an unexpected keyword argument nextPage").
Proof.
  intros Hnext. unfold list_members. rewrite !filter_cons. cbn [fst].
  rewrite accepts_groupKey, accepts_alt, Hnext.
  rewrite decide_False, decide_True by done. reflexivity.
Qed.

(** A successful answer for a known group whose record can take members:
    the page is merged, then the token is looked at. *)
Lemma add_members_merge rid p rec s :
  dict_get rid (groups s) = Some rec →
  members_ok rec = true →
  add_members rid (Some p) None s
  = let s1 := set_groups (dict_set rid (merge_page p rec)) s in
    let ev := [Log DEBUG "Group %s members retrieved: %s"
                 [ArgStr rid; ArgNat (length (page_members p))]] in
    match nextPageToken p with
    | None => (Return tt, s1, ev)
    | Some tok =>
        match service s with
        | None =>
            (Raise (AttributeError
                      "'NoneType' object has no attribute 'members'"), s1, ev)
        | Some svc =>
            match list_members svc [("groupKey", rid); ("nextPage", tok);
                                    ("alt", "json")] with
            | inl e => (Raise e, s1, ev)
            | inr rq =>
                (Return tt, set_next_batch (λ nb, nb ++ [(rid, rq)]) s1, ev)
            end
        end
    end.
Proof.
  intros Hget Hok. unfold add_members. run. rewrite Hget. run.
  pose proof (extend_members_run rec (page_members p)) as Hext.
  unfold merge_page.
  destruct (rec !! "members") as [m|] eqn:Hm.
  - run. rewrite Hext by done. run.
    destruct (nextPageToken p) as [tok|]; run; [|done].
    destruct (service s) as [svc|]; run; [|done].
    by destruct (list_members svc _) as [e|rq]; run.
  - run. rewrite Hext by done. run.
    destruct (nextPageToken p) as [tok|]; run.
    + destruct (service s) as [svc|]; run;
        [|unfold set_groups; cbn; by rewrite dict_set_set].
      destruct (list_members svc _) as [e|rq]; run;
        unfold set_next_batch, set_groups; cbn; by rewrite dict_set_set.
    + unfold set_groups. cbn. by rewrite dict_set_set.
Qed.

Lemma add_members_success rid p rec s :
  dict_get rid (groups s) = Some rec →
  members_ok rec = true →
  takes_nextPage s = true ∨ nextPageToken p = None →
  add_members rid (Some p) None s
  = (Return tt,
     set_next_batch (λ nb, nb ++ next_request rid p)
       (set_groups (dict_set rid (merge_page p rec)) s),
     [Log DEBUG "Group %s members retrieved: %s"
        [ArgStr rid; ArgNat (length (page_members p))]]).
Proof.
  intros Hget Hok Hgo. rewrite (add_members_merge _ _ rec) by done.
  cbv zeta. unfold next_request, takes_nextPage in *.
  destruct (nextPageToken p) as [tok|].
  - destruct Hgo as [Hgo|?]; [|done].
    destruct (service s) as [svc|]; [|done].
    by rewrite list_members_next.
  - unfold set_next_batch, set_groups. cbn. by rewrite app_nil_r.
Qed.

(** The client of the Directory API refuses the keyword: the page has been
    merged when the callback raises. *)
Lemma add_members_refused rid p rec tok s :
  dict_get rid (groups s) = Some rec →
  members_ok rec = true →
  is_Some (service s) →
  takes_nextPage s = false →
  nextPageToken p = Some tok →
  add_members rid (Some p) None s
  = (Raise (TypeError "Got an unexpected keyword argument nextPage"),
     set_groups (dict_set rid (merge_page p rec)) s,
     [Log DEBUG "Group %s members retrieved: %s"
        [ArgStr rid; ArgNat (length (page_members p))]]).
Proof.
  intros Hget Hok [svc Hsvc] Hno Htok.
  rewrite (add_members_merge _ _ rec) by done.
  cbv zeta. unfold takes_nextPage in Hno. rewrite Htok, Hsvc in *.
  by rewrite list_members_refused.
Qed.

(** * Batches of membership requests *)

Lemma for_emit_run {A} (f : A → event) (l : list A) s :
  for_ l (λ x, emit (f x)) s = (Return tt, s, f <$> l).
Proof.
  induction l as [|x l IH]; [done|].
  cbn [for_]. rewrite bind_run. cbn. by rewrite IH.
Qed.

Lemma concat_fmap_fmap {A B} (f : A → B) (ls : list (list A)) :
  concat (fmap (M:=list) f <$> ls) = f <$> concat ls.
Proof.
  induction ls as [|l ls IH]; [done|]. cbn. by rewrite fmap_app, IH.
Qed.

Lemma omap_visible_log {A} (f : A → event) (l : list A) :
  (∀ x, visible (f x) = None) → omap visible (f <$> l) = [].
Proof.
  intros Hf. induction l as [|x l IH]; [done|]. cbn. by rewrite Hf.
Qed.

Lemma omap_visible_send (l : list members_request) :
  omap visible (Send ∘ MembersList <$> l) = Send ∘ MembersList <$> l.
Proof. induction l as [|x l IH]; [done|]. cbn. by rewrite IH. Qed.

Section MembersFacts.
Variable R : Remote.
Implicit Types (s : GGBackup) (r : string * members_request)
  (reqs W : list (string * members_request)).

Lemma keys_merge_answer G r : keys (merge_answer R G r) = keys G.
Proof.
  unfold merge_answer. destruct (fetch_members R r.2) as [e|p]; [done|].
  destruct (dict_get r.1 G) as [rec|] eqn:Hget; [|done].
  apply keys_dict_set_in. by eapply dict_get_Some_keys.
Qed.

Lemma records_ok_merge_answer G r :
  records_ok G → records_ok (merge_answer R G r).
Proof.
  intros HG. unfold merge_answer.
  destruct (fetch_members R r.2) as [e|p]; [done|].
  destruct (dict_get r.1 G) as [rec|]; [|done].
  apply records_ok_set; [done|apply members_ok_merge_page].
Qed.

Lemma groups_step r s : groups (step R r s) = merge_answer R (groups s) r.
Proof. reflexivity. Qed.

Lemma next_batch_step r s :
  _next_batch (step R r s) = _next_batch s ++ succ_requests R r.
Proof. reflexivity. Qed.

Lemma after_cons r reqs s : after R (r :: reqs) s = after R reqs (step R r s).
Proof. reflexivity. Qed.

Lemma after_app reqs1 reqs2 s :
  after R (reqs1 ++ reqs2) s = after R reqs2 (after R reqs1 s).
Proof. apply foldl_app. Qed.

Lemma groups_after reqs s :
  groups (after R reqs s) = foldl (merge_answer R) (groups s) reqs.
Proof.
  revert s. induction reqs as [|r reqs IH]; intros s; [done|].
  by rewrite after_cons, IH, groups_step.
Qed.

Lemma next_batch_after reqs s :
  _next_batch (after R reqs s)
  = _next_batch s ++ flat_map (succ_requests R) reqs.
Proof.
  revert s. induction reqs as [|r reqs IH]; intros s.
  - cbn. by rewrite app_nil_r.
  - rewrite after_cons, IH, next_batch_step. cbn. by rewrite app_assoc.
Qed.

Lemma keys_after reqs s : keys (groups (after R reqs s)) = keys (groups s).
Proof.
  revert s. induction reqs as [|r reqs IH]; intros s; [done|].
  by rewrite after_cons, IH, groups_step, keys_merge_answer.
Qed.

Lemma records_ok_after reqs s :
  records_ok (groups s) → records_ok (groups (after R reqs s)).
Proof.
  revert s. induction reqs as [|r reqs IH]; intros s Hs; [done|].
  rewrite after_cons. apply IH. rewrite groups_step.
  by apply records_ok_merge_answer.
Qed.

Lemma known_after reqs reqs' s : known s reqs → known (after R reqs' s) reqs.
Proof. unfold known. by rewrite keys_after. Qed.

Lemma takes_nextPage_after reqs s :
  takes_nextPage (after R reqs s) = takes_nextPage s.
Proof.
  revert s. induction reqs as [|r reqs IH]; intros s; [done|].
  by rewrite after_cons, IH.
Qed.

Lemma proceeds_cons r reqs s :
  proceeds R s (r :: reqs) →
  (takes_nextPage s = true ∨ succ_requests R r = [])
  ∧ proceeds R (step R r s) reqs.
Proof.
  intros [Htakes|[Hr Hreqs]%Forall_cons].
  - split; by left.
  - split; by right.
Qed.

Lemma proceeds_app reqs1 reqs2 s :
  proceeds R s (reqs1 ++ reqs2) →
  proceeds R s reqs1 ∧ proceeds R (after R reqs1 s) reqs2.
Proof.
  intros [Htakes|[H1 H2]%Forall_app].
  - split; left; [done|]. by rewrite takes_nextPage_after.
  - split; by right.
Qed.

Lemma single_pages_proceed s ks :
  Forall (single_page R) ks → proceeds R s (first_page <$> ks).
Proof.
  intros Hks. right. apply Forall_fmap. eapply Forall_impl; [exact Hks|].
  intros k Hk. cbn. unfold single_page in Hk.
  unfold succ_requests, fetch_members, next_request. cbn.
  destruct (members_list R k None) as [e|p]; [done|]. by rewrite Hk.
Qed.

Lemma single_pages_queue ks :
  Forall (single_page R) ks →
  flat_map (succ_requests R) (first_page <$> ks) = [].
Proof.
  induction 1 as [|k ks Hk _ IH]; [done|].
  cbn. rewrite IH, app_nil_r. unfold single_page in Hk.
  unfold succ_requests, fetch_members, next_request. cbn.
  destruct (members_list R k None) as [e|p]; [done|]. by rewrite Hk.
Qed.

(** One answer, seen from the object. *)
Lemma answer_step r s :
  records_ok (groups s) → r.1 ∈ keys (groups s) →
  takes_nextPage s = true ∨ succ_requests R r = [] →
  ∃ ev, answer (fetch_members R) add_members r s = (Return tt, step R r s, ev)
        ∧ omap visible ev = [].
Proof.
  intros Hok Hr Hgo. unfold step. unfold succ_requests in *.
  destruct (fetch_members R r.2) as [e|p] eqn:Hfetch.
  - rewrite (answer_inl _ _ _ e), add_members_exception by done.
    exists [Log WARNING
              "Exception encountered while gathering group members: %s"
              [ArgExn e]].
    split; [|done]. f_equal. f_equal.
    unfold merge_answer. rewrite Hfetch.
    destruct s. unfold set_next_batch, set_groups. cbn. by rewrite app_nil_r.
  - destruct (dict_get_is_Some _ _ Hr) as [rec Hget].
    rewrite (answer_inr _ _ _ p) by done.
    rewrite (add_members_success _ _ rec).
    2: done.
    2: by eapply records_ok_get.
    2: { destruct Hgo as [?|Hnone]; [by left|right].
         unfold next_request in Hnone. by destruct (nextPageToken p). }
    exists [Log DEBUG "Group %s members retrieved: %s"
              [ArgStr r.1; ArgNat (length (page_members p))]].
    split; [|done]. f_equal. f_equal. f_equal.
    apply set_groups_ext. unfold merge_answer. by rewrite Hfetch, Hget.
Qed.

Lemma deliver_after reqs s :
  records_ok (groups s) → known s reqs → proceeds R s reqs →
  ∃ ev, deliver (fetch_members R) add_members reqs s
        = (Return tt, after R reqs s, ev)
        ∧ omap visible ev = [].
Proof.
  revert s. induction reqs as [|r reqs IH]; intros s Hok Hknown Hgo.
  - by exists [].
  - apply Forall_cons in Hknown as [Hr Hknown].
    apply proceeds_cons in Hgo as [Hgo1 Hgo].
    destruct (answer_step r s Hok Hr Hgo1) as (ev1 & Hans & Hev1).
    destruct (IH (step R r s)) as (ev2 & Hrest & Hev2).
    { rewrite groups_step. by apply records_ok_merge_answer. }
    { unfold known. by rewrite groups_step, keys_merge_answer. }
    { done. }
    exists (ev1 ++ ev2). split.
    + unfold deliver in *. cbn [for_]. rewrite bind_run, Hans, Hrest.
      by rewrite after_cons.
    + by rewrite omap_app, Hev1, Hev2.
Qed.

Lemma execute_after reqs s :
  records_ok (groups s) → known s reqs → proceeds R s reqs →
  ∃ ev, execute MembersList (fetch_members R) add_members reqs s
        = (Return tt, after R reqs s, ev)
        ∧ omap visible ev = Send ∘ MembersList <$> reqs.*2.
Proof.
  intros Hok Hknown Hgo.
  destruct (deliver_after reqs s Hok Hknown Hgo) as (ev & Hdel & Hev).
  eexists. split.
  - unfold execute. rewrite bind_run, for_emit_run, Hdel. reflexivity.
  - rewrite omap_app, Hev, app_nil_r.
    rewrite <- omap_visible_send, <- list_fmap_compose. reflexivity.
Qed.

Lemma next_page_batch_after reqs s :
  records_ok (groups s) → known s reqs → proceeds R s reqs →
  ∃ ev, next_page_batch R reqs s = (Return tt, after R reqs s, ev)
        ∧ omap visible ev = Send ∘ MembersList <$> reqs.*2.
Proof.
  intros Hok Hknown Hgo.
  destruct (execute_after reqs s Hok Hknown Hgo) as (ev & Hex & Hev).
  eexists. split.
  - unfold next_page_batch. rewrite bind_run, for_emit_run.
    cbn. rewrite bind_run. cbn. rewrite Hex. reflexivity.
  - rewrite omap_app, omap_visible_log by done. cbn. exact Hev.
Qed.

Lemma first_page_batch_after (b : list string) s :
  records_ok (groups s) → known s (first_page <$> b) →
  proceeds R s (first_page <$> b) →
  ∃ ev, first_page_batch R b s = (Return tt, after R (first_page <$> b) s, ev)
        ∧ omap visible ev = Send ∘ MembersList <$> (first_page <$> b).*2.
Proof.
  intros Hok Hknown Hgo.
  destruct (execute_after _ s Hok Hknown Hgo) as (ev & Hex & Hev).
  eexists. split.
  - unfold first_page_batch. rewrite bind_run, for_emit_run.
    cbn. rewrite bind_run. cbn. rewrite Hex. reflexivity.
  - rewrite omap_app, omap_visible_log by done. cbn. exact Hev.
Qed.

(** A loop over batches whose body merges the answers of each batch. *)
Lemma for_batches_after {B} (body : B → M unit)
    (reqs_of : B → list (string * members_request)) (bs : list B) s :
  (∀ b s', records_ok (groups s') → known s' (reqs_of b) →
     proceeds R s' (reqs_of b) →
     ∃ ev, body b s' = (Return tt, after R (reqs_of b) s', ev)
           ∧ omap visible ev = Send ∘ MembersList <$> (reqs_of b).*2) →
  records_ok (groups s) → known s (concat (reqs_of <$> bs)) →
  proceeds R s (concat (reqs_of <$> bs)) →
  ∃ ev, for_ bs body s = (Return tt, after R (concat (reqs_of <$> bs)) s, ev)
        ∧ omap visible ev
          = Send ∘ MembersList <$> (concat (reqs_of <$> bs)).*2.
Proof.
  intros Hbody. revert s. induction bs as [|b bs IH]; intros s Hok Hknown Hgo.
  - by exists [].
  - cbn [fmap list_fmap concat] in *.
    apply Forall_app in Hknown as [Hb Hbs].
    apply proceeds_app in Hgo as [Hgo1 Hgo].
    destruct (Hbody b s Hok Hb Hgo1) as (ev1 & Hrun1 & Hev1).
    destruct (IH (after R (reqs_of b) s)) as (ev2 & Hrun2 & Hev2).
    { by apply records_ok_after. }
    { by apply known_after. }
    { done. }
    exists (ev1 ++ ev2). split.
    + cbn [for_]. rewrite bind_run, Hrun1, Hrun2. by rewrite after_app.
    + by rewrite omap_app, Hev1, Hev2, !fmap_app.
Qed.
End MembersFacts.

(** * [run_next_batch] and [get_members], seen from the object *)

Section RunFacts.
Variable R : Remote.
Implicit Types (s : GGBackup) (r : string * members_request)
  (reqs W : list (string * members_request)).

Lemma known_succ_requests s W :
  known s W → known s (flat_map (succ_requests R) W).
Proof.
  unfold known. induction W as [|r W IH]; [done|].
  intros [Hr HW]%Forall_cons. cbn. apply Forall_app. split; [|by apply IH].
  unfold succ_requests, next_request.
  destruct (fetch_members R r.2) as [e|p]; [done|].
  destruct (nextPageToken p); [|done]. by repeat constructor.
Qed.

Lemma next_batch_round s :
  _next_batch (round R s) = flat_map (succ_requests R) (_next_batch s).
Proof. unfold round. by rewrite next_batch_after. Qed.

Lemma keys_round s : keys (groups (round R s)) = keys (groups s).
Proof. unfold round. by rewrite keys_after. Qed.

Lemma records_ok_round s :
  records_ok (groups s) → records_ok (groups (round R s)).
Proof. intros Hok. unfold round. by apply records_ok_after. Qed.

Lemma known_round s :
  known s (_next_batch s) → known (round R s) (_next_batch (round R s)).
Proof.
  intros Hknown. rewrite next_batch_round. unfold known.
  rewrite keys_round. by apply known_succ_requests.
Qed.

Lemma frame_run {A} f (body : M A) s :
  frame f body s
  = (res (body s), obj (body s), Enter f :: trace (body s) ++ [Leave f]).
Proof. unfold frame. by destruct (body s) as [[??]?]. Qed.

(** The refinement of [run_next_batch]: its result, the object it leaves
    and its requests and frames are those of the round-by-round functions. *)
Lemma takes_nextPage_round s :
  takes_nextPage (round R s) = takes_nextPage s.
Proof. unfold round. by rewrite takes_nextPage_after. Qed.

Lemma run_next_batch_run fuel s :
  records_ok (groups s) → known s (_next_batch s) →
  takes_nextPage s = true ∨ _next_batch s = [] →
  ∃ ev, run_next_batch R fuel s
        = (if finishes R fuel (_next_batch s) then Return tt
           else Raise (RecursionError "maximum recursion depth exceeded"),
           run_state R fuel s, ev)
        ∧ omap visible ev = visible_run R fuel (_next_batch s).
Proof.
  revert s. induction fuel as [|fuel IH]; intros s Hok Hknown Hgo.
  - by exists [].
  - cbn [run_next_batch]. rewrite frame_run, bind_run. cbn [get].
    destruct (decide (length (_next_batch s) = 0)) as [Hlen|Hlen].
    + apply nil_length_inv in Hlen. rewrite Hlen.
      cbn [emit res obj trace fst snd finishes run_state visible_run].
      rewrite Hlen. eexists. split; [reflexivity|done].
    + assert (takes_nextPage s = true) as Htakes.
      { destruct Hgo as [?|Hnil]; [done|]. by rewrite Hnil in Hlen. }
      repeat (rewrite bind_run; cbn [emit modify]).
      destruct (for_batches_after R (next_page_batch R) id
                  (batch (_next_batch s))
                  (set_next_batch (λ _, []) s)) as (ev1 & Hrun1 & Hev1).
      { intros b s' ???. by apply next_page_batch_after. }
      { done. }
      { by rewrite list_fmap_id, batch_concat. }
      { by left. }
      rewrite list_fmap_id, batch_concat in Hrun1, Hev1.
      rewrite Hrun1. fold (round R s).
      destruct (IH (round R s)) as (ev2 & Hrun2 & Hev2).
      { by apply records_ok_round. }
      { by apply known_round. }
      { left. by rewrite takes_nextPage_round. }
      rewrite Hrun2, next_batch_round. rewrite next_batch_round in Hev2.
      cbn [finishes run_state visible_run res obj trace fst snd].
      destruct (_next_batch s) as [|r W] eqn:HW; [done|].
      eexists. split; [reflexivity|].
      cbn. rewrite !omap_app, Hev1, Hev2. cbn. reflexivity.
Qed.

Lemma first_pages_known s :
  Forall (λ k, lower k = k) (keys (groups s)) →
  known s (first_page <$> keys (groups s)).
Proof.
  intros Hks. unfold known. apply Forall_fmap, Forall_forall.
  intros k Hk. cbn. rewrite Forall_forall in Hks. by rewrite Hks.
Qed.

Lemma next_batch_first_pass s :
  _next_batch (first_pass R s)
  = flat_map (succ_requests R) (first_page <$> keys (groups s)).
Proof. unfold first_pass. by rewrite next_batch_after. Qed.

(** The refinement of [get_members]. *)
Lemma get_members_run fuel s :
  members_ready s →
  takes_nextPage s = true ∨ Forall (single_page R) (keys (groups s)) →
  ∃ ev, get_members R fuel s
        = (if finishes R fuel (_next_batch (first_pass R s))
           then Return tt
           else Raise (RecursionError "maximum recursion depth exceeded"),
           run_state R fuel (first_pass R s), ev)
        ∧ omap visible ev
          = (Send ∘ MembersList <$> (first_page <$> keys (groups s)).*2)
              ++ visible_run R fuel (_next_batch (first_pass R s)).
Proof.
  intros (Hauth & Hcache & Hnd & Hlow & Hok) Hgo.
  unfold get_members. rewrite bind_run, check_auth_obj, Hauth.
  rewrite bind_run. cbn [modify]. rewrite bind_run.
  rewrite group_batches_recomputes by done.
  cbn [groups set_next_batch].
  fold (first_pass_start s).
  destruct (for_batches_after R (first_page_batch R)
              (fmap (M:=list) first_page)
              (batch (keys (groups s))) (first_pass_start s))
    as (ev1 & Hrun1 & Hev1).
  { intros b s' ???. by apply first_page_batch_after. }
  { done. }
  { rewrite concat_fmap_fmap, batch_concat.
    exact (first_pages_known s Hlow). }
  { rewrite concat_fmap_fmap, batch_concat.
    destruct Hgo as [Htakes|Hsingle]; [by left|].
    by apply single_pages_proceed. }
  rewrite concat_fmap_fmap, batch_concat in Hrun1, Hev1.
  rewrite bind_run, Hrun1. fold (first_pass R s).
  destruct (run_next_batch_run fuel (first_pass R s)) as (ev2 & Hrun2 & Hev2).
  { unfold first_pass. by apply records_ok_after. }
  { rewrite next_batch_first_pass. unfold first_pass.
    apply known_after, known_succ_requests.
    exact (first_pages_known s Hlow). }
  { destruct Hgo as [Htakes|Hsingle].
    - left. unfold first_pass. by rewrite takes_nextPage_after.
    - right. rewrite next_batch_first_pass. by apply single_pages_queue. }
  rewrite Hrun2. eexists. split; [reflexivity|].
  cbn. by rewrite !omap_app, Hev1, Hev2.
Qed.
End RunFacts.

(** * Requests and frames of a trace *)

Lemma member_sends_app ev1 ev2 :
  member_sends (ev1 ++ ev2) = member_sends ev1 ++ member_sends ev2.
Proof. apply omap_app. Qed.

Lemma member_sends_visible ev : member_sends (omap visible ev) = member_sends ev.
Proof.
  unfold member_sends. induction ev as [|e ev IH]; [done|].
  destruct e as [lv msg args|[d tok|g|rq]|f|f]; cbn; by rewrite ?IH.
Qed.

Lemma member_sends_requests (l : list members_request) :
  member_sends (Send ∘ MembersList <$> l) = l.
Proof.
  unfold member_sends. induction l as [|rq l IH]; [done|]. cbn.
  by rewrite IH.
Qed.

Lemma depth_visible d ev :
  foldl depth_step d (omap visible ev) = foldl depth_step d ev.
Proof.
  revert d. induction ev as [|e ev IH]; intros d; [done|].
  destruct e; cbn; by rewrite IH.
Qed.

Lemma depth_requests d (l : list members_request) :
  foldl depth_step d (Send ∘ MembersList <$> l) = d.
Proof. induction l as [|rq l IH]; [done|]. cbn. exact IH. Qed.

Section VisibleRun.
Variable R : Remote.

Lemma member_sends_visible_run fuel W :
  member_sends (visible_run R fuel W) = (concat (rounds R fuel W)).*2.
Proof.
  revert W. induction fuel as [|fuel IH]; intros W; [done|].
  cbn [visible_run rounds]. destruct W as [|r W]; [done|].
  change (Enter "run_next_batch" :: ?l ++ ?l') with
    ([Enter "run_next_batch"] ++ l ++ l').
  rewrite !member_sends_app, member_sends_requests, IH.
  cbn [concat]. rewrite fmap_app. cbn. by rewrite app_nil_r.
Qed.

Lemma depth_visible_run fuel W cur top :
  foldl depth_step (cur, top) (visible_run R fuel W)
  = (cur, Nat.max top (if activations R fuel W is 0 then 0
                       else cur + activations R fuel W)).
Proof.
  revert W cur top. induction fuel as [|fuel IH]; intros W cur top.
  - cbn. f_equal. lia.
  - cbn [visible_run activations]. destruct W as [|r W].
    + cbn. f_equal. lia.
    + cbn [foldl depth_step fst snd app].
      rewrite !foldl_app, depth_requests, IH. cbn. f_equal.
      destruct (activations R fuel _); lia.
Qed.

Lemma stack_depth_visible_run (pre : list members_request) fuel W :
  stack_depth ((Send ∘ MembersList <$> pre) ++ visible_run R fuel W)
  = activations R fuel W.
Proof.
  unfold stack_depth. rewrite foldl_app, depth_requests, depth_visible_run.
  cbn. by destruct (activations R fuel W).
Qed.
End VisibleRun.

(** * The pages of one group *)

Section StreamFacts.
Variable R : Remote.
Variable g : string.
Implicit Types (s : GGBackup) (r : string * members_request)
  (W : list (string * members_request)).

Lemma for_group_app W1 W2 :
  for_group g (W1 ++ W2) = for_group g W1 ++ for_group g W2.
Proof. apply filter_app. Qed.

Lemma for_group_succ_requests W :
  for_group g (flat_map (succ_requests R) W)
  = flat_map (succ_requests R) (for_group g W).
Proof.
  unfold for_group. induction W as [|r W IH]; [done|].
  cbn [flat_map]. rewrite filter_app, IH, filter_cons.
  assert (filter (λ r', r'.1 = g) (succ_requests R r)
          = if decide (r.1 = g) then succ_requests R r else []) as ->.
  { unfold succ_requests, next_request.
    destruct (fetch_members R r.2) as [e|p]; [by case_decide|].
    destruct (nextPageToken p); [|by case_decide].
    rewrite filter_cons. cbn. by case_decide. }
  by case_decide.
Qed.

Lemma coherent_succ_requests W : coherent (flat_map (succ_requests R) W).
Proof.
  unfold coherent. induction W as [|r W IH]; [done|].
  cbn. apply Forall_app. split; [|done].
  unfold succ_requests, next_request.
  destruct (fetch_members R r.2) as [e|p]; [done|].
  destruct (nextPageToken p); by repeat constructor.
Qed.

Lemma coherent_rounds fuel W :
  coherent W → coherent (concat (rounds R fuel W)).
Proof.
  revert W. induction fuel as [|fuel IH]; intros W HW; [apply Forall_nil_2|].
  cbn [rounds]. destruct W as [|r W]; [apply Forall_nil_2|].
  cbn [concat]. apply Forall_app. split; [exact HW|].
  apply IH, coherent_succ_requests.
Qed.

Lemma filter_group_key W :
  coherent W →
  filter (λ rq, groupKey rq = g) W.*2 = (for_group g W).*2.
Proof.
  unfold coherent, for_group. induction W as [|r W IH]; [done|].
  intros [Hr HW]%Forall_cons. cbn [fmap list_fmap].
  rewrite !filter_cons, IH, Hr by done. by case_decide.
Qed.

Lemma rounds_S fuel W :
  W ≠ [] →
  rounds R (S fuel) W = W :: rounds R fuel (flat_map (succ_requests R) W).
Proof. by destruct W. Qed.

Lemma activations_S fuel W :
  W ≠ [] →
  activations R (S fuel) W
  = S (activations R fuel (flat_map (succ_requests R) W)).
Proof. by destruct W. Qed.

Lemma run_state_S fuel s :
  _next_batch s ≠ [] →
  run_state R (S fuel) s = run_state R fuel (round R s).
Proof. cbn. by destruct (_next_batch s). Qed.


Lemma activations_le fuel W : activations R fuel W ≤ fuel.
Proof.
  revert W. induction fuel as [|fuel IH]; intros W; [done|].
  cbn [activations]. destruct W as [|r W]; [lia|].
  specialize (IH (flat_map (succ_requests R) (r :: W))). lia.
Qed.

Lemma for_group_nonempty W r : for_group g W = [r] → W ≠ [].
Proof. by intros ? ->. Qed.

Lemma activations_pos fuel W : Nat.min fuel 1 ≤ activations R fuel W.
Proof.
  destruct fuel as [|fuel]; [done|]. cbn. destruct W; lia.
Qed.

(** What happens to the record of [g]. *)
Lemma dict_get_merge_answer G r :
  dict_get g (merge_answer R G r)
  = if decide (r.1 = g) then merge_record R (dict_get g G) r
    else dict_get g G.
Proof.
  unfold merge_answer, merge_record.
  destruct (fetch_members R r.2) as [e|p]; [by case_decide|].
  case_decide as Hr.
  - subst g. destruct (dict_get r.1 G) as [rec|] eqn:Hget; cbn.
    + by rewrite dict_get_set_eq.
    + done.
  - destruct (dict_get r.1 G) as [rec|]; [|done].
    by rewrite dict_get_set_ne.
Qed.

Lemma dict_get_foldl_merge G W :
  dict_get g (foldl (merge_answer R) G W)
  = foldl (merge_record R) (dict_get g G) (for_group g W).
Proof.
  unfold for_group. revert G. induction W as [|r W IH]; intros G; [done|].
  cbn [foldl]. rewrite IH, dict_get_merge_answer, filter_cons.
  by case_decide.
Qed.

Lemma dict_get_round s :
  dict_get g (groups (round R s))
  = foldl (merge_record R) (dict_get g (groups s)) (for_group g (_next_batch s)).
Proof.
  unfold round. by rewrite groups_after, dict_get_foldl_merge.
Qed.

Lemma for_group_round s :
  for_group g (_next_batch (round R s))
  = flat_map (succ_requests R) (for_group g (_next_batch s)).
Proof. by rewrite next_batch_round, for_group_succ_requests. Qed.

(** Once nothing is queued for [g], nothing is asked about it any more. *)
Lemma idle_rounds fuel W :
  for_group g W = [] → for_group g (concat (rounds R fuel W)) = [].
Proof.
  revert W. induction fuel as [|fuel IH]; intros W HW; [done|].
  cbn [rounds]. destruct W as [|r W]; [done|].
  cbn [concat]. rewrite for_group_app, HW, IH; [done|].
  by rewrite for_group_succ_requests, HW.
Qed.

Lemma idle_run_state fuel s :
  for_group g (_next_batch s) = [] →
  for_group g (_next_batch (run_state R fuel s)) = []
  ∧ dict_get g (groups (run_state R fuel s)) = dict_get g (groups s).
Proof.
  revert s. induction fuel as [|fuel IH]; intros s Hs; [done|].
  destruct (decide (_next_batch s = [])) as [Hnil|Hnil].
  - cbn. by rewrite Hnil.
  - rewrite run_state_S by done.
    destruct (IH (round R s)) as [Hq Hrec].
    { by rewrite for_group_round, Hs. }
    split; [done|]. by rewrite Hrec, dict_get_round, Hs.
Qed.

Lemma stream_requests_more tok p ps :
  stream_requests g tok (p :: ps)
  = (page_request g tok).2 :: stream_requests g (nextPageToken p) ps.
Proof. reflexivity. Qed.

(** The queue of the rounds, for a group whose stream starts with the
    queued request. *)
Lemma stream_rounds tok ps fuel W :
  page_stream R g tok ps →
  for_group g W = [page_request g tok] →
  (length ps ≤ fuel →
   (for_group g (concat (rounds R fuel W))).*2 = stream_requests g tok ps)
  ∧ Nat.min fuel (S (length ps)) ≤ activations R fuel W.
Proof.
  intros Hps. revert fuel W.
  induction Hps as [tok p Hp Htok|tok p t ps Hp Htok Hps IH]; intros fuel W HW.
  - assert (flat_map (succ_requests R) (for_group g W) = []) as Hsucc.
    { rewrite HW. cbn. unfold succ_requests, fetch_members. cbn.
      rewrite Hp. unfold next_request. by rewrite Htok. }
    destruct fuel as [|fuel]; [split; [cbn; lia|done]|].
    rewrite rounds_S, activations_S by by eapply for_group_nonempty.
    split.
    + intros _. cbn [concat]. rewrite for_group_app, HW, idle_rounds.
      * done.
      * by rewrite for_group_succ_requests.
    + pose proof (activations_pos fuel (flat_map (succ_requests R) W)).
      cbn [length]. lia.
  - assert (flat_map (succ_requests R) (for_group g W)
            = [page_request g (Some t)]) as Hsucc.
    { rewrite HW. cbn. unfold succ_requests, fetch_members. cbn.
      rewrite Hp. unfold next_request. by rewrite Htok. }
    destruct fuel as [|fuel]; [split; [cbn; lia|done]|].
    rewrite rounds_S, activations_S by by eapply for_group_nonempty.
    destruct (IH fuel (flat_map (succ_requests R) W)) as [IH1 IH2].
    { by rewrite for_group_succ_requests. }
    split.
    + intros Hlen. cbn [concat]. rewrite for_group_app, HW, fmap_app, IH1.
      * rewrite stream_requests_more, Htok. done.
      * cbn in Hlen. lia.
    + cbn [length]. lia.
Qed.


(** The object after the rounds, for the same group. *)
Lemma stream_run_state tok ps fuel s rec :
  page_stream R g tok ps →
  length ps ≤ fuel →
  for_group g (_next_batch s) = [page_request g tok] →
  dict_get g (groups s) = Some rec →
  for_group g (_next_batch (run_state R fuel s)) = []
  ∧ dict_get g (groups (run_state R fuel s))
    = Some (foldl (λ rec p, merge_page p rec) rec ps).
Proof.
  intros Hps. revert fuel s rec.
  induction Hps as [tok p Hp Htok|tok p t ps Hp Htok Hps IH];
    intros fuel s rec Hlen HW Hrec.
  - destruct fuel as [|fuel]; [cbn in Hlen; lia|].
    rewrite run_state_S by by eapply for_group_nonempty.
    destruct (idle_run_state fuel (round R s)) as [Hq Hget].
    { rewrite for_group_round, HW. cbn.
      unfold succ_requests, fetch_members. cbn.
      rewrite Hp. unfold next_request. by rewrite Htok. }
    split; [done|]. rewrite Hget, dict_get_round, HW, Hrec. cbn.
    unfold merge_record, fetch_members. cbn. by rewrite Hp.
  - destruct fuel as [|fuel]; [cbn in Hlen; lia|].
    rewrite run_state_S by by eapply for_group_nonempty.
    apply IH.
    + cbn in Hlen. lia.
    + rewrite for_group_round, HW. cbn.
      unfold succ_requests, fetch_members. cbn.
      rewrite Hp. unfold next_request. by rewrite Htok.
    + rewrite dict_get_round, HW, Hrec. cbn.
      unfold merge_record, fetch_members. cbn. by rewrite Hp.
Qed.
End StreamFacts.

(** * Termination of the continuation *)

Section EndFacts.
Variable R : Remote.
Implicit Types (s : GGBackup) (W : list (string * members_request)).

Lemma ends_within_succ m W :
  Forall (ends_within R (S m)) W →
  Forall (ends_within R m) (flat_map (succ_requests R) W).
Proof.
  induction W as [|r W IH]; [done|].
  intros [[Hkey Hr] HW]%Forall_cons. cbn. apply Forall_app.
  split; [|by apply IH].
  unfold succ_requests, fetch_members, next_request. rewrite Hkey.
  inversion Hr as [tok e n He|tok p n Hp Htok|tok p t n Hp Htok Hrest]; subst.
  - by rewrite He.
  - by rewrite Hp, Htok.
  - rewrite Hp, Htok. by repeat constructor.
Qed.

Lemma finishes_ends m W :
  Forall (ends_within R m) W → finishes R (S m) W = true.
Proof.
  revert W. induction m as [|m IH]; intros W HW.
  - destruct W as [|r W]; [done|].
    apply Forall_cons in HW as [[_ Hr] _]. inversion Hr.
  - cbn [finishes]. destruct W as [|r W]; [done|].
    apply (IH (flat_map (succ_requests R) (r :: W))).
    by apply ends_within_succ.
Qed.

Lemma finished_run_state fuel s :
  finishes R fuel (_next_batch s) = true →
  _next_batch (run_state R fuel s) = [].
Proof.
  revert s. induction fuel as [|fuel IH]; intros s; [done|].
  cbn [finishes run_state].
  destruct (_next_batch s) as [|r W] eqn:HW; [done|].
  intros Hfin. apply IH. by rewrite next_batch_round, HW.
Qed.
End EndFacts.

(** * The pages of the records *)

Lemma record_members_insert l (rec : record) :
  record_members (<["members" := JList l]> rec) = l.
Proof. unfold record_members. by rewrite lookup_insert_eq. Qed.

Lemma merge_pages_insert l (rec : record) ps :
  foldl (λ rec p, merge_page p rec) (<["members" := JList l]> rec) ps
  = <["members" := JList (l ++ concat (page_members <$> ps))]> rec.
Proof.
  revert l. induction ps as [|p ps IH]; intros l.
  - cbn. by rewrite app_nil_r.
  - cbn [foldl]. unfold merge_page at 2.
    rewrite record_members_insert, insert_insert_eq, IH.
    cbn. by rewrite app_assoc.
Qed.

Lemma merge_pages (rec : record) p ps :
  foldl (λ rec p, merge_page p rec) rec (p :: ps)
  = <["members" := JList (record_members rec
                            ++ concat (page_members <$> p :: ps))]> rec.
Proof.
  cbn [foldl]. unfold merge_page at 2. rewrite merge_pages_insert.
  cbn. by rewrite app_assoc.
Qed.

(** * Streams are determined by their first token *)

Section StreamTokens.
Variable R : Remote.
Variable g : string.

Lemma page_stream_length tok ps : page_stream R g tok ps → 0 < length ps.
Proof. destruct 1; cbn; lia. Qed.

Lemma page_stream_det tok ps1 ps2 :
  page_stream R g tok ps1 → page_stream R g tok ps2 → ps1 = ps2.
Proof.
  intros H1. revert ps2.
  induction H1 as [tok p Hp Htok|tok p t ps Hp Htok Hps IH]; intros ps2 H2.
  - inversion H2 as [tok' p' Hp' Htok'|tok' p' t' ps' Hp' Htok' Hps']; subst.
    + congruence.
    + congruence.
  - inversion H2 as [tok' p' Hp' Htok'|tok' p' t' ps' Hp' Htok' Hps']; subst.
    + congruence.
    + assert (p' = p) as -> by congruence.
      assert (t' = t) as -> by congruence.
      f_equal. by apply IH.
Qed.

Lemma stream_requests_suffix tok ps rq :
  page_stream R g tok ps →
  rq ∈ stream_requests g tok ps →
  ∃ ps', page_stream R g (nextPage rq) ps' ∧ length ps' ≤ length ps.
Proof.
  induction 1 as [tok p Hp Htok|tok p t ps Hp Htok Hps IH].
  - intros ->%list_elem_of_singleton. exists [p]. split; [|done].
    by apply stream_last.
  - rewrite stream_requests_more, Htok.
    intros [->|Hin]%elem_of_cons.
    + exists (p :: ps). split; [|done]. by eapply stream_more.
    + destruct (IH Hin) as (ps' & Hps' & Hlen). exists ps'.
      split; [done|]. cbn. lia.
Qed.

(** No page is asked for twice: every token is used in one request. *)
Lemma stream_requests_NoDup tok ps :
  page_stream R g tok ps → NoDup (stream_requests g tok ps).
Proof.
  induction 1 as [tok p Hp Htok|tok p t ps Hp Htok Hps IH].
  - apply NoDup_singleton.
  - rewrite stream_requests_more, Htok. apply NoDup_cons. split; [|done].
    intros Hin.
    destruct (stream_requests_suffix _ _ _ Hps Hin) as (ps' & Hps' & Hlen).
    cbn in Hps'.
    assert (ps' = p :: ps) as ->.
    { eapply page_stream_det; [done|]. by eapply stream_more. }
    cbn in Hlen. lia.
Qed.

Lemma stream_requests_length tok ps :
  length (stream_requests g tok ps) = length ps.
Proof.
  unfold stream_requests. rewrite length_fmap, length_take. cbn.
  rewrite length_fmap. lia.
Qed.
End StreamTokens.

(** * [get_members], group by group *)

Section GetMembersFacts.
Variable R : Remote.
Implicit Types (s : GGBackup) (ks : list string).

Lemma first_pages_coherent ks :
  Forall (λ k, lower k = k) ks → coherent (first_page <$> ks).
Proof.
  intros Hks. apply Forall_fmap, Forall_forall. intros k Hk. cbn.
  rewrite Forall_forall in Hks. by rewrite Hks.
Qed.

Lemma first_pages_other g ks :
  Forall (λ k, lower k = k) ks → g ∉ ks →
  for_group g (first_page <$> ks) = [].
Proof.
  unfold for_group. induction ks as [|k ks IH]; [done|].
  intros [Hk Hks]%Forall_cons [Hne Hg]%not_elem_of_cons.
  cbn [fmap list_fmap]. rewrite filter_cons. cbn. rewrite Hk.
  rewrite decide_False by done. by apply IH.
Qed.

Lemma first_pages_for_group g ks :
  Forall (λ k, lower k = k) ks → NoDup ks → g ∈ ks →
  for_group g (first_page <$> ks) = [page_request g None].
Proof.
  induction ks as [|k ks IH]; [by intros _ _ ?%elem_of_nil|].
  intros Hlow [Hk Hnd]%NoDup_cons Hg.
  pose proof Hlow as [Hlk Hks]%Forall_cons.
  unfold for_group in *. cbn [fmap list_fmap]. rewrite filter_cons. cbn.
  rewrite Hlk. destruct (decide (k = g)) as [->|Hne].
  - f_equal.
    + unfold first_page, page_request. by rewrite Hlk.
    + by apply first_pages_other.
  - apply elem_of_cons in Hg as [?|Hg]; [done|]. by apply IH.
Qed.

Lemma round_queued s : round R (queued s) = first_pass R s.
Proof. reflexivity. Qed.

Lemma get_members_depth fuel s :
  members_ready s →
  takes_nextPage s = true ∨ Forall (single_page R) (keys (groups s)) →
  stack_depth (trace (get_members R fuel s))
  = activations R fuel (_next_batch (first_pass R s)).
Proof.
  intros Hready Hgo.
  destruct (get_members_run R fuel s Hready Hgo) as (ev & Hrun & Hev).
  rewrite Hrun. cbn [trace snd].
  unfold stack_depth. rewrite <- depth_visible, Hev.
  apply stack_depth_visible_run.
Qed.

Lemma get_members_stream fuel s g rec ps :
  members_ready s →
  takes_nextPage s = true ∨ Forall (single_page R) (keys (groups s)) →
  dict_get g (groups s) = Some rec →
  page_stream R g None ps →
  length ps ≤ fuel →
  let x := get_members R fuel s in
  sends_for g (trace x) = stream_requests g None ps
  ∧ for_group g (_next_batch (obj x)) = []
  ∧ dict_get g (groups (obj x))
    = Some (foldl (λ rec p, merge_page p rec) rec ps)
  ∧ length ps ≤ stack_depth (trace x).
Proof.
  intros Hready Hgo Hrec Hps Hlen x.
  pose proof Hready as (Hauth & Hcache & Hnd & Hlow & Hok).
  assert (g ∈ keys (groups s)) as Hg by by eapply dict_get_Some_keys.
  assert (for_group g (_next_batch (queued s)) = [page_request g None])
    as Hqueue by by apply first_pages_for_group.
  assert (_next_batch (queued s) ≠ []) as Hne
    by by eapply for_group_nonempty.
  destruct (stream_rounds R g None ps (S fuel) (_next_batch (queued s))
              Hps Hqueue) as [Hsends Hact].
  destruct (stream_run_state R g None ps (S fuel) (queued s) rec
              Hps ltac:(lia) Hqueue Hrec) as [Hpending Hget].
  rewrite run_state_S, round_queued in Hpending, Hget by done.
  rewrite rounds_S in Hsends by done.
  rewrite activations_S in Hact by done.
  change (flat_map (succ_requests R) (_next_batch (queued s)))
    with (flat_map (succ_requests R) (first_page <$> keys (groups s)))
    in Hsends, Hact.
  rewrite <- next_batch_first_pass in Hsends, Hact.
  split_and!.
  - subst x.
    destruct (get_members_run R fuel s Hready Hgo) as (ev & Hrun & Hev).
    rewrite Hrun. cbn [trace snd]. unfold sends_for.
    rewrite <- member_sends_visible, Hev, member_sends_app.
    rewrite member_sends_requests, member_sends_visible_run.
    rewrite <- fmap_app, filter_group_key.
    + apply Hsends. lia.
    + apply Forall_app. split.
      * by apply first_pages_coherent.
      * apply coherent_rounds. rewrite next_batch_first_pass.
        apply coherent_succ_requests.
  - subst x.
    destruct (get_members_run R fuel s Hready Hgo) as (ev & Hrun & Hev).
    by rewrite Hrun.
  - subst x.
    destruct (get_members_run R fuel s Hready Hgo) as (ev & Hrun & Hev).
    by rewrite Hrun.
  - subst x. rewrite get_members_depth by done. lia.
Qed.


Lemma get_members_returns fuel s :
  members_ready s →
  takes_nextPage s = true ∨ Forall (single_page R) (keys (groups s)) →
  (∀ h, h ∈ keys (groups s) → stream_ends R h None fuel) →
  0 < fuel →
  res (get_members R fuel s) = Return tt
  ∧ _next_batch (obj (get_members R fuel s)) = [].
Proof.
  intros Hready Hgo Hends Hfuel.
  pose proof Hready as (Hauth & Hcache & Hnd & Hlow & Hok).
  destruct (get_members_run R fuel s Hready Hgo) as (ev & Hrun & Hev).
  rewrite Hrun. cbn [res obj fst snd].
  destruct fuel as [|m]; [lia|].
  assert (finishes R (S m) (_next_batch (first_pass R s)) = true) as Hfin.
  { apply finishes_ends. rewrite next_batch_first_pass.
    apply ends_within_succ, Forall_fmap, Forall_forall.
    intros h Hh. rewrite Forall_forall in Hlow.
    split; cbn; rewrite Hlow by done; [done|]. by apply Hends. }
  rewrite Hfin. split; [done|]. by apply finished_run_state.
Qed.
End GetMembersFacts.

(** * Sample runs *)

Lemma sample_listed_ready : members_ready sample_listed.
Proof.
  split_and!; try (vm_compute; reflexivity).
  - apply (bool_decide_unpack _). vm_compute. reflexivity.
  - apply (bool_decide_unpack _). vm_compute. reflexivity.
  - apply (bool_decide_unpack _). vm_compute. reflexivity.
Qed.

Lemma length_token i : String.length (token i) = i.
Proof. induction i as [|i IH]; [done|]. cbn. by rewrite IH. Qed.

(** At [paged_remote n] the membership of a group has [n] pages. *)
Lemma paged_stream n g k tok :
  page_index tok + S k = n →
  ∃ ps, page_stream (paged_remote n) g tok ps ∧ length ps = S k.
Proof.
  revert tok. induction k as [|k IH]; intros tok Hn.
  - eexists [_]. split; [|done].
    eapply stream_last; [reflexivity|]. cbn. rewrite decide_False; [done|lia].
  - destruct (IH (Some (token (S (page_index tok))))) as (ps & Hps & Hlen).
    { cbn [page_index]. rewrite length_token. lia. }
    eexists (_ :: ps). split; [|cbn; by rewrite Hlen].
    eapply stream_more; [reflexivity| |exact Hps].
    cbn. rewrite decide_True; [done|lia].
Qed.

(** * Frames and rounds of a trace *)

Lemma skeleton_app ev1 ev2 : skeleton (ev1 ++ ev2) = skeleton ev1 ++ skeleton ev2.
Proof. apply omap_app. Qed.

Lemma skeleton_log lv msg args ev :
  msg ≠ "Building next page batches." →
  skeleton (Log lv msg args :: ev) = skeleton ev.
Proof. intros Hmsg. unfold skeleton. cbn. by rewrite decide_False. Qed.

Lemma skeleton_round lv args ev :
  skeleton (Log lv "Building next page batches." args :: ev)
  = Log lv "Building next page batches." args :: skeleton ev.
Proof. unfold skeleton. cbn. by rewrite decide_True. Qed.

Lemma skeleton_frame f ev :
  skeleton (Enter f :: ev ++ [Leave f]) = Enter f :: skeleton ev ++ [Leave f].
Proof.
  change (Enter f :: ev ++ [Leave f]) with ([Enter f] ++ ev ++ [Leave f]).
  by rewrite !skeleton_app.
Qed.

Lemma skeleton_activation f ev :
  skeleton (Enter f :: Log DEBUG "Building next page batches." []
              :: ev ++ [Leave f])
  = Enter f :: Log DEBUG "Building next page batches." []
      :: skeleton ev ++ [Leave f].
Proof.
  change (skeleton (Enter f :: (Log DEBUG "Building next page batches." []
                                  :: ev) ++ [Leave f])
          = Enter f :: (Log DEBUG "Building next page batches." []
                          :: skeleton ev) ++ [Leave f]).
  by rewrite skeleton_frame, skeleton_round.
Qed.

Lemma entered_skeleton ev : entered (skeleton ev) = entered ev.
Proof.
  unfold entered. f_equal. induction ev as [|e ev IH]; [done|].
  destruct e as [lv msg args|rq|f|f].
  - destruct (decide (msg = "Building next page batches.")) as [->|Hmsg].
    + rewrite skeleton_round. exact IH.
    + by rewrite skeleton_log.
  - exact IH.
  - exact (f_equal (cons f) IH).
  - exact IH.
Qed.

Lemma continued_skeleton ev : continued (skeleton ev) = continued ev.
Proof.
  unfold continued. f_equal. induction ev as [|e ev IH]; [done|].
  destruct e as [lv msg args|rq|f|f].
  - destruct (decide (msg = "Building next page batches.")) as [->|Hmsg].
    + rewrite skeleton_round. cbn. rewrite !decide_True by done.
      by rewrite IH.
    + rewrite skeleton_log by done. cbn. by rewrite decide_False.
  - exact IH.
  - exact IH.
  - exact IH.
Qed.

Lemma depth_skeleton d ev :
  foldl depth_step d (skeleton ev) = foldl depth_step d ev.
Proof.
  revert d. induction ev as [|e ev IH]; intros d; [done|].
  destruct e as [lv msg args|rq|f|f].
  - destruct (decide (msg = "Building next page batches.")) as [->|Hmsg].
    + rewrite skeleton_round. cbn. apply IH.
    + rewrite skeleton_log by done. cbn. apply IH.
  - cbn. apply IH.
  - cbn. apply IH.
  - cbn. apply IH.
Qed.

(** The measures of nested activations. *)
Lemma nested_measures n r cur top :
  r ≤ n ≤ S r →
  entered (nested n r) = n
  ∧ continued (nested n r) = r
  ∧ foldl depth_step (cur, top) (nested n r)
    = (cur, Nat.max top (if n is 0 then 0 else cur + n)).
Proof.
  revert r cur top. induction n as [|n IH]; intros r cur top Hr.
  - assert (r = 0) as -> by lia. cbn. split_and!; [done|done|f_equal; lia].
  - destruct r as [|r].
    + assert (n = 0) as -> by lia. cbn.
      split_and!; [done|done|f_equal; lia].
    + destruct (IH r (S cur) (Nat.max top (S cur))) as (He & Hc & Hd); [lia|].
      cbn [nested]. split_and!.
      * unfold entered in *. cbn. rewrite omap_app, length_app, He. cbn. lia.
      * unfold continued in *. cbn. rewrite decide_True by done. cbn.
        rewrite omap_app, length_app, Hc. cbn. lia.
      * cbn [foldl app depth_step fst snd]. rewrite foldl_app, Hd.
        cbn. f_equal. destruct n; lia.
Qed.

Section Calm.

Lemma trace_bind {A B} (m : M A) (k : A → M B) s :
  trace ((m ≫= k) s)
  = trace (m s) ++ match res (m s) with
                   | Return a => trace (k a (obj (m s)))
                   | _ => []
                   end.
Proof.
  rewrite bind_run. destruct (m s) as [[[a|e|] s1] ev]; cbn.
  - by destruct (k a s1) as [[??]?].
  - by rewrite app_nil_r.
  - by rewrite app_nil_r.
Qed.

Lemma calm_bind {A B} (m : M A) (k : A → M B) :
  (∀ s, skeleton (trace (m s)) = []) →
  (∀ a s, skeleton (trace (k a s)) = []) →
  ∀ s, skeleton (trace ((m ≫= k) s)) = [].
Proof.
  intros Hm Hk s. rewrite trace_bind, skeleton_app, Hm.
  destruct (res (m s)); [apply Hk|done|done].
Qed.

Lemma calm_for {A} (l : list A) (body : A → M unit) :
  (∀ x s, skeleton (trace (body x s)) = []) →
  ∀ s, skeleton (trace (for_ l body s)) = [].
Proof.
  intros Hbody. induction l as [|x l IH]; [done|].
  cbn [for_]. apply calm_bind; [apply Hbody|]. by intros _.
Qed.

Lemma calm_answer {Rq Rs} (remote : Rq → exn + Rs) callback r :
  (∀ rid resp exc s, skeleton (trace (callback rid resp exc s)) = []) →
  ∀ s, skeleton (trace (answer remote callback r s)) = [].
Proof. intros Hcb s. unfold answer. destruct (remote r.2); apply Hcb. Qed.

(** Batches of requests, with the log records that precede them. *)
Lemma calm_batch_body {B Rq Rs} (note : B → event) (wire : Rq → request)
    (remote : Rq → exn + Rs) callback (b : list B) reqs :
  (∀ x, skeleton [note x] = []) →
  (∀ rid resp exc s, skeleton (trace (callback rid resp exc s)) = []) →
  ∀ s, skeleton (trace ((for_ b (λ x, emit (note x));;
                         emit (Log DEBUG "Executing batch." []);;
                         execute wire remote callback reqs) s)) = [].
Proof.
  intros Hnote Hcb. apply calm_bind.
  - apply calm_for. intros x s. apply Hnote.
  - intros _. apply calm_bind; [done|]. intros _.
    unfold execute, deliver. apply calm_bind.
    + apply calm_for. by intros r s.
    + intros _. apply calm_for. intros r. by apply calm_answer.
Qed.

Lemma calm_add_members rid resp exc s :
  skeleton (trace (add_members rid resp exc s)) = [].
Proof.
  destruct exc as [e|]; [done|]. destruct resp as [p|]; [|done].
  unfold add_members. run.
  destruct (dict_get rid (groups s)) as [rec|]; run; [|done].
  unfold extend_members.
  destruct (rec !! "members") as [[|b|n|e|l|o]|] eqn:Hm; run; rewrite ?Hm;
    run; try done.
  - destruct (nextPageToken p); run; [|done].
    destruct (service s); run; [|done].
    by destruct (list_members _ _); run.
  - rewrite lookup_insert_eq. run.
    destruct (nextPageToken p); run; [|done].
    destruct (service s); run; [|done].
    by destruct (list_members _ _); run.
Qed.

Lemma calm_check_auth s : skeleton (trace (check_auth s)) = [].
Proof.
  rewrite check_auth_run.
  by destruct (http_auth s), (service s), (gsetservice s).
Qed.

Lemma calm_group_batches s : skeleton (trace (group_batches s)) = [].
Proof.
  unfold group_batches. run.
  destruct (_group_batch s); run; [by destruct (_group_batches s)|done].
Qed.
End Calm.

(** * The activations of [run_next_batch] *)

Section Nesting.
Variable R : Remote.

(** A calm computation in front leaves the nesting as it is. *)
Lemma nested_bind {A B} (m : M A) (k : A → M B) limit :
  (∀ s, skeleton (trace (m s)) = []) →
  (∀ a s, ∃ n r, skeleton (trace (k a s)) = nested n r
                 ∧ n ≤ limit ∧ r ≤ n ≤ S r) →
  ∀ s, ∃ n r, skeleton (trace ((m ≫= k) s)) = nested n r
              ∧ n ≤ limit ∧ r ≤ n ≤ S r.
Proof.
  intros Hm Hk s. rewrite trace_bind, skeleton_app, Hm.
  destruct (res (m s)) as [a|e|]; [apply Hk| |];
    exists 0, 0; split_and!; (done || lia).
Qed.

(** Every activation of [run_next_batch] but the last starts a round, and
    runs the next one inside itself. *)
Lemma run_next_batch_nested limit s :
  ∃ n r, skeleton (trace (run_next_batch R limit s)) = nested n r
         ∧ n ≤ limit ∧ r ≤ n ≤ S r.
Proof.
  revert s. induction limit as [|limit IH]; intros s.
  - exists 0, 0. split_and!; (done || lia).
  - cbn [run_next_batch]. rewrite frame_run. cbn [trace snd].
    rewrite trace_bind. cbn [get trace res obj fst snd app].
    destruct (decide (length (_next_batch s) = 0)) as [Hlen|Hlen].
    + exists 1, 0. split_and!; (done || lia).
    + rewrite trace_bind. cbn [emit trace res obj fst snd].
      rewrite trace_bind. cbn [modify trace res obj fst snd app].
      rewrite trace_bind.
      assert (∀ s', skeleton (trace (for_ (batch (_next_batch s))
                                       (next_page_batch R) s')) = [])
        as Hcalm.
      { apply calm_for. intros b. unfold next_page_batch.
        apply calm_batch_body; [done|apply calm_add_members]. }
      destruct (res (for_ _ _ _)) as [[]|e|].
      * destruct (IH (obj (for_ (batch (_next_batch s)) (next_page_batch R)
                             (set_next_batch (λ _, []) s))))
          as (n & r & Hsk & Hn & Hr).
        exists (S n), (S r). split; [|lia].
        by rewrite skeleton_activation, skeleton_app, Hcalm, Hsk.
      * exists 1, 1. split; [|lia].
        by rewrite skeleton_activation, skeleton_app, Hcalm.
      * exists 1, 1. split; [|lia].
        by rewrite skeleton_activation, skeleton_app, Hcalm.
Qed.

Lemma get_members_nested limit s :
  ∃ n r, skeleton (trace (get_members R limit s)) = nested n r
         ∧ n ≤ limit ∧ r ≤ n ≤ S r.
Proof.
  unfold get_members.
  apply nested_bind; [apply calm_check_auth|]. intros _.
  apply nested_bind; [done|]. intros _.
  apply nested_bind; [apply calm_group_batches|]. intros bs.
  apply nested_bind; [|intros _; apply run_next_batch_nested].
  apply calm_for. intros b. unfold first_page_batch.
  apply calm_batch_body; [done|apply calm_add_members].
Qed.

Lemma get_members_frames limit s :
  let x := get_members R limit s in
  stack_depth (trace x) = entered (trace x)
  ∧ continued (trace x) ≤ stack_depth (trace x) ≤ S (continued (trace x))
  ∧ stack_depth (trace x) ≤ limit.
Proof.
  intros x. destruct (get_members_nested limit s) as (n & r & Hsk & Hn & Hr).
  fold x in Hsk.
  destruct (nested_measures n r 0 0 Hr) as (He & Hc & Hd).
  assert (stack_depth (trace x) = n) as ->.
  { unfold stack_depth. rewrite <- depth_skeleton, Hsk, Hd. cbn.
    by destruct n. }
  rewrite <- entered_skeleton, <- continued_skeleton, Hsk, He, Hc. lia.
Qed.
End Nesting.

(** * Sample objects with the stand-in client *)

Lemma lenient_group_ready : members_ready lenient_group.
Proof.
  split_and!; try (vm_compute; reflexivity).
  - apply (bool_decide_unpack _). vm_compute. reflexivity.
  - apply (bool_decide_unpack _). vm_compute. reflexivity.
  - apply (bool_decide_unpack _). vm_compute. reflexivity.
Qed.

(** * The depth of the continuation *)




(** * The pagination, with a client that takes the keyword *)

(** X20.  The pagination as it is written.  With a client whose
    [members().list] takes [nextPage] (a stand-in for the service does) and
    room for the activations, [get_members] sends for a group whose
    membership is a stream of [N] pages exactly the [N] requests of the
    stream, in page order and none twice, merges the members of the pages in
    page order, and leaves nothing queued for the group; it returns with an
    empty queue when the listing of every group ends within the limit. *)
Theorem pagination_with_nextPage (R : Remote) (limit : nat) (s : GGBackup)
    (g : string) (rec : record) (ps : list members_page) :
  members_ready s →
  takes_nextPage s = true →
  dict_get g (groups s) = Some rec →
  page_stream R g None ps →
  length ps ≤ limit →
  let x := get_members R limit s in
  sends_for g (trace x) = stream_requests g None ps
  ∧ length (sends_for g (trace x)) = length ps
  ∧ NoDup (sends_for g (trace x))
  ∧ for_group g (_next_batch (obj x)) = []
  ∧ dict_get g (groups (obj x))
    = Some (<["members" := JList (record_members rec
                                    ++ concat (page_members <$> ps))]> rec)
  ∧ ((∀ h, h ∈ keys (groups s) → stream_ends R h None limit) →
     res x = Return tt ∧ _next_batch (obj x) = []).
Proof.
  intros Hready Htakes Hrec Hps Hlen x.
  destruct (get_members_stream R limit s g rec ps Hready (or_introl Htakes)
              Hrec Hps Hlen) as (Hsends & Hqueue & Hget & _).
  fold x in Hsends, Hqueue, Hget. rewrite Hsends. split_and!.
  - done.
  - apply stream_requests_length.
  - by eapply stream_requests_NoDup.
  - done.
  - rewrite Hget.
    destruct ps as [|p ps]; [apply page_stream_length in Hps; cbn in Hps; lia|].
    by rewrite merge_pages.
  - intros Hends. apply get_members_returns; [done|by left|done|].
    apply page_stream_length in Hps. lia.
Qed.

(** Three pages for ["g@x.com"], fetched with three requests. *)
Lemma pagination_with_nextPage_witness :
  length (sends_for "g@x.com"
            (trace (get_members (paged_remote 3) 3 lenient_group))) = 3.
Proof.
  destruct (paged_stream 3 "g@x.com" 2 None) as (ps & Hps & Hlen); [done|].
  destruct (pagination_with_nextPage (paged_remote 3) 3 lenient_group
              "g@x.com" ({["email" := JStr "g@x.com"]} : record) ps)
    as (_ & Hsends & _).
  - exact lenient_group_ready.
  - reflexivity.
  - vm_compute. reflexivity.
  - exact Hps.
  - lia.
  - cbv zeta in Hsends. by rewrite Hsends.
Defined.

(** * Credentials and the session *)

Lemma check_credentials_run s :
  check_credentials s
  = match credentials s with
    | None => (Raise (Exception "Credentials not found."), s, [])
    | Some c =>
        if invalid c
        then (Raise (Exception "Credentials are invalid."), s, [])
        else (Return tt, s, [])
    end.
Proof.
  unfold check_credentials. rewrite bind_run. cbn.
  destruct (credentials s) as [c|]; [|done]. by destruct (invalid c).
Qed.

Lemma auth_run s :
  auth s
  = match credentials s with
    | None => (Raise (Exception "Credentials not found."), s, [])
    | Some c =>
        if invalid c
        then (Raise (Exception "Credentials are invalid."), s, [])
        else (Return tt, set_session () s, [])
    end.
Proof.
  unfold auth. rewrite bind_run, check_credentials_run.
  destruct (credentials s) as [c|]; [|done]. by destruct (invalid c).
Qed.

Lemma save_run cred_file store s :
  save cred_file store s
  = match credentials s with
    | None => (Raise (Exception "Credentials not found."), s, [])
    | Some c =>
        if invalid c
        then (Raise (Exception "Credentials are invalid."), s, [])
        else (Return (<[cred_file := c]> store), s,
              [Log INFO "Saved credentials to %s" [ArgStr cred_file]])
    end.
Proof.
  unfold save. rewrite bind_run, check_credentials_run.
  destruct (credentials s) as [c|] eqn:Hc; [|done].
  destruct (invalid c); [done|]. run. rewrite Hc. by run.
Qed.

(** X1.  Without credentials, or with credentials flagged invalid, [auth]
    and [save] raise the exception that says so: the object is left as it
    was (no session component is set), nothing is written to the store and
    nothing is logged. *)
Theorem credentials_required (cred_file : string)
    (store : gmap string Credentials) (s : GGBackup) (msg : string) :
  match credentials s with
  | None => msg = "Credentials not found."
  | Some c => invalid c = true ∧ msg = "Credentials are invalid."
  end →
  auth s = (Raise (Exception msg), s, [])
  ∧ save cred_file store s = (Raise (Exception msg), s, []).
Proof.
  intros Hmsg. rewrite auth_run, save_run.
  destruct (credentials s) as [c|]; [|by subst].
  destruct Hmsg as [-> ->]. done.
Qed.

(** A fresh object has no credentials. *)
Lemma credentials_required_witness :
  auth (init "x.com")
  = (Raise (Exception "Credentials not found."), init "x.com", [])
  ∧ save "creds.dat" ∅ (init "x.com")
    = (Raise (Exception "Credentials not found."), init "x.com", []).
Proof.
  apply (credentials_required "creds.dat" ∅ (init "x.com")
           "Credentials not found.").
  reflexivity.
Defined.

(** X2.  With valid credentials [auth] returns and sets the transport and
    both services, whatever they were before; it touches neither the
    credentials nor the group-record map, and the session check of the fetch
    operations passes afterwards. *)
Theorem auth_establishes_session (s : GGBackup) (c : Credentials) :
  credentials s = Some c →
  invalid c = false →
  let s' := obj (auth s) in
  res (auth s) = Return tt
  ∧ is_Some (http_auth s') ∧ is_Some (service s') ∧ is_Some (gsetservice s')
  ∧ credentials s' = Some c
  ∧ groups s' = groups s
  ∧ domain s' = domain s
  ∧ check_auth s' = (Return tt, s', []).
Proof.
  intros Hc Hvalid s'. subst s'. rewrite auth_run, Hc, Hvalid.
  unfold res, obj. cbn. rewrite check_auth_run. cbn.
  split_and!; by eauto.
Qed.

Lemma auth_establishes_session_witness :
  res (auth (obj (load (Some {| invalid := false |}) (init "x.com"))))
  = Return tt
  ∧ check_auth sample_session = (Return tt, sample_session, []).
Proof.
  destruct (auth_establishes_session
              (obj (load (Some {| invalid := false |}) (init "x.com")))
              {| invalid := false |})
    as (Hres & _ & _ & _ & _ & _ & _ & Hcheck); [reflexivity..|].
  split; [exact Hres|exact Hcheck].
Defined.

(** X3.  [save] followed by [load] of the same path is a round trip: with
    valid credentials [save] returns, leaves the object as it was and writes
    the credentials under the path, other paths being untouched; a [load] of
    that path into any object then holds the saved credentials, and [auth]
    succeeds on it. *)
Theorem save_load_round_trip (cred_file : string)
    (store : gmap string Credentials) (s s2 : GGBackup) (c : Credentials) :
  credentials s = Some c →
  invalid c = false →
  ∃ store',
    save cred_file store s
    = (Return store', s,
       [Log INFO "Saved credentials to %s" [ArgStr cred_file]])
    ∧ store' !! cred_file = Some c
    ∧ (∀ f, f ≠ cred_file → store' !! f = store !! f)
    ∧ credentials (obj (load_from cred_file store' s2)) = Some c
    ∧ res (auth (obj (load_from cred_file store' s2))) = Return tt.
Proof.
  intros Hc Hvalid. exists (<[cred_file := c]> store).
  rewrite save_run, Hc, Hvalid. split_and!.
  - done.
  - apply lookup_insert_eq.
  - intros f Hf. by apply lookup_insert_ne.
  - unfold load_from. by rewrite lookup_insert_eq.
  - unfold load_from. rewrite lookup_insert_eq, auth_run. cbn.
    by rewrite Hvalid.
Qed.

Lemma save_load_round_trip_witness :
  ∃ store',
    res (save "creds.dat" ∅ sample_session) = Return store'
    ∧ credentials (obj (load_from "creds.dat" store' (init "y.org")))
      = Some {| invalid := false |}.
Proof.
  destruct (save_load_round_trip "creds.dat" ∅ sample_session (init "y.org")
              {| invalid := false |})
    as (store' & Hsave & _ & _ & Hload & _); [reflexivity..|].
  exists store'. split; [by rewrite Hsave|exact Hload].
Defined.

(** X4.  A [load] from a path under which nothing is stored clears the
    credentials, also when the object held valid ones: [auth] and [save]
    then raise ['Credentials not found.']. *)
Theorem load_missing_clears (cred_file out_file : string)
    (store out : gmap string Credentials) (s : GGBackup) :
  store !! cred_file = None →
  let s' := obj (load_from cred_file store s) in
  res (load_from cred_file store s) = Return tt
  ∧ credentials s' = None
  ∧ auth s' = (Raise (Exception "Credentials not found."), s', [])
  ∧ save out_file out s' = (Raise (Exception "Credentials not found."), s', []).
Proof.
  intros Hnone s'. subst s'. unfold load_from. rewrite Hnone.
  by split_and!.
Qed.

Lemma load_missing_clears_witness :
  credentials (obj (load_from "nothing.dat" ∅ sample_session)) = None.
Proof.
  apply (load_missing_clears "nothing.dat" "out.dat" ∅ ∅ sample_session).
  reflexivity.
Defined.

(** * The listing, page by page *)

Lemma insert_group_entry group s :
  insert_group group s
  = match group_entry group with
    | Some kg => (Return tt, set_groups (dict_set kg.1 kg.2) s, [])
    | None => (Raise (group_error group), s, [])
    end.
Proof.
  rewrite insert_group_run. unfold group_entry, group_error.
  by destruct (group !! "email") as [[]|].
Qed.

Lemma for_insert_entries gs s :
  Forall (λ group, is_Some (group_entry group)) gs →
  for_ gs insert_group s
  = (Return tt, set_groups (dict_set_all (omap group_entry gs)) s, []).
Proof.
  revert s. induction gs as [|group gs IH]; intros s Hgs.
  - cbn. by rewrite set_groups_nil.
  - apply Forall_cons in Hgs as [[kg Hkg] Hgs].
    cbn [for_ omap list_omap]. rewrite bind_run, insert_group_entry, Hkg.
    rewrite IH by done. cbn. reflexivity.
Qed.

Lemma for_insert_stops pre bad post s :
  Forall (λ group, is_Some (group_entry group)) pre →
  group_entry bad = None →
  for_ (pre ++ bad :: post) insert_group s
  = (Raise (group_error bad),
     set_groups (dict_set_all (omap group_entry pre)) s, []).
Proof.
  intros Hpre Hbad. rewrite for_app, bind_run, for_insert_entries by done.
  cbn [for_]. rewrite bind_run, insert_group_entry, Hbad. reflexivity.
Qed.

Lemma listing_requests_more d tok page pages :
  listing_requests d tok (page :: pages)
  = GroupsList d tok :: listing_requests d (gp_nextPageToken page) pages.
Proof. reflexivity. Qed.

Lemma listed_entries_cons page pages :
  listed_entries (page :: pages)
  = omap group_entry (default [] (gp_groups page)) ++ listed_entries pages.
Proof. unfold listed_entries. cbn. by rewrite omap_app. Qed.

Lemma get_groups_loop_None R fuel s :
  get_groups_loop R fuel None s = (Return tt, s, []).
Proof. by destruct fuel. Qed.

Lemma get_groups_loop_stream R d tok pages fuel s :
  listing_stream R d tok pages →
  Forall well_formed_page pages →
  length pages ≤ fuel →
  get_groups_loop R fuel (Some (GroupsList d tok)) s
  = (Return tt, set_groups (dict_set_all (listed_entries pages)) s,
     Send <$> listing_requests d tok pages).
Proof.
  intros Hstream. revert fuel s.
  induction Hstream as [tok page Hpage Htok|tok page t pages Hpage Htok _ IH];
    intros fuel s Hwf Hlen.
  - destruct fuel as [|fuel]; [cbn in Hlen; lia|].
    apply Forall_cons in Hwf as [[[gs Hgs] Hgroups] _].
    rewrite Hgs in Hgroups. cbn in Hgroups.
    rewrite get_groups_loop_S, Hpage, Hgs. cbv zeta.
    rewrite for_insert_entries by done.
    unfold res, obj, trace. cbn [fst snd].
    unfold list_next. rewrite Htok, get_groups_loop_None.
    unfold listed_entries. cbn. by rewrite Hgs, app_nil_r.
  - destruct fuel as [|fuel]; [cbn in Hlen; lia|].
    apply Forall_cons in Hwf as [[[gs Hgs] Hgroups] Hwf].
    rewrite Hgs in Hgroups. cbn in Hgroups.
    rewrite get_groups_loop_S, Hpage, Hgs. cbv zeta.
    rewrite for_insert_entries by done.
    unfold res, obj, trace. cbn [fst snd].
    unfold list_next. rewrite Htok.
    rewrite IH by (done || cbn in Hlen; lia).
    rewrite set_groups_app, listing_requests_more, Htok.
    rewrite listed_entries_cons, Hgs. reflexivity.
Qed.

Lemma dict_get_set_all_last (k : string) (l : list (string * record))
    (d : dict record) :
  dict_get k (dict_set_all l d)
  = match last_entry k l with
    | Some rec => Some rec
    | None => dict_get k d
    end.
Proof.
  unfold last_entry. induction l as [|[k' v] l IH] using rev_ind; [done|].
  rewrite dict_set_all_app, filter_app. cbn [dict_set_all foldl fst snd].
  rewrite filter_cons. cbn. destruct (decide (k' = k)) as [->|Hne].
  - by rewrite dict_get_set_eq, last_snoc.
  - rewrite dict_get_set_ne by done. rewrite app_nil_r. exact IH.
Qed.

(** X5.  When the first page of the listing fails, [get_groups] fails with
    it: an exception of the request is raised as it is, and a page without
    ['groups'] (a domain that has no group) raises [KeyError] on that key.
    One request was sent, the object is left as it was and the count of
    groups is not logged. *)
Theorem get_groups_first_page_fails (R : Remote) (fuel : nat) (s : GGBackup)
    (err : exn) :
  res (check_auth s) = Return tt →
  match groups_list R (domain s) None with
  | inl e => err = e
  | inr page => gp_groups page = None ∧ err = KeyError "groups"
  end →
  get_groups R (S fuel) s
  = (Raise err, s, [Send (GroupsList (domain s) None)]).
Proof.
  intros Hauth Herr. rewrite get_groups_run, Hauth. cbv zeta.
  rewrite get_groups_loop_S.
  destruct (groups_list R (domain s) None) as [e|page]; [by subst|].
  destruct Herr as [-> ->]. done.
Qed.

Lemma get_groups_first_page_fails_witness :
  get_groups empty_domain_remote 1 sample_session
  = (Raise (KeyError "groups"), sample_session,
     [Send (GroupsList "x.com" None)]).
Proof.
  apply (get_groups_first_page_fails empty_domain_remote 0 sample_session
           (KeyError "groups")).
  - reflexivity.
  - cbn. split; reflexivity.
Defined.

(** X6.  The listing is not atomic.  When a group of the first page has no
    e-mail, or an e-mail that is not a string, [get_groups] raises at that
    group: the groups that precede it on the page have been written, the
    group itself and those that follow have not, and nothing is logged. *)
Theorem get_groups_partial_page (R : Remote) (fuel : nat) (s : GGBackup)
    (page : groups_page) (pre post : list record) (bad : record) :
  res (check_auth s) = Return tt →
  groups_list R (domain s) None = inr page →
  gp_groups page = Some (pre ++ bad :: post) →
  Forall (λ group, is_Some (group_entry group)) pre →
  group_entry bad = None →
  get_groups R (S fuel) s
  = (Raise (group_error bad),
     set_groups (dict_set_all (omap group_entry pre)) s,
     [Send (GroupsList (domain s) None)]).
Proof.
  intros Hauth Hpage Hgs Hpre Hbad. rewrite get_groups_run, Hauth. cbv zeta.
  rewrite get_groups_loop_S, Hpage, Hgs. cbv zeta.
  by rewrite for_insert_stops.
Qed.

Lemma get_groups_partial_page_witness :
  res (get_groups broken_remote 1 sample_session) = Raise (KeyError "email")
  ∧ keys (groups (obj (get_groups broken_remote 1 sample_session)))
    = ["a@x.com"].
Proof.
  rewrite (get_groups_partial_page broken_remote 0 sample_session
             {| gp_groups := Some [ {["email" := JStr "A@x.com"]};
                                    {["name" := JStr "nameless"]};
                                    {["email" := JStr "c@x.com"]} ];
                gp_nextPageToken := None |}
             [ {["email" := JStr "A@x.com"]} ]
             [ {["email" := JStr "c@x.com"]} ]
             {["name" := JStr "nameless"]}).
  - split; reflexivity.
  - reflexivity.
  - reflexivity.
  - reflexivity.
  - repeat constructor. by eexists.
  - reflexivity.
Defined.

(** X7.  When the listing of the domain is a stream of well-formed pages,
    [get_groups] returns after one request per page, the first without a
    token and then one for each token, and logs the size of the map.  The
    map is the one it started from with every listed group written, in
    listing order, under its lower-cased e-mail: a key holds the last listed
    group with that lower-cased e-mail, whatever its record held before, and
    a key that is not listed keeps its record. *)
Theorem get_groups_complete (R : Remote) (fuel : nat) (s : GGBackup)
    (pages : list groups_page) :
  res (check_auth s) = Return tt →
  listing_stream R (domain s) None pages →
  Forall well_formed_page pages →
  length pages ≤ fuel →
  let s' := set_groups (dict_set_all (listed_entries pages)) s in
  get_groups R fuel s
  = (Return tt, s',
     (Send <$> listing_requests (domain s) None pages)
       ++ [Log INFO "Retrieved %s groups." [ArgNat (length (groups s'))]])
  ∧ (∀ k, dict_get k (groups s')
          = match last_entry k (listed_entries pages) with
            | Some group => Some group
            | None => dict_get k (groups s)
            end)
  ∧ (∀ k, k ∈ keys (groups s')
          ↔ k ∈ keys (listed_entries pages) ∨ k ∈ keys (groups s)).
Proof.
  intros Hauth Hstream Hwf Hlen s'. split_and!.
  - rewrite get_groups_run, Hauth. cbv zeta.
    by rewrite (get_groups_loop_stream R _ _ pages).
  - intros k. apply dict_get_set_all_last.
  - intros k. apply elem_of_keys_dict_set_all.
Qed.

Lemma sample_listing_stream : listing_stream sample_remote "x.com" None sample_listing.
Proof.
  eapply listing_more; [reflexivity|reflexivity|].
  eapply listing_last; reflexivity.
Qed.

Lemma sample_listing_well_formed : Forall well_formed_page sample_listing.
Proof.
  repeat constructor; cbn; try by eexists.
Qed.

Lemma get_groups_complete_witness :
  trace (get_groups sample_remote 2 sample_session)
  = [Send (GroupsList "x.com" None); Send (GroupsList "x.com" (Some "p2"));
     Log INFO "Retrieved %s groups." [ArgNat 3]]
  ∧ dict_get "a@x.com" (groups (obj (get_groups sample_remote 2 sample_session)))
    = Some {["email" := JStr "A@x.com"]}.
Proof.
  destruct (get_groups_complete sample_remote 2 sample_session sample_listing)
    as (Hrun & Hget & _).
  - reflexivity.
  - exact sample_listing_stream.
  - exact sample_listing_well_formed.
  - cbn. lia.
  - rewrite Hrun. cbn [trace obj fst snd]. split; [reflexivity|].
    rewrite Hget. reflexivity.
Defined.

(** * The keys of the map *)

Lemma lower_ascii_idemp c : lower_ascii (lower_ascii c) = lower_ascii c.
Proof. by destruct c as [[] [] [] [] [] [] [] []]. Qed.

Lemma lower_idemp e : lower (lower e) = lower e.
Proof.
  induction e as [|c e IH]; [done|]. cbn. by rewrite lower_ascii_idemp, IH.
Qed.

Lemma by_lower_email_key kg : by_lower_email kg → lower kg.1 = kg.1.
Proof. intros (e & _ & ->). apply lower_idemp. Qed.

Lemma Forall_dict_set {V} (P : string * V → Prop) k v (d : dict V) :
  Forall P d → P (k, v) → Forall P (dict_set k v d).
Proof.
  intros Hd Hkv. induction d as [|[k' v'] d IH]; cbn.
  - by repeat constructor.
  - apply Forall_cons in Hd as [Hv' Hd].
    destruct (decide (k = k')) as [->|Hne]; constructor; auto.
Qed.

Lemma Forall_dict_set_all {V} (P : string * V → Prop) l (d : dict V) :
  Forall P d → Forall P l → Forall P (dict_set_all l d).
Proof.
  revert d. induction l as [|[k v] l IH]; intros d Hd Hl; [done|].
  apply Forall_cons in Hl as [Hkv Hl]. rewrite dict_set_all_cons.
  apply IH; [|done]. by apply Forall_dict_set.
Qed.

Lemma obj_get_groups R fuel s :
  ∃ l, Forall by_lower_email l
       ∧ obj (get_groups R fuel s) = set_groups (dict_set_all l) s.
Proof.
  destruct (get_groups_loop_inserts R fuel
              (Some (GroupsList (domain s) None))) as (r & l & ev & Hl & Hloop).
  rewrite get_groups_run.
  destruct (res (check_auth s)) as [[]|e|].
  - exists l. split; [done|]. cbv zeta. rewrite Hloop.
    by destruct r as [[]|e|].
  - exists []. split; [done|]. by rewrite set_groups_nil.
  - exists []. split; [done|]. by rewrite set_groups_nil.
Qed.

(** X8.  However a listing ends, it keeps the shape of the map: when every
    record is filed under its own lower-cased e-mail and no key occurs
    twice, the same holds afterwards, and every key is in lower case.  This
    is so in particular for every listing into the empty map of a new
    object. *)
Theorem get_groups_keeps_keys (R : Remote) (fuel : nat) (s : GGBackup) :
  Forall by_lower_email (groups s) →
  NoDup (keys (groups s)) →
  let s' := obj (get_groups R fuel s) in
  Forall by_lower_email (groups s')
  ∧ NoDup (keys (groups s'))
  ∧ Forall (λ k, lower k = k) (keys (groups s')).
Proof.
  intros Hby Hnd s'. subst s'.
  destruct (obj_get_groups R fuel s) as (l & Hl & ->).
  assert (Forall by_lower_email (dict_set_all l (groups s))) as Hall
    by by apply Forall_dict_set_all.
  split_and!.
  - done.
  - by apply NoDup_keys_dict_set_all.
  - cbn. apply Forall_fmap. eapply Forall_impl; [exact Hall|].
    intros kg. apply by_lower_email_key.
Qed.

Lemma get_groups_keeps_keys_witness :
  NoDup (keys (groups sample_listed))
  ∧ Forall (λ k, lower k = k) (keys (groups sample_listed)).
Proof.
  destruct (get_groups_keeps_keys sample_remote 2 sample_session)
    as (_ & Hnd & Hlow).
  - apply Forall_nil_2.
  - apply NoDup_nil_2.
  - split; [exact Hnd|exact Hlow].
Defined.

(** * What the fetch operations leave alone *)

Section Preserves.
Context {X : Type} (f : GGBackup → X).

Lemma preserves_ret {A} (a : A) : preserves f (mret a).
Proof. by intros s. Qed.

Lemma preserves_raise {A} e : preserves f (@raise A e).
Proof. by intros s. Qed.

Lemma preserves_out_of_fuel {A} : preserves f (@out_of_fuel A).
Proof. by intros s. Qed.

Lemma preserves_emit e : preserves f (emit e).
Proof. by intros s. Qed.

Lemma preserves_modify g : (∀ s, f (g s) = f s) → preserves f (modify g).
Proof. intros Hg s. apply Hg. Qed.

Lemma preserves_bind {A B} (m : M A) (k : A → M B) :
  preserves f m → (∀ a, preserves f (k a)) → preserves f (m ≫= k).
Proof.
  intros Hm Hk s. rewrite bind_run. specialize (Hm s).
  destruct (m s) as [[[a|e|] s1] ev]; unfold obj in *; cbn in *; try done.
  specialize (Hk a s1). destruct (k a s1) as [[r s2] ev2].
  unfold obj in *. cbn in *. congruence.
Qed.

(** A continuation that reads the object first. *)
Lemma preserves_get {B} (k : GGBackup → M B) :
  (∀ s, f (obj (k s s)) = f s) → preserves f (get ≫= k).
Proof.
  intros Hk s. rewrite bind_run. cbn. specialize (Hk s).
  destruct (k s s) as [[r s2] ev2]. exact Hk.
Qed.

Lemma preserves_for {A} (l : list A) (body : A → M unit) :
  (∀ x, preserves f (body x)) → preserves f (for_ l body).
Proof.
  intros Hbody. induction l as [|x l IH]; [by intros s|].
  cbn [for_]. apply preserves_bind; [apply Hbody|]. by intros _.
Qed.

Lemma preserves_frame {A} name (m : M A) :
  preserves f m → preserves f (frame name m).
Proof. intros Hm s. rewrite frame_run. apply Hm. Qed.

Lemma preserves_check_auth : preserves f check_auth.
Proof. intros s. by rewrite check_auth_obj. Qed.

Lemma preserves_answer {Rq Rs} (remote : Rq → exn + Rs) callback r :
  (∀ rid resp exc, preserves f (callback rid resp exc)) →
  preserves f (answer remote callback r).
Proof. intros Hcb. unfold answer. by destruct (remote r.2). Qed.

Lemma preserves_execute {Rq Rs} (wire : Rq → request)
    (remote : Rq → exn + Rs) callback reqs :
  (∀ rid resp exc, preserves f (callback rid resp exc)) →
  preserves f (execute wire remote callback reqs).
Proof.
  intros Hcb. unfold execute, deliver. apply preserves_bind.
  - apply preserves_for. intros r. apply preserves_emit.
  - intros _. apply preserves_for. intros r. by apply preserves_answer.
Qed.

(** Batches of requests, with the log records that precede them. *)
Lemma preserves_batch_body {B Rq Rs} (note : B → event) (wire : Rq → request)
    (remote : Rq → exn + Rs) callback (b : list B) reqs :
  (∀ rid resp exc, preserves f (callback rid resp exc)) →
  preserves f (for_ b (λ x, emit (note x));;
               emit (Log DEBUG "Executing batch." []);;
               execute wire remote callback reqs).
Proof.
  intros Hcb. apply preserves_bind.
  - apply preserves_for. intros x. apply preserves_emit.
  - intros _. apply preserves_bind; [apply preserves_emit|].
    intros _. by apply preserves_execute.
Qed.

Lemma preserves_run_next_batch R fuel :
  (∀ s g, f (set_next_batch g s) = f s) →
  (∀ rid resp exc, preserves f (add_members rid resp exc)) →
  preserves f (run_next_batch R fuel).
Proof.
  intros Hnb Hcb. induction fuel as [|fuel IH];
    [apply preserves_raise|].
  cbn [run_next_batch]. apply preserves_frame, preserves_get. intros s.
  destruct (decide (length (_next_batch s) = 0)); [done|].
  eapply (preserves_bind _ _ (preserves_emit _)). intros _.
  apply preserves_bind; [apply preserves_modify; intros s'; apply Hnb|].
  intros _. apply preserves_bind; [|by intros _].
  apply preserves_for. intros b. unfold next_page_batch.
  by apply preserves_batch_body.
Qed.
End Preserves.

Lemma keys_add_settings rid resp exc :
  preserves group_keys (add_settings rid resp exc).
Proof.
  intros s. unfold group_keys.
  destruct exc as [e|]; [done|]. destruct resp as [r|]; [|done].
  unfold add_settings. run. unfold getitem.
  destruct (r !! "email") as [[|b|n|e|l|o]|]; run; try done.
  destruct (dict_get (lower e) (groups s)) as [rec|] eqn:Hget; run; [|done].
  apply keys_dict_set_in. by eapply dict_get_Some_keys.
Qed.

Lemma keys_add_members rid resp exc :
  preserves group_keys (add_members rid resp exc).
Proof.
  intros s. unfold group_keys.
  destruct exc as [e|]; [done|]. destruct resp as [p|]; [|done].
  unfold add_members. run.
  destruct (dict_get rid (groups s)) as [rec|] eqn:Hget; run; [|done].
  assert (rid ∈ keys (groups s)) as Hin by by eapply dict_get_Some_keys.
  unfold extend_members.
  destruct (rec !! "members") as [[|b|n|e|l|o]|] eqn:Hm; run; rewrite ?Hm;
    run; try done.
  - destruct (nextPageToken p); run; [|by apply keys_dict_set_in].
    destruct (service s); run; [|by apply keys_dict_set_in].
    destruct (list_members _ _); run; by apply keys_dict_set_in.
  - rewrite lookup_insert_eq. run.
    destruct (nextPageToken p); run;
      [|rewrite dict_set_set; by apply keys_dict_set_in].
    destruct (service s); run;
      [|rewrite dict_set_set; by apply keys_dict_set_in].
    destruct (list_members _ _); run;
      rewrite dict_set_set; by apply keys_dict_set_in.
Qed.

Lemma session_add_settings rid resp exc :
  preserves session_of (add_settings rid resp exc).
Proof.
  intros s. destruct exc as [e|]; [done|]. destruct resp as [r|]; [|done].
  unfold add_settings. run. unfold getitem.
  destruct (r !! "email") as [[|b|n|e|l|o]|]; run; try done.
  by destruct (dict_get (lower e) (groups s)).
Qed.

Lemma session_add_members rid resp exc :
  preserves session_of (add_members rid resp exc).
Proof.
  intros s. destruct exc as [e|]; [done|]. destruct resp as [p|]; [|done].
  unfold add_members. run.
  destruct (dict_get rid (groups s)) as [rec|]; run; [|done].
  unfold extend_members.
  destruct (rec !! "members") as [[|b|n|e|l|o]|] eqn:Hm; run; rewrite ?Hm;
    run; try done.
  - destruct (nextPageToken p); run; [|done].
    destruct (service s); run; [|done].
    by destruct (list_members _ _); run.
  - rewrite lookup_insert_eq. run.
    destruct (nextPageToken p); run; [|done].
    destruct (service s); run; [|done].
    by destruct (list_members _ _); run.
Qed.

Lemma preserves_group_batches {X} (f : GGBackup → X) :
  (∀ s b, f (set_group_batches b s) = f s) → preserves f group_batches.
Proof.
  intros Hf. unfold group_batches. apply preserves_get. intros s.
  rewrite bind_run.
  destruct (_group_batch s); cbn; rewrite bind_run; cbn.
  - by destruct (_group_batches s).
  - apply Hf.
Qed.

Lemma preserves_get_settings {X} (f : GGBackup → X) R :
  (∀ s b, f (set_group_batches b s) = f s) →
  (∀ rid resp exc, preserves f (add_settings rid resp exc)) →
  preserves f (get_settings R).
Proof.
  intros Hf Hcb. unfold get_settings.
  apply preserves_bind; [apply preserves_check_auth|]. intros _.
  apply preserves_bind; [by apply preserves_group_batches|]. intros bs.
  apply preserves_for. intros b. unfold settings_batch.
  by apply preserves_batch_body.
Qed.

Lemma preserves_get_members {X} (f : GGBackup → X) R fuel :
  (∀ s b, f (set_group_batches b s) = f s) →
  (∀ s g, f (set_next_batch g s) = f s) →
  (∀ rid resp exc, preserves f (add_members rid resp exc)) →
  preserves f (get_members R fuel).
Proof.
  intros Hf Hnb Hcb. unfold get_members.
  apply preserves_bind; [apply preserves_check_auth|]. intros _.
  apply preserves_bind; [apply preserves_modify; intros s; apply Hnb|].
  intros _.
  apply preserves_bind; [by apply preserves_group_batches|]. intros bs.
  apply preserves_bind.
  - apply preserves_for. intros b. unfold first_page_batch.
    by apply preserves_batch_body.
  - intros _. by apply preserves_run_next_batch.
Qed.

(** X9.  However they end, the three fetch operations leave the session as
    they found it: the domain, the transport, the credentials, both services
    and [_group_batch] (which therefore stays [None]) are never assigned. *)
Theorem fetch_keeps_session (R : Remote) (fuel : nat) (s : GGBackup) :
  session_of (obj (get_groups R fuel s)) = session_of s
  ∧ session_of (obj (get_settings R s)) = session_of s
  ∧ session_of (obj (get_members R fuel s)) = session_of s.
Proof.
  split_and!.
  - by destruct (obj_get_groups R fuel s) as (l & _ & ->).
  - by apply preserves_get_settings, session_add_settings.
  - by apply preserves_get_members, session_add_members.
Qed.

(** X10.  [get_settings] and [get_members] never add, drop or reorder a
    group: whatever the remote answers and however the run ends (also on an
    exception of a callback or in the middle of the pagination), the keys of
    the map are the ones the run started with. *)
Theorem enrichment_keeps_keys (R : Remote) (fuel : nat) (s : GGBackup) :
  keys (groups (obj (get_settings R s))) = keys (groups s)
  ∧ keys (groups (obj (get_members R fuel s))) = keys (groups s).
Proof.
  split.
  - by apply (preserves_get_settings group_keys), keys_add_settings.
  - by apply (preserves_get_members group_keys), keys_add_members.
Qed.

(** * [get_settings], seen from the object *)

Lemma set_groups_id s : set_groups (λ G, G) s = s.
Proof. by destruct s. Qed.

Lemma snd_imap_pair {A B} (g : nat → B) (l : list A) :
  (imap (λ i x, (g i, x)) l).*2 = l.
Proof.
  revert g. induction l as [|x l IH]; intros g; [done|].
  cbn. f_equal. apply (IH (g ∘ S)).
Qed.

Lemma snd_auto_ids {A} (l : list A) : (auto_ids l).*2 = l.
Proof. apply (snd_imap_pair (λ i, pretty (S i))). Qed.

Lemma settings_sends_visible ev :
  settings_sends (omap visible ev) = settings_sends ev.
Proof.
  unfold settings_sends. induction ev as [|e ev IH]; [done|].
  destruct e as [lv msg args|[d tok|g|rq]|f|f]; cbn; by rewrite ?IH.
Qed.

Lemma settings_sends_requests (l : list string) :
  settings_sends (Send ∘ SettingsGet <$> l) = l.
Proof.
  unfold settings_sends. induction l as [|g l IH]; [done|]. cbn.
  by rewrite IH.
Qed.

Lemma omap_visible_cons_log lv msg args ev :
  omap visible (Log lv msg args :: ev) = omap visible ev.
Proof. reflexivity. Qed.

Lemma omap_visible_sends {A} (f : A → request) (l : list A) :
  omap visible ((λ x, Send (f x)) <$> l) = (λ x, Send (f x)) <$> l.
Proof. induction l as [|x l IH]; [done|]. cbn. by rewrite IH. Qed.

Section SettingsFacts.
Variable R : Remote.
Implicit Types (s : GGBackup) (ks : list string) (G : dict record).

Lemma keys_settle G k : keys (settle R G k) = keys G.
Proof.
  unfold settle. destruct (dict_get k G) as [rec|] eqn:Hget; [|done].
  apply keys_dict_set_in. by eapply dict_get_Some_keys.
Qed.

Lemma keys_foldl_settle G ks : keys (foldl (settle R) G ks) = keys G.
Proof.
  revert G. induction ks as [|k ks IH]; intros G; [done|].
  cbn [foldl]. by rewrite IH, keys_settle.
Qed.

Lemma merge_settings_idemp k (rec : record) :
  merge_settings R k (merge_settings R k rec) = merge_settings R k rec.
Proof.
  unfold merge_settings. destruct (settings_get R k) as [e|resp]; [done|].
  by rewrite (assoc_L (∪)), (idemp_L (∪)).
Qed.

Lemma dict_get_settle G k k' :
  dict_get k (settle R G k')
  = if decide (k' = k) then merge_settings R k <$> dict_get k G
    else dict_get k G.
Proof.
  unfold settle. case_decide as Hk.
  - subst k'. destruct (dict_get k G) as [rec|] eqn:Hget; cbn.
    + by rewrite dict_get_set_eq.
    + done.
  - destruct (dict_get k' G) as [rec|]; [|done].
    by rewrite dict_get_set_ne.
Qed.

Lemma dict_get_foldl_settle G ks k :
  dict_get k (foldl (settle R) G ks)
  = if decide (k ∈ ks) then merge_settings R k <$> dict_get k G
    else dict_get k G.
Proof.
  revert G. induction ks as [|k' ks IH]; intros G.
  - cbn. by rewrite decide_False by apply not_elem_of_nil.
  - cbn [foldl]. rewrite IH, dict_get_settle.
    destruct (decide (k' = k)) as [->|Hne].
    + rewrite (decide_True (P := k ∈ k :: ks)) by apply list_elem_of_here.
      case_decide; [|done].
      destruct (dict_get k G) as [rec|]; [|done]. cbn.
      by rewrite merge_settings_idemp.
    + case_decide as Hin.
      * by rewrite decide_True by by apply list_elem_of_further.
      * rewrite decide_False; [done|].
        intros [?|?]%elem_of_cons; by subst.
Qed.

(** One answer, seen from the object. *)
Lemma answer_settle (r : string * string) s :
  settings_answer_ok R r.2 → r.2 ∈ keys (groups s) →
  ∃ ev, answer (settings_get R) add_settings r s
        = (Return tt, set_groups (λ G, settle R G r.2) s, ev)
        ∧ omap visible ev = [].
Proof.
  intros Hok Hin. destruct (dict_get_is_Some _ _ Hin) as [rec Hget].
  unfold settings_answer_ok in Hok.
  destruct (settings_get R r.2) as [e|resp] eqn:Hans.
  - rewrite (answer_inl _ _ _ e), add_settings_exception by done.
    exists [Log WARNING "Exception encountered while gathering settings: %s"
              [ArgExn e]].
    split; [|done]. f_equal. f_equal.
    rewrite <- (set_groups_id s) at 1. apply set_groups_ext.
    unfold settle, merge_settings. rewrite Hget, Hans.
    symmetry. by apply dict_set_id.
  - destruct Hok as (e & Hemail & Hkey).
    rewrite (answer_inr _ _ _ resp), (add_settings_success _ _ e) by done.
    rewrite Hkey, Hget.
    exists [Log DEBUG "Settings for group %s retrieved." [ArgJson (JStr e)]].
    split; [|done]. f_equal. f_equal.
    apply set_groups_ext. unfold settle, merge_settings.
    by rewrite Hget, Hans.
Qed.

Lemma deliver_settle (reqs : list (string * string)) s :
  Forall (settings_answer_ok R) reqs.*2 →
  Forall (λ k, k ∈ keys (groups s)) reqs.*2 →
  ∃ ev, deliver (settings_get R) add_settings reqs s
        = (Return tt, set_groups (λ G, foldl (settle R) G reqs.*2) s, ev)
        ∧ omap visible ev = [].
Proof.
  revert s. induction reqs as [|r reqs IH]; intros s Hok Hin.
  - exists []. split; [|done]. cbn. by rewrite set_groups_id.
  - cbn [fmap list_fmap] in Hok, Hin.
    apply Forall_cons in Hok as [Hr Hok]. apply Forall_cons in Hin as [Hk Hin].
    destruct (answer_settle r s Hr Hk) as (ev1 & Hans & Hev1).
    destruct (IH (set_groups (λ G, settle R G r.2) s)) as (ev2 & Hrest & Hev2).
    { done. }
    { by rewrite set_groups_groups, keys_settle. }
    exists (ev1 ++ ev2). split.
    + unfold deliver in *. cbn [for_]. rewrite bind_run, Hans, Hrest.
      reflexivity.
    + by rewrite omap_app, Hev1, Hev2.
Qed.

Lemma settings_batch_settle (b : list string) s :
  Forall (settings_answer_ok R) b →
  Forall (λ k, k ∈ keys (groups s)) b →
  ∃ ev, settings_batch R b s
        = (Return tt, set_groups (λ G, foldl (settle R) G b) s, ev)
        ∧ omap visible ev = Send ∘ SettingsGet <$> b.
Proof.
  intros Hok Hin.
  destruct (deliver_settle (auto_ids b) s) as (ev & Hdel & Hev);
    [by rewrite snd_auto_ids..|].
  rewrite snd_auto_ids in Hdel.
  eexists. split.
  - unfold settings_batch, execute.
    rewrite bind_run, for_emit_run. cbn.
    rewrite bind_run. cbn. rewrite bind_run, for_emit_run, Hdel.
    reflexivity.
  - rewrite omap_app, omap_visible_log, app_nil_l by done.
    rewrite omap_visible_cons_log, omap_app, Hev, app_nil_r.
    rewrite omap_visible_sends.
    rewrite <- (snd_auto_ids b) at 2. by rewrite <- list_fmap_compose.
Qed.

Lemma for_settings_batches (bs : list (list string)) s :
  Forall (settings_answer_ok R) (concat bs) →
  Forall (λ k, k ∈ keys (groups s)) (concat bs) →
  ∃ ev, for_ bs (settings_batch R) s
        = (Return tt, set_groups (λ G, foldl (settle R) G (concat bs)) s, ev)
        ∧ omap visible ev = Send ∘ SettingsGet <$> concat bs.
Proof.
  revert s. induction bs as [|b bs IH]; intros s Hok Hin.
  - exists []. split; [|done]. cbn. by rewrite set_groups_id.
  - cbn [concat] in *.
    apply Forall_app in Hok as [Hb Hok]. apply Forall_app in Hin as [Hkb Hin].
    destruct (settings_batch_settle b s Hb Hkb) as (ev1 & Hrun1 & Hev1).
    destruct (IH (set_groups (λ G, foldl (settle R) G b) s))
      as (ev2 & Hrun2 & Hev2).
    { done. }
    { by rewrite set_groups_groups, keys_foldl_settle. }
    exists (ev1 ++ ev2). split.
    + cbn [for_]. rewrite bind_run, Hrun1, Hrun2.
      unfold set_groups. cbn. by rewrite foldl_app.
    + by rewrite omap_app, Hev1, Hev2, fmap_app.
Qed.

(** The refinement of [get_settings]. *)
Lemma get_settings_run s :
  settings_ready s →
  Forall (settings_answer_ok R) (keys (groups s)) →
  ∃ ev, get_settings R s
        = (Return tt,
           set_groups (λ G, foldl (settle R) G (keys (groups s)))
             (set_group_batches (batch (keys (groups s))) s),
           ev)
        ∧ omap visible ev = Send ∘ SettingsGet <$> keys (groups s).
Proof.
  intros [Hauth Hcache] Hok.
  destruct (for_settings_batches (batch (keys (groups s)))
              (set_group_batches (batch (keys (groups s))) s))
    as (ev & Hrun & Hev).
  { by rewrite batch_concat. }
  { rewrite batch_concat. by apply Forall_forall. }
  rewrite batch_concat in Hrun, Hev.
  exists ev. split; [|done].
  unfold get_settings. rewrite bind_run, check_auth_obj, Hauth.
  rewrite bind_run, group_batches_recomputes by done.
  by rewrite Hrun.
Qed.

Lemma get_settings_settles s :
  settings_ready s →
  Forall (settings_answer_ok R) (keys (groups s)) →
  let x := get_settings R s in
  res x = Return tt
  ∧ settings_sends (trace x) = keys (groups s)
  ∧ keys (groups (obj x)) = keys (groups s)
  ∧ (∀ k, dict_get k (groups (obj x))
          = merge_settings R k <$> dict_get k (groups s)).
Proof.
  intros Hready Hok x. subst x.
  destruct (get_settings_run s Hready Hok) as (ev & -> & Hev).
  unfold res, obj, trace. cbn [fst snd set_groups groups].
  split_and!.
  - done.
  - by rewrite <- settings_sends_visible, Hev, settings_sends_requests.
  - apply keys_foldl_settle.
  - intros k. rewrite dict_get_foldl_settle. case_decide as Hin; [done|].
    cbn [groups set_group_batches]. by rewrite (dict_get_None k (groups s)).
Qed.

Lemma settings_ready_after s :
  settings_ready s → settings_ready (obj (get_settings R s)).
Proof.
  intros [Hauth Hcache].
  pose proof (preserves_get_settings session_of R
                (λ _ _, eq_refl) session_add_settings s) as Hsession.
  unfold session_of in Hsession.
  injection Hsession as _ Hhttp _ Hservice Hgset Hbatch.
  split; [|congruence].
  rewrite check_auth_run in *. rewrite Hhttp, Hservice, Hgset.
  by destruct (http_auth s), (service s), (gsetservice s).
Qed.
End SettingsFacts.

(** X11.  With a session, and when the settings service answers every key
    with an exception or with settings whose e-mail is that key up to case,
    [get_settings] returns after exactly one request per group, in the order
    of the keys.  Every record then holds the fields of its answer over the
    fields it had, a record whose request failed is as it was, and the keys
    are unchanged. *)
Theorem get_settings_complete (R : Remote) (s : GGBackup) :
  settings_ready s →
  Forall (settings_answer_ok R) (keys (groups s)) →
  let x := get_settings R s in
  res x = Return tt
  ∧ settings_sends (trace x) = keys (groups s)
  ∧ keys (groups (obj x)) = keys (groups s)
  ∧ (∀ k rec, dict_get k (groups s) = Some rec →
       dict_get k (groups (obj x))
       = Some match settings_get R k with
              | inr resp => resp ∪ rec
              | inl _ => rec
              end).
Proof.
  intros Hready Hok x.
  destruct (get_settings_settles R s Hready Hok) as (Hres & Hsends & Hkeys & Hget).
  split_and!; try done.
  intros k rec Hrec. subst x. by rewrite Hget, Hrec.
Qed.

Lemma five_listed_ready : settings_ready five_listed.
Proof. split; vm_compute; reflexivity. Qed.

Lemma five_answers_ok :
  Forall (settings_answer_ok five_remote) (keys (groups five_listed)).
Proof.
  apply Forall_forall. intros k Hk. unfold settings_answer_ok. cbn.
  case_decide; [done|]. exists k. split; [done|].
  vm_compute in Hk.
  repeat (apply elem_of_cons in Hk as [->|Hk]; [reflexivity|]).
  by apply elem_of_nil in Hk.
Qed.

Lemma get_settings_complete_witness :
  res (get_settings five_remote five_listed) = Return tt
  ∧ settings_sends (trace (get_settings five_remote five_listed))
    = ["a@x.com"; "b@x.com"; "c@x.com"; "d@x.com"; "e@x.com"].
Proof.
  destruct (get_settings_complete five_remote five_listed)
    as (Hres & Hsends & _).
  - exact five_listed_ready.
  - exact five_answers_ok.
  - split; [exact Hres|]. rewrite Hsends. vm_compute. reflexivity.
Defined.

(** X12.  Under the same conditions [get_settings] is idempotent on the
    map: a second run returns as well and leaves every record as the first
    run left it. *)
Theorem get_settings_idempotent (R : Remote) (s : GGBackup) :
  settings_ready s →
  Forall (settings_answer_ok R) (keys (groups s)) →
  let once := obj (get_settings R s) in
  let twice := get_settings R once in
  res twice = Return tt
  ∧ keys (groups (obj twice)) = keys (groups once)
  ∧ (∀ k, dict_get k (groups (obj twice)) = dict_get k (groups once)).
Proof.
  intros Hready Hok once twice.
  destruct (get_settings_settles R s Hready Hok) as (_ & _ & Hkeys & Hget).
  fold once in Hkeys, Hget.
  destruct (get_settings_settles R once) as (Hres2 & _ & Hkeys2 & Hget2).
  { by apply settings_ready_after. }
  { by rewrite Hkeys. }
  fold twice in Hres2, Hkeys2, Hget2.
  split_and!; try done.
  intros k. rewrite Hget2, Hget.
  destruct (dict_get k (groups s)) as [rec|]; [|done]. cbn.
  by rewrite merge_settings_idemp.
Qed.

Lemma get_settings_idempotent_witness :
  dict_get "a@x.com"
    (groups (obj (get_settings five_remote
                    (obj (get_settings five_remote five_listed)))))
  = dict_get "a@x.com" (groups (obj (get_settings five_remote five_listed))).
Proof.
  apply (get_settings_idempotent five_remote five_listed).
  - exact five_listed_ready.
  - exact five_answers_ok.
Defined.

(** * The merge of the settings *)

(** C5.  When [get_settings] runs with a session and the settings service
    answers every key with an exception or with settings whose e-mail is
    that key up to case, a successful answer for a key of [self.groups] is
    merged into the record stored under the lower-cased e-mail, which is
    that key: the record gets every field of the answer and keeps its other
    fields.  No key is added (none for the e-mail as it is written), and no
    other record depends on the answer: with a service that differs at this
    key only, the other records come out the same.  At whatever moment of a
    run the answer is delivered, the callback merges it into the record
    under that key and leaves every other record as it is. *)
Theorem get_settings_merge (R : Remote) (s : GGBackup) (k e : string)
    (resp rec : record) :
  settings_ready s →
  Forall (settings_answer_ok R) (keys (groups s)) →
  dict_get k (groups s) = Some rec →
  settings_get R k = inr resp →
  resp !! "email" = Some (JStr e) →
  let x := get_settings R s in
  res x = Return tt
  ∧ lower e = k
  ∧ (∃ rec', dict_get k (groups (obj x)) = Some rec'
       ∧ ∀ f, rec' !! f = match resp !! f with
                          | Some v => Some v
                          | None => rec !! f
                          end)
  ∧ keys (groups (obj x)) = keys (groups s)
  ∧ (∀ R', Forall (settings_answer_ok R') (keys (groups s)) →
       (∀ k', k' ≠ k → settings_get R' k' = settings_get R k') →
       ∀ k', k' ≠ k →
         dict_get k' (groups (obj (get_settings R' s)))
         = dict_get k' (groups (obj x)))
  ∧ (∀ rid s' rec0, dict_get k (groups s') = Some rec0 →
       let out := add_settings rid (Some resp) None s' in
       res out = Return tt
       ∧ dict_get k (groups (obj out)) = Some (resp ∪ rec0)
       ∧ keys (groups (obj out)) = keys (groups s')
       ∧ ∀ k', k' ≠ k →
           dict_get k' (groups (obj out)) = dict_get k' (groups s')).
Proof.
  intros Hready Hok Hrec Hresp Hemail x.
  destruct (get_settings_settles R s Hready Hok)
    as (Hres & _ & Hkeys & Hget).
  fold x in Hres, Hkeys, Hget.
  assert (lower e = k) as Hlower.
  { rewrite Forall_forall in Hok.
    specialize (Hok k ltac:(by eapply dict_get_Some_keys)).
    unfold settings_answer_ok in Hok. rewrite Hresp in Hok.
    destruct Hok as (e' & He' & Hk). congruence. }
  split_and!; [done|done| |done| |].
  - eexists. split.
    + rewrite Hget, Hrec. unfold merge_settings. by rewrite Hresp.
    + intros f. rewrite lookup_union.
      by destruct (resp !! f), (rec !! f).
  - intros R' Hok' Hsame k' Hk'.
    destruct (get_settings_settles R' s Hready Hok') as (_ & _ & _ & Hget').
    rewrite Hget', Hget. unfold merge_settings. by rewrite Hsame.
  - intros rid s' rec0 Hrec0 out. subst out.
    destruct (add_settings_merge_step rid resp rec0 e s' Hemail)
      as (Hout & Hobj & Hkeys' & _ & Hothers).
    { by rewrite Hlower. }
    rewrite Hlower in *. split_and!; [done| |done|done].
    rewrite Hobj, set_groups_groups. apply dict_get_set_eq.
Qed.

Lemma shouting_answers_ok :
  Forall (settings_answer_ok shouting_remote) (keys (groups sample_listed)).
Proof.
  apply Forall_forall. intros k _. unfold settings_answer_ok. cbn.
  case_decide as Hk; [|done]. exists "A@x.com". by rewrite Hk.
Qed.

(** The answer that names ["A@x.com"] lands in the record kept under
    ["a@x.com"], and no record is kept under ["A@x.com"]. *)
Lemma get_settings_merge_witness :
  let x := get_settings shouting_remote sample_listed in
  (∃ rec', dict_get "a@x.com" (groups (obj x)) = Some rec'
           ∧ rec' !! "whoCanJoin" = Some (JStr "ANYONE"))
  ∧ dict_get "A@x.com" (groups (obj x)) = None.
Proof.
  destruct (get_settings_merge shouting_remote sample_listed
    "a@x.com" "A@x.com"
    ({["email" := JStr "A@x.com"; "whoCanJoin" := JStr "ANYONE"]} : record)
    ({["email" := JStr "A@x.com"]} : record))
    as (_ & _ & (rec' & Hget & Hfields) & Hkeys & _ & _).
  - split; vm_compute; reflexivity.
  - exact shouting_answers_ok.
  - vm_compute. reflexivity.
  - reflexivity.
  - reflexivity.
  - cbv zeta. split.
    + exists rec'. split; [exact Hget|]. rewrite Hfields.
      vm_compute. reflexivity.
    + apply dict_get_None. rewrite Hkeys. vm_compute.
      intros Hin. repeat (apply elem_of_cons in Hin as [Heq|Hin];
                          [discriminate Heq|]).
      by apply elem_of_nil in Hin.
Defined.

(** * Listings of a single page *)

Section SinglePages.
Variable R : Remote.
Implicit Types (s : GGBackup).

Lemma records_ok_run_state fuel s :
  records_ok (groups s) → records_ok (groups (run_state R fuel s)).
Proof.
  revert s. induction fuel as [|fuel IH]; intros s Hok; [done|].
  cbn [run_state]. destruct (_next_batch s) as [|r W] eqn:HW; [done|].
  by apply IH, records_ok_round.
Qed.

Lemma members_ready_after fuel s :
  members_ready s →
  takes_nextPage s = true ∨ Forall (single_page R) (keys (groups s)) →
  members_ready (obj (get_members R fuel s)).
Proof.
  intros Hready Hgo. pose proof Hready as (Hauth & Hcache & Hnd & Hlow & Hok).
  pose proof (preserves_get_members session_of R fuel
                (λ _ _, eq_refl) (λ _ _, eq_refl) session_add_members s)
    as Hsession.
  pose proof (preserves_get_members group_keys R fuel
                (λ _ _, eq_refl) (λ _ _, eq_refl) keys_add_members s)
    as Hkeys.
  unfold group_keys in Hkeys. unfold session_of in Hsession.
  injection Hsession as _ Hhttp _ Hservice Hgset Hbatch.
  split_and!.
  - rewrite check_auth_run in *. rewrite Hhttp, Hservice, Hgset.
    by destruct (http_auth s), (service s), (gsetservice s).
  - congruence.
  - by rewrite Hkeys.
  - by rewrite Hkeys.
  - destruct (get_members_run R fuel s Hready Hgo) as (ev & -> & _).
    cbn [obj fst snd]. apply records_ok_run_state.
    unfold first_pass. by apply records_ok_after.
Qed.

(** When no listing goes on, [get_members] is its first pass and one
    activation of [run_next_batch], which finds the queue empty. *)
Lemma single_pages_run limit s :
  members_ready s →
  Forall (single_page R) (keys (groups s)) →
  _next_batch (first_pass R s) = []
  ∧ ∃ ev, get_members R (S limit) s = (Return tt, first_pass R s, ev)
          ∧ omap visible ev
            = (Send ∘ MembersList <$> (first_page <$> keys (groups s)).*2)
                ++ [Enter "run_next_batch"; Leave "run_next_batch"].
Proof.
  intros Hready Hsingle.
  assert (_next_batch (first_pass R s) = []) as Hqueue.
  { rewrite next_batch_first_pass. by apply single_pages_queue. }
  split; [done|].
  destruct (get_members_run R (S limit) s Hready (or_intror Hsingle))
    as (ev & Hrun & Hev).
  rewrite Hqueue in Hrun, Hev. cbn [finishes run_state visible_run] in Hrun, Hev.
  rewrite Hqueue in Hrun. by exists ev.
Qed.

(** The record of a group after the first pass. *)
Lemma first_pass_record s g rec :
  members_ready s →
  dict_get g (groups s) = Some rec →
  dict_get g (groups (first_pass R s))
  = Some match members_list R g None with
         | inl _ => rec
         | inr p => merge_page p rec
         end.
Proof.
  intros (Hauth & Hcache & Hnd & Hlow & Hok) Hrec.
  unfold first_pass. rewrite groups_after, dict_get_foldl_merge.
  rewrite first_pages_for_group by (done || by eapply dict_get_Some_keys).
  change (groups (first_pass_start s)) with (groups s). rewrite Hrec.
  cbn [foldl]. unfold merge_record, fetch_members, page_request. cbn.
  by destruct (members_list R g None).
Qed.
End SinglePages.

(** X13.  When the listing of every group is over with its first request
    (an exception, or a page without token), [get_members] returns after
    exactly one request per group, in the order of the keys: a failed
    request is not repeated, and [run_next_batch] is entered once, to find
    the queue empty.  A record whose request failed is untouched (no
    ["members"] is created); the others hold what they held followed by the
    members of their page. *)
Theorem get_members_single_pages (R : Remote) (limit : nat) (s : GGBackup) :
  members_ready s →
  Forall (single_page R) (keys (groups s)) →
  let x := get_members R (S limit) s in
  res x = Return tt
  ∧ member_sends (trace x) = (first_page <$> keys (groups s)).*2
  ∧ _next_batch (obj x) = []
  ∧ stack_depth (trace x) = 1
  ∧ (∀ g rec, dict_get g (groups s) = Some rec →
       dict_get g (groups (obj x))
       = Some match members_list R g None with
              | inl _ => rec
              | inr p => <["members" := JList (record_members rec
                                                 ++ page_members p)]> rec
              end).
Proof.
  intros Hready Hsingle x. subst x.
  destruct (single_pages_run R limit s Hready Hsingle)
    as (Hqueue & ev & -> & Hev).
  unfold res, obj, trace. cbn [fst snd]. split_and!.
  - done.
  - rewrite <- member_sends_visible, Hev, member_sends_app.
    rewrite member_sends_requests. cbn. by rewrite app_nil_r.
  - done.
  - unfold stack_depth. rewrite <- depth_visible, Hev, foldl_app.
    by rewrite depth_requests.
  - intros g rec Hrec. by apply first_pass_record.
Qed.

Lemma five_listed_members_ready : members_ready five_listed.
Proof.
  split_and!; try (vm_compute; reflexivity).
  - apply (bool_decide_unpack _). vm_compute. reflexivity.
  - apply (bool_decide_unpack _). vm_compute. reflexivity.
  - apply (bool_decide_unpack _). vm_compute. reflexivity.
Qed.

Lemma five_single_pages :
  Forall (single_page five_remote) (keys (groups five_listed)).
Proof.
  apply Forall_forall. intros k _. unfold single_page. cbn.
  by case_decide.
Qed.

(** The request for ["c@x.com"] fails: its record is as the listing left
    it, and the record of ["a@x.com"] holds the member of its page. *)
Lemma get_members_single_pages_witness :
  let x := get_members five_remote 1 five_listed in
  res x = Return tt
  ∧ dict_get "c@x.com" (groups (obj x))
    = Some ({["email" := JStr "c@x.com"]} : record)
  ∧ dict_get "a@x.com" (groups (obj x))
    = Some (<["members" := JList [JStr "a@x.com"]]>
              ({["email" := JStr "a@x.com"]} : record)).
Proof.
  destruct (get_members_single_pages five_remote 0 five_listed)
    as (Hres & _ & _ & _ & Hget).
  - exact five_listed_members_ready.
  - exact five_single_pages.
  - cbv zeta. split_and!.
    + exact Hres.
    + rewrite (Hget "c@x.com" ({["email" := JStr "c@x.com"]} : record));
        [reflexivity|vm_compute; reflexivity].
    + rewrite (Hget "a@x.com" ({["email" := JStr "a@x.com"]} : record));
        [reflexivity|vm_compute; reflexivity].
Defined.

(** * Running [get_members] again *)

(** X14.  [get_members] is not idempotent: the members are appended to what
    the record holds.  When the listing of every group is over with its
    first request, a second run against the same remote leaves the members
    of the page twice in the record of the group. *)
Theorem get_members_twice_duplicates (R : Remote) (limit : nat) (s : GGBackup)
    (g : string) (rec : record) (p : members_page) :
  members_ready s →
  Forall (single_page R) (keys (groups s)) →
  dict_get g (groups s) = Some rec →
  members_list R g None = inr p →
  let once := obj (get_members R (S limit) s) in
  let twice := obj (get_members R (S limit) once) in
  dict_get g (groups once)
  = Some (<["members" := JList (record_members rec ++ page_members p)]> rec)
  ∧ dict_get g (groups twice)
    = Some (<["members" := JList (record_members rec ++ page_members p
                                    ++ page_members p)]> rec).
Proof.
  intros Hready Hsingle Hrec Hp once twice.
  assert (members_ready once) as Hready2
    by (apply members_ready_after; [done|by right]).
  assert (keys (groups once) = keys (groups s)) as Hkeys.
  { apply (preserves_get_members group_keys R (S limit)
             (λ _ _, eq_refl) (λ _ _, eq_refl) keys_add_members s). }
  assert (dict_get g (groups once) = Some (merge_page p rec)) as Hget.
  { subst once.
    destruct (single_pages_run R limit s Hready Hsingle)
      as (_ & ev & -> & _).
    cbn [obj fst snd]. rewrite (first_pass_record R s g rec) by done.
    by rewrite Hp. }
  split; [exact Hget|]. subst twice.
  destruct (single_pages_run R limit once Hready2) as (_ & ev & -> & _).
  { by rewrite Hkeys. }
  cbn [obj fst snd].
  rewrite (first_pass_record R once g (merge_page p rec)) by done.
  rewrite Hp. unfold merge_page.
  by rewrite record_members_insert, insert_insert_eq, app_assoc.
Qed.

Lemma get_members_twice_duplicates_witness :
  let once := obj (get_members five_remote 1 five_listed) in
  let twice := obj (get_members five_remote 1 once) in
  record_members <$> dict_get "a@x.com" (groups twice)
  = Some [JStr "a@x.com"; JStr "a@x.com"].
Proof.
  destruct (get_members_twice_duplicates five_remote 0 five_listed
              "a@x.com" ({["email" := JStr "a@x.com"]} : record)
              {| members := Some [JStr "a@x.com"]; nextPageToken := None |})
    as [_ Htwice].
  - exact five_listed_members_ready.
  - exact five_single_pages.
  - vm_compute. reflexivity.
  - reflexivity.
  - cbv zeta. rewrite Htwice. cbn [fmap option_fmap option_map].
    by rewrite record_members_insert.
Defined.

(** * A record that cannot take members *)

Lemma batch_cons_first {A} (x : A) (l : list A) :
  ∃ rest, batch (x :: l) = take 1000 (x :: l) :: rest.
Proof.
  rewrite batch_chunks.
  assert (∃ n, (length (x :: l) + 999) / 1000 = S n) as [n ->].
  { destruct ((length (x :: l) + 999) / 1000) as [|n] eqn:Hn; [|by eexists].
    apply Nat.div_small_iff in Hn; [|done]. cbn in Hn. lia. }
  eexists. cbn [seq fmap list_fmap]. f_equal.
Qed.

Lemma member_sends_notes {A} (f : A → event) (l : list A) :
  (∀ x, visible (f x) = None) → member_sends (f <$> l) = [].
Proof.
  intros Hf. by rewrite <- member_sends_visible, omap_visible_log.
Qed.

Lemma member_sends_batch (reqs : list (string * members_request)) :
  member_sends (Send ∘ MembersList ∘ snd <$> reqs) = reqs.*2.
Proof.
  unfold member_sends. induction reqs as [|r reqs IH]; [done|]. cbn.
  by rewrite IH.
Qed.

Lemma depth_notes {A} (f : A → event) (l : list A) d :
  (∀ x, visible (f x) = None) → foldl depth_step d (f <$> l) = d.
Proof.
  intros Hf. by rewrite <- depth_visible, omap_visible_log.
Qed.

Lemma depth_batch (reqs : list (string * members_request)) d :
  foldl depth_step d (Send ∘ MembersList ∘ snd <$> reqs) = d.
Proof. induction reqs as [|r reqs IH]; [done|]. cbn. exact IH. Qed.

Lemma first_page_batch_run R (b : list string) s :
  first_page_batch R b s
  = let d := deliver (fetch_members R) add_members (first_page <$> b) s in
    (res d, obj d,
     ((λ group, Log DEBUG "Added group %s to batch." [ArgStr group]) <$> b)
       ++ Log DEBUG "Executing batch." []
       :: (Send ∘ MembersList ∘ snd <$> (first_page <$> b)) ++ trace d).
Proof.
  unfold first_page_batch, execute.
  rewrite bind_run, for_emit_run. cbn.
  rewrite bind_run. cbn. rewrite bind_run, for_emit_run.
  by destruct (deliver _ _ _ s) as [[??]?].
Qed.

Lemma add_members_bad_record rid p rec v s :
  dict_get rid (groups s) = Some rec →
  rec !! "members" = Some v →
  (∀ l, v ≠ JList l) →
  add_members rid (Some p) None s
  = (Raise (TypeError "unsupported operand type(s) for +="), s,
     [Log DEBUG "Group %s members retrieved: %s"
        [ArgStr rid; ArgNat (length (page_members p))]]).
Proof.
  intros Hget Hm Hv. unfold add_members. run. rewrite Hget. run.
  rewrite Hm. run. unfold extend_members. rewrite Hm.
  destruct v as [|b|n|e|l|o]; try done. by destruct (Hv l).
Qed.

(** X15.  An exception raised by the callback is fatal to [get_members].
    When the record under the first key holds a ["members"] that is not a
    list and the first request for that key succeeds, [get_members] raises
    [TypeError] from the first batch: only the requests of that batch have
    been sent, no record has changed, nothing is queued and the continuation
    is never entered. *)
Theorem get_members_aborts (R : Remote) (fuel : nat) (s : GGBackup)
    (k : string) (ks : list string) (rec : record) (v : json)
    (p : members_page) :
  settings_ready s →
  keys (groups s) = k :: ks →
  lower k = k →
  dict_get k (groups s) = Some rec →
  rec !! "members" = Some v →
  (∀ l, v ≠ JList l) →
  members_list R k None = inr p →
  let x := get_members R fuel s in
  res x = Raise (TypeError "unsupported operand type(s) for +=")
  ∧ groups (obj x) = groups s
  ∧ _next_batch (obj x) = []
  ∧ member_sends (trace x) = (first_page <$> take 1000 (k :: ks)).*2
  ∧ stack_depth (trace x) = 0.
Proof.
  intros [Hauth Hcache] Hkeys Hlow Hget Hm Hv Hp x. subst x.
  unfold get_members. rewrite bind_run, check_auth_obj, Hauth.
  rewrite bind_run. cbn [modify]. rewrite bind_run.
  rewrite group_batches_recomputes by done.
  cbn [groups set_next_batch]. fold (first_pass_start s).
  rewrite Hkeys. destruct (batch_cons_first k ks) as [rest ->].
  rewrite bind_run. cbn [for_]. rewrite bind_run.
  assert (∃ ev,
    first_page_batch R (take 1000 (k :: ks)) (first_pass_start s)
    = (Raise (TypeError "unsupported operand type(s) for +="),
       first_pass_start s, ev)
    ∧ member_sends ev = (first_page <$> take 1000 (k :: ks)).*2
    ∧ stack_depth ev = 0) as (ev & -> & Hsends & Hdepth).
  { rewrite first_page_batch_run.
    change (take 1000 (k :: ks)) with (k :: take 999 ks).
    rewrite fmap_cons.
    change (first_page k :: (first_page <$> take 999 ks))
      with ([] ++ first_page k :: (first_page <$> take 999 ks)) at 1 2.
    cbv zeta.
    rewrite (deliver_raise (fetch_members R) add_members [] (first_page k)
               (first_page <$> take 999 ks) (first_pass_start s)
               (TypeError "unsupported operand type(s) for +=")
               (first_pass_start s)
               [Log DEBUG "Group %s members retrieved: %s"
                  [ArgStr k; ArgNat (length (page_members p))]]).
    - eexists. split; [reflexivity|]. cbn [trace snd].
      change (Log DEBUG "Executing batch." [] :: ?l)
        with ([Log DEBUG "Executing batch." []] ++ l).
      split.
      + rewrite !member_sends_app, member_sends_notes by done.
        rewrite member_sends_batch. cbn. by rewrite app_nil_r.
      + unfold stack_depth.
        rewrite !foldl_app.
        rewrite (depth_notes (λ group : string,
                   Log DEBUG "Added group %s to batch." [ArgStr group]))
          by done.
        cbn [foldl depth_step]. by rewrite depth_batch.
    - done.
    - cbn [obj deliver for_ fst snd].
      rewrite (answer_inr _ _ _ p).
      + unfold first_page. cbn [fst]. rewrite Hlow.
        by apply (add_members_bad_record k p rec v).
      + unfold first_page, fetch_members. cbn. exact Hp. }
  unfold res, obj, trace. cbn [fst snd]. split_and!; try done.
Qed.

Lemma get_members_aborts_witness :
  res (get_members odd_remote 3 odd_listed)
  = Raise (TypeError "unsupported operand type(s) for +=")
  ∧ groups (obj (get_members odd_remote 3 odd_listed)) = groups odd_listed.
Proof.
  destruct (get_members_aborts odd_remote 3 odd_listed "g@x.com" ["h@x.com"]
              ({["email" := JStr "g@x.com"; "members" := JStr "none"]} : record)
              (JStr "none")
              {| members := Some [JStr "m1"]; nextPageToken := Some "t1" |})
    as (Hres & Hgroups & _).
  - split; vm_compute; reflexivity.
  - vm_compute. reflexivity.
  - reflexivity.
  - vm_compute. reflexivity.
  - vm_compute. reflexivity.
  - intros l. discriminate.
  - reflexivity.
  - split; [exact Hres|exact Hgroups].
Defined.

(** * The request for the following page *)

Lemma check_auth_service s : res (check_auth s) = Return tt → is_Some (service s).
Proof.
  rewrite check_auth_run.
  by destruct (http_auth s), (service s) as [svc|], (gsetservice s); eauto.
Qed.

Lemma batch_first {A} (l : list A) :
  l ≠ [] → ∃ rest, batch l = take 1000 l :: rest.
Proof. destruct l as [|x l]; [done|]. intros _. apply batch_cons_first. Qed.

Section Refused.
Variable R : Remote.
Implicit Types (s : GGBackup) (pre post : list string).

Lemma service_after reqs s : service (after R reqs s) = service s.
Proof.
  revert s. induction reqs as [|r reqs IH]; intros s; [done|].
  by rewrite after_cons, IH.
Qed.

(** With the client of the Directory API, the first answer that carries a
    token ends [get_members]: its page has been merged, as the pages of the
    groups before it, and the callback raises on the request for the
    following page. *)
Lemma get_members_refused limit s pre g post rec p tok :
  members_ready s →
  takes_nextPage s = false →
  keys (groups s) = pre ++ g :: post →
  length pre < 1000 →
  Forall (single_page R) pre →
  dict_get g (groups s) = Some rec →
  members_list R g None = inr p →
  nextPageToken p = Some tok →
  take 1000 (keys (groups s)) = pre ++ g :: take (999 - length pre) post
  ∧ ∃ ev,
      get_members R limit s
      = (Raise (TypeError "Got an unexpected keyword argument nextPage"),
         set_groups (dict_set g (merge_page p rec))
           (after R (first_page <$> pre) (first_pass_start s)),
         ev)
      ∧ omap visible ev
        = Send ∘ MembersList
            <$> (first_page <$> take 1000 (keys (groups s))).*2.
Proof.
  intros (Hauth & Hcache & Hnd & Hlow & Hok) Hno Hkeys Hlen Hsingle Hrec Hp Htok.
  assert (Forall (λ k, lower k = k) pre ∧ lower g = g) as [Hlow_pre Hlow_g].
  { rewrite Hkeys in Hlow. apply Forall_app in Hlow as [? Hrest].
    by apply Forall_cons in Hrest as [? _]. }
  assert (g ∉ pre) as Hg_pre.
  { rewrite Hkeys in Hnd. apply NoDup_app in Hnd as (_ & Hdisj & _).
    intros Hin. apply (Hdisj g Hin), list_elem_of_here. }
  assert (take 1000 (keys (groups s))
          = pre ++ g :: take (999 - length pre) post) as Htake.
  { rewrite Hkeys, take_app_ge by lia.
    by replace (1000 - length pre) with (S (999 - length pre)) by lia. }
  split; [done|].
  destruct (deliver_after R (first_page <$> pre) (first_pass_start s))
    as (ev1 & Hdel & Hev1).
  { done. }
  { unfold known. apply Forall_fmap, Forall_forall. intros k Hk.
    change (lower k ∈ keys (groups s)).
    rewrite Forall_forall in Hlow_pre. rewrite Hlow_pre by done.
    rewrite Hkeys. apply elem_of_app. by left. }
  { by apply single_pages_proceed. }
  assert (answer (fetch_members R) add_members (first_page g)
            (after R (first_page <$> pre) (first_pass_start s))
          = (Raise (TypeError "Got an unexpected keyword argument nextPage"),
             set_groups (dict_set g (merge_page p rec))
               (after R (first_page <$> pre) (first_pass_start s)),
             [Log DEBUG "Group %s members retrieved: %s"
                [ArgStr g; ArgNat (length (page_members p))]])) as Hans.
  { rewrite (answer_inr _ _ _ p) by exact Hp.
    change ((first_page g).1) with (lower g). rewrite Hlow_g.
    apply (add_members_refused g p rec tok).
    - rewrite groups_after, dict_get_foldl_merge.
      rewrite first_pages_other; [exact Hrec|exact Hlow_pre|exact Hg_pre].
    - by eapply records_ok_get.
    - rewrite service_after. by apply (check_auth_service s).
    - by rewrite takes_nextPage_after.
    - done. }
  unfold get_members. rewrite bind_run, check_auth_obj, Hauth.
  rewrite bind_run. cbn [modify]. rewrite bind_run.
  rewrite group_batches_recomputes by done.
  cbn [groups set_next_batch]. fold (first_pass_start s).
  destruct (batch_first (keys (groups s))) as [rest ->].
  { rewrite Hkeys. by destruct pre. }
  rewrite bind_run. cbn [for_]. rewrite bind_run.
  rewrite first_page_batch_run. cbv zeta.
  rewrite Htake, fmap_app, fmap_cons.
  rewrite (deliver_raise (fetch_members R) add_members (first_page <$> pre)
             (first_page g) (first_page <$> take (999 - length pre) post)
             (first_pass_start s)
             (TypeError "Got an unexpected keyword argument nextPage")
             (set_groups (dict_set g (merge_page p rec))
                (after R (first_page <$> pre) (first_pass_start s)))
             [Log DEBUG "Group %s members retrieved: %s"
                [ArgStr g; ArgNat (length (page_members p))]]).
  2: by rewrite Hdel.
  2: { rewrite Hdel. exact Hans. }
  rewrite Hdel. cbn [res obj trace fst snd].
  eexists. split; [reflexivity|].
  cbn [app]. rewrite omap_app, omap_visible_log by done.
  cbn [app]. rewrite omap_visible_cons_log, !omap_app, Hev1.
  rewrite omap_visible_cons_log.
  change (omap visible []) with (@nil event). rewrite !app_nil_r.
  rewrite <- list_fmap_compose. apply omap_visible_sends.
Qed.

(** What the run leaves, and what it has sent. *)
Lemma get_members_refused_run limit s pre g post rec p tok :
  members_ready s →
  takes_nextPage s = false →
  keys (groups s) = pre ++ g :: post →
  length pre < 1000 →
  Forall (single_page R) pre →
  dict_get g (groups s) = Some rec →
  members_list R g None = inr p →
  nextPageToken p = Some tok →
  let x := get_members R limit s in
  res x = Raise (TypeError "Got an unexpected keyword argument nextPage")
  ∧ dict_get g (groups (obj x)) = Some (merge_page p rec)
  ∧ (∀ k, k ∈ post → dict_get k (groups (obj x)) = dict_get k (groups s))
  ∧ _next_batch (obj x) = []
  ∧ member_sends (trace x) = (first_page <$> take 1000 (keys (groups s))).*2
  ∧ sends_for g (trace x) = [(page_request g None).2]
  ∧ stack_depth (trace x) = 0.
Proof.
  intros Hready Hno Hkeys Hlen Hsingle Hrec Hp Htok x. subst x.
  destruct (get_members_refused limit s pre g post rec p tok)
    as (Htake & ev & -> & Hev); try done.
  destruct Hready as (Hauth & Hcache & Hnd & Hlow & Hok).
  assert (member_sends ev = (first_page <$> take 1000 (keys (groups s))).*2)
    as Hsends.
  { by rewrite <- member_sends_visible, Hev, member_sends_requests. }
  unfold res, obj, trace. cbn [fst snd]. split_and!.
  - done.
  - rewrite set_groups_groups. apply dict_get_set_eq.
  - intros k Hk. rewrite set_groups_groups.
    rewrite Hkeys in Hnd, Hlow.
    apply NoDup_app in Hnd as (_ & Hdisj & [Hg _]%NoDup_cons).
    apply Forall_app in Hlow as [Hlow_pre _].
    rewrite dict_get_set_ne by (intros ->; done).
    rewrite groups_after, dict_get_foldl_merge, first_pages_other; [done..|].
    intros Hin. apply (Hdisj k Hin), list_elem_of_further, Hk.
  - cbn [set_groups _next_batch]. rewrite next_batch_after.
    by rewrite single_pages_queue.
  - done.
  - unfold sends_for. rewrite Hsends, filter_group_key.
    + rewrite first_pages_for_group; [done| | |].
      * by apply Forall_take.
      * eapply sublist_NoDup; [exact Hnd|apply sublist_take].
      * rewrite Htake. apply elem_of_app. right. apply list_elem_of_here.
    + apply first_pages_coherent. by apply Forall_take.
  - unfold stack_depth. by rewrite <- depth_visible, Hev, depth_requests.
Qed.
End Refused.

(** C3, as the code has it.  In a session that [auth] has opened, the
    client is that of the Directory API, which has no parameter [nextPage].
    For the first group whose first page carries a token, [add_members]
    appends the members of that page and then raises [TypeError] on the
    request for the following page: [get_members] ends with that exception,
    the record holds what it held followed by the first page only, and the
    records of the groups after it are untouched. *)
Theorem members_after_first_page (R : Remote) (limit : nat) (s : GGBackup)
    (pre post : list string) (g : string) (rec : record) (p : members_page)
    (tok : string) :
  members_ready s →
  takes_nextPage s = false →
  keys (groups s) = pre ++ g :: post →
  length pre < 1000 →
  Forall (single_page R) pre →
  dict_get g (groups s) = Some rec →
  members_list R g None = inr p →
  nextPageToken p = Some tok →
  let x := get_members R limit s in
  (∃ msg, res x = Raise (TypeError msg))
  ∧ dict_get g (groups (obj x))
    = Some (<["members" := JList (record_members rec ++ page_members p)]> rec)
  ∧ (∀ k, k ∈ post → dict_get k (groups (obj x)) = dict_get k (groups s)).
Proof.
  intros Hready Hno Hkeys Hlen Hsingle Hrec Hp Htok x.
  destruct (get_members_refused_run R limit s pre g post rec p tok)
    as (Hres & Hget & Hpost & _); try done.
  fold x in Hres, Hget, Hpost. split_and!; [by eexists|done|done].
Qed.

(** The two pages of ["a@x.com"], of two and of three members: the record
    ends with the two members of the first page. *)
Lemma members_after_first_page_witness :
  let x := get_members sample_remote 2 sample_listed in
  (∃ msg, res x = Raise (TypeError msg))
  ∧ record_members <$> dict_get "a@x.com" (groups (obj x))
    = Some [JStr "m1"; JStr "m2"].
Proof.
  destruct (members_after_first_page sample_remote 2 sample_listed
              [] ["b@x.com"; "c@x.com"] "a@x.com"
              ({["email" := JStr "A@x.com"]} : record)
              {| members := Some [JStr "m1"; JStr "m2"];
                 nextPageToken := Some "t1" |} "t1")
    as (Hres & Hget & _).
  - exact sample_listed_ready.
  - reflexivity.
  - vm_compute. reflexivity.
  - cbn. lia.
  - apply Forall_nil_2.
  - vm_compute. reflexivity.
  - reflexivity.
  - reflexivity.
  - cbv zeta. split; [exact Hres|]. rewrite Hget.
    cbn [fmap option_fmap option_map]. by rewrite record_members_insert.
Defined.

(** C4, as the code has it.  In a session that [auth] has opened, a group
    whose first page carries a token gets one request, the one without
    token: the token is never sent.  [get_members] ends with [TypeError]
    from the first batch, nothing is queued, and [run_next_batch] is not
    entered. *)
Theorem members_pagination_refused (R : Remote) (limit : nat) (s : GGBackup)
    (pre post : list string) (g : string) (rec : record) (p : members_page)
    (tok : string) :
  members_ready s →
  takes_nextPage s = false →
  keys (groups s) = pre ++ g :: post →
  length pre < 1000 →
  Forall (single_page R) pre →
  dict_get g (groups s) = Some rec →
  members_list R g None = inr p →
  nextPageToken p = Some tok →
  let x := get_members R limit s in
  (∃ msg, res x = Raise (TypeError msg))
  ∧ sends_for g (trace x) = [ {| groupKey := g; nextPage := None |} ]
  ∧ Forall (λ rq, nextPage rq = None) (member_sends (trace x))
  ∧ _next_batch (obj x) = []
  ∧ stack_depth (trace x) = 0.
Proof.
  intros Hready Hno Hkeys Hlen Hsingle Hrec Hp Htok x.
  destruct (get_members_refused_run R limit s pre g post rec p tok)
    as (Hres & _ & _ & Hqueue & Hsends & Hfor & Hdepth); try done.
  fold x in Hres, Hqueue, Hsends, Hfor, Hdepth.
  split_and!; [by eexists|done| |done|done].
  rewrite Hsends. apply Forall_fmap, Forall_fmap, Forall_forall. by intros k _.
Qed.

(** The membership of ["a@x.com"] has two pages, and one request. *)
Lemma members_pagination_refused_witness :
  let x := get_members sample_remote 2 sample_listed in
  (∃ msg, res x = Raise (TypeError msg))
  ∧ sends_for "a@x.com" (trace x)
    = [ {| groupKey := "a@x.com"; nextPage := None |} ].
Proof.
  destruct (members_pagination_refused sample_remote 2 sample_listed
              [] ["b@x.com"; "c@x.com"] "a@x.com"
              ({["email" := JStr "A@x.com"]} : record)
              {| members := Some [JStr "m1"; JStr "m2"];
                 nextPageToken := Some "t1" |} "t1")
    as (Hres & Hsends & _).
  - exact sample_listed_ready.
  - reflexivity.
  - vm_compute. reflexivity.
  - cbn. lia.
  - apply Forall_nil_2.
  - vm_compute. reflexivity.
  - reflexivity.
  - reflexivity.
  - cbv zeta. split; [exact Hres|exact Hsends].
Defined.

(** * Sessions in which no listing goes on *)

Lemma first_pages_only_nil : first_pages_only [].
Proof. split; [done|apply Forall_nil_2]. Qed.

Lemma first_pages_only_app ev1 ev2 :
  first_pages_only ev1 → first_pages_only ev2 → first_pages_only (ev1 ++ ev2).
Proof.
  intros [Hc1 Hs1] [Hc2 Hs2]. split.
  - unfold continued in *. rewrite omap_app, length_app. lia.
  - rewrite member_sends_app. by apply Forall_app.
Qed.

Lemma first_pages_only_log lv msg args :
  msg ≠ "Building next page batches." → first_pages_only [Log lv msg args].
Proof.
  intros Hmsg. split; [|apply Forall_nil_2].
  unfold continued. cbn. by rewrite decide_False.
Qed.

Section StaysIdle.

Lemma stays_idle_ret {A} (a : A) : stays_idle (mret a).
Proof. intros s Hs. split; [done|apply first_pages_only_nil]. Qed.

Lemma stays_idle_raise {A} e : stays_idle (@raise A e).
Proof. intros s Hs. split; [done|apply first_pages_only_nil]. Qed.

Lemma stays_idle_log lv msg args :
  msg ≠ "Building next page batches." → stays_idle (emit (Log lv msg args)).
Proof. intros Hmsg s Hs. split; [done|by apply first_pages_only_log]. Qed.

Lemma stays_idle_first_request g :
  stays_idle (emit (Send (MembersList {| groupKey := g; nextPage := None |}))).
Proof.
  intros s Hs. split; [done|]. split; [done|].
  by apply Forall_singleton.
Qed.

Lemma stays_idle_set_groups f : stays_idle (modify (set_groups f)).
Proof. intros s Hs. split; [done|apply first_pages_only_nil]. Qed.

Lemma stays_idle_bind {A B} (m : M A) (k : A → M B) :
  stays_idle m → (∀ a, stays_idle (k a)) → stays_idle (m ≫= k).
Proof.
  intros Hm Hk s Hs. destruct (Hm s Hs) as [Hidle Htrace].
  rewrite trace_bind. unfold obj, res, trace in *. rewrite bind_run.
  destruct (m s) as [[[a|e|] s1] ev1]; cbn [fst snd] in *.
  - destruct (Hk a s1 Hidle) as [Hidle2 Htrace2].
    unfold obj, trace in *. destruct (k a s1) as [[r s2] ev2].
    cbn [fst snd] in *. split; [done|]. by apply first_pages_only_app.
  - split; [done|]. by rewrite app_nil_r.
  - split; [done|]. by rewrite app_nil_r.
Qed.

Lemma stays_idle_for {A} (l : list A) (body : A → M unit) :
  (∀ x, x ∈ l → stays_idle (body x)) → stays_idle (for_ l body).
Proof.
  induction l as [|x l IH]; intros Hbody; [apply stays_idle_ret|].
  cbn [for_]. apply stays_idle_bind.
  - apply Hbody, list_elem_of_here.
  - intros _. apply IH. intros y Hy. by apply Hbody, list_elem_of_further.
Qed.

(** The callback: with a client that refuses the keyword, an answer with
    a token makes it raise, and nothing is queued. *)
Lemma stays_idle_add_members rid resp exc :
  stays_idle (add_members rid resp exc).
Proof.
  destruct exc as [e|]; [by apply stays_idle_log|].
  destruct resp as [p|]; [|apply stays_idle_raise].
  intros s Hs. pose proof Hs as [Hno Hqueue].
  assert (∀ f, idle (set_groups f s)) as Hidle by (intros f; exact Hs).
  assert (∀ f g, idle (set_groups f (set_groups g s))) as Hidle2
    by (intros f g; exact Hs).
  unfold add_members. run.
  destruct (dict_get rid (groups s)) as [rec|]; run;
    [|split; [done|by apply first_pages_only_log]].
  unfold extend_members, takes_nextPage in Hno |- *.
  destruct (rec !! "members") as [[|b|n|e|l|o]|] eqn:Hm; run; rewrite ?Hm;
    run; try (split; [done|by apply first_pages_only_log]).
  - destruct (nextPageToken p) as [tok|]; run;
      [|split; [apply Hidle|by apply first_pages_only_log]].
    destruct (service s) as [svc|]; run;
      [|split; [apply Hidle|by apply first_pages_only_log]].
    rewrite list_members_refused by done. run.
    split; [apply Hidle|by apply first_pages_only_log].
  - rewrite lookup_insert_eq. run.
    destruct (nextPageToken p) as [tok|]; run;
      [|split; [apply Hidle2|by apply first_pages_only_log]].
    destruct (service s) as [svc|]; run;
      [|split; [apply Hidle2|by apply first_pages_only_log]].
    rewrite list_members_refused by done. run.
    split; [apply Hidle2|by apply first_pages_only_log].
Qed.

Lemma stays_idle_first_page_batch R b : stays_idle (first_page_batch R b).
Proof.
  unfold first_page_batch, execute, deliver.
  apply stays_idle_bind.
  { apply stays_idle_for. intros g _. by apply stays_idle_log. }
  intros _. apply stays_idle_bind; [by apply stays_idle_log|]. intros _.
  apply stays_idle_bind.
  - apply stays_idle_for. intros r (g & -> & _)%list_elem_of_fmap.
    apply stays_idle_first_request.
  - intros _. apply stays_idle_for. intros r _. unfold answer.
    destruct (fetch_members R r.2); apply stays_idle_add_members.
Qed.

(** An idle object makes [run_next_batch] return from its first
    activation. *)
Lemma stays_idle_run_next_batch R limit : stays_idle (run_next_batch R limit).
Proof.
  destruct limit as [|limit]; [apply stays_idle_raise|].
  intros s [Hno Hqueue]. cbn [run_next_batch]. rewrite frame_run.
  rewrite bind_run. cbn [get]. rewrite Hqueue. cbn.
  split; [done|]. split; [done|apply Forall_nil_2].
Qed.

(** After the session check and with the queue emptied, an object whose
    client refuses the keyword is idle. *)
Lemma idle_after_reset {A} (m : M A) s :
  stays_idle m →
  takes_nextPage s = false →
  first_pages_only
    (trace ((check_auth;; modify (set_next_batch (λ _, []));; m) s))
  ∧ (∀ a, res ((check_auth;; modify (set_next_batch (λ _, []));; m) s)
          = Return a →
       _next_batch
         (obj ((check_auth;; modify (set_next_batch (λ _, []));; m) s)) = []).
Proof.
  intros Hm Hno.
  destruct (Hm (set_next_batch (λ _, []) s)) as [[_ Hqueue] Htrace];
    [by split|].
  rewrite bind_run, check_auth_run.
  destruct (http_auth s), (service s) as [svc|], (gsetservice s);
    try (split; [apply first_pages_only_nil|done]).
  rewrite bind_run. cbn [modify].
  unfold obj, res, trace in *.
  destruct (m (set_next_batch (λ _, []) s)) as [[r s2] ev2].
  cbn [fst snd app] in *. done.
Qed.

Lemma idle_get_members R limit s :
  takes_nextPage s = false →
  first_pages_only (trace (get_members R limit s))
  ∧ (res (get_members R limit s) = Return tt
     → _next_batch (obj (get_members R limit s)) = []).
Proof.
  intros Hno. unfold get_members.
  destruct (idle_after_reset
              (group_batches ≫= λ batches,
                 for_ batches (first_page_batch R);; run_next_batch R limit)
              s) as [Htrace Hqueue]; [|done|].
  - apply stays_idle_bind.
    + intros s' Hs'. unfold group_batches. run.
      destruct (_group_batch s'); run;
        [destruct (_group_batches s')|]; run;
        (split; [done|apply first_pages_only_nil]).
    + intros bs. apply stays_idle_bind.
      * apply stays_idle_for. intros b _. apply stays_idle_first_page_batch.
      * intros _. apply stays_idle_run_next_batch.
  - split; [done|apply Hqueue].
Qed.
End StaysIdle.

(** X21.  In a session whose client has no parameter [nextPage], as in
    every session that [auth] opens, no listing goes beyond its first page:
    whatever the remote answers and however the run ends, [get_members]
    starts no continuation round, every membership request it sends asks
    for a first page, at most one activation of [run_next_batch] is on the
    stack, and the queue is empty when it returns. *)
Theorem directory_client_never_continues (R : Remote) (limit : nat)
    (s : GGBackup) :
  takes_nextPage s = false →
  let x := get_members R limit s in
  continued (trace x) = 0
  ∧ Forall (λ rq, nextPage rq = None) (member_sends (trace x))
  ∧ stack_depth (trace x) ≤ 1
  ∧ (res x = Return tt → _next_batch (obj x) = []).
Proof.
  intros Hno x.
  destruct (idle_get_members R limit s Hno) as [[Hcont Hsends] Hqueue].
  destruct (get_members_frames R limit s) as (_ & Hdepth & _).
  fold x in Hcont, Hsends, Hqueue, Hdepth.
  split_and!; [done|done|lia|done].
Qed.

Lemma auth_takes_no_nextPage s c :
  credentials s = Some c → invalid c = false →
  takes_nextPage (obj (auth s)) = false.
Proof. intros Hc Hvalid. by rewrite auth_run, Hc, Hvalid. Qed.

(** The session of the sample, opened by [auth] and listed, with the
    two-page membership of ["a@x.com"]. *)
Lemma directory_client_never_continues_witness :
  takes_nextPage sample_listed = false
  ∧ stack_depth (trace (get_members sample_remote 5 sample_listed)) ≤ 1.
Proof.
  split; [reflexivity|].
  apply (directory_client_never_continues sample_remote 5 sample_listed).
  reflexivity.
Defined.

(** * A map without groups *)

(** X16.  With a session and an empty map, [get_settings] and
    [get_members] send nothing and return: the partition of no key is no
    batch, the map stays empty, and [run_next_batch] is entered once, to
    find the queue empty. *)
Theorem empty_map_fetches_nothing (R : Remote) (fuel : nat) (s : GGBackup) :
  settings_ready s →
  groups s = [] →
  get_settings R s = (Return tt, set_group_batches [] s, [])
  ∧ res (get_members R (S fuel) s) = Return tt
  ∧ member_sends (trace (get_members R (S fuel) s)) = []
  ∧ groups (obj (get_members R (S fuel) s)) = []
  ∧ _next_batch (obj (get_members R (S fuel) s)) = []
  ∧ stack_depth (trace (get_members R (S fuel) s)) = 1.
Proof.
  intros [Hauth Hcache] Hgroups.
  assert (members_ready s) as Hready.
  { split_and!; try done; rewrite Hgroups; by constructor. }
  split.
  { unfold get_settings. rewrite bind_run, check_auth_obj, Hauth.
    rewrite bind_run, group_batches_recomputes by done.
    by rewrite Hgroups. }
  assert (_next_batch (first_pass R s) = []) as Hqueue
    by by rewrite next_batch_first_pass, Hgroups.
  assert (groups (first_pass R s) = []) as Hmap.
  { unfold first_pass. by rewrite groups_after, Hgroups. }
  assert (Forall (single_page R) (keys (groups s))) as Hsingle
    by (rewrite Hgroups; apply Forall_nil_2).
  rewrite get_members_depth, Hqueue by auto.
  destruct (get_members_run R (S fuel) s Hready (or_intror Hsingle))
    as (ev & -> & Hev).
  rewrite Hqueue, Hgroups in Hev. cbn in Hev.
  unfold res, obj, trace. cbn [fst snd finishes run_state].
  rewrite Hqueue. split_and!; try done.
  by rewrite <- member_sends_visible, Hev.
Qed.

Lemma empty_map_fetches_nothing_witness :
  get_settings sample_remote sample_session
  = (Return tt, set_group_batches [] sample_session, [])
  ∧ res (get_members sample_remote 1 sample_session) = Return tt.
Proof.
  destruct (empty_map_fetches_nothing sample_remote 0 sample_session)
    as (Hsettings & Hres & _).
  - split; reflexivity.
  - reflexivity.
  - split; [exact Hsettings|exact Hres].
Defined.

(** * More on [batch] *)

Section BatchMore.
Context {A : Type}.
Implicit Types (c l items : list A).

Lemma chunk_app_first c l : length c = 1000 → chunk (c ++ l) 0 = c.
Proof.
  intros Hc. unfold chunk, slice. cbn [Nat.mul Nat.add drop].
  replace (1000 - 0) with (length c) by lia. apply take_app_length.
Qed.

Lemma chunk_app_next c l i :
  length c = 1000 → chunk (c ++ l) (S i) = chunk l i.
Proof.
  intros Hc. unfold chunk, slice.
  rewrite drop_app_ge by lia.
  replace (S i * 1000 - length c) with (i * 1000) by lia.
  f_equal; lia.
Qed.

Lemma batch_cons_chunk c l : length c = 1000 → batch (c ++ l) = c :: batch l.
Proof.
  intros Hc. rewrite !batch_chunks, length_app, Hc.
  replace (1000 + length l + 999) with (1 * 1000 + (length l + 999)) by lia.
  rewrite Nat.div_add_l by done.
  cbn [Nat.add seq fmap list_fmap]. rewrite chunk_app_first by done.
  f_equal. rewrite <- fmap_S_seq, <- list_fmap_compose.
  apply list_fmap_ext. intros i j _. by apply chunk_app_next.
Qed.

Lemma batch_app_chunks k l1 l2 :
  length l1 = 1000 * k → batch (l1 ++ l2) = batch l1 ++ batch l2.
Proof.
  revert l1. induction k as [|k IH]; intros l1 Hlen.
  - destruct l1; [done|cbn in Hlen; lia].
  - rewrite <- (take_drop 1000 l1), <- app_assoc.
    assert (length (take 1000 l1) = 1000) as Hc
      by (rewrite length_take; lia).
    rewrite (batch_cons_chunk _ (drop 1000 l1 ++ l2)) by done.
    rewrite (batch_cons_chunk _ (drop 1000 l1)) by done.
    rewrite IH by (rewrite length_drop; lia). done.
Qed.
End BatchMore.

(** X17.  [batch] cuts from the left: behind a prefix whose length is a
    multiple of 1000, the chunks are those of the prefix followed by those
    of the rest. *)
Theorem batch_app {A : Type} (k : nat) (l1 l2 : list A) :
  length l1 = 1000 * k → batch (l1 ++ l2) = batch l1 ++ batch l2.
Proof. apply batch_app_chunks. Qed.

Lemma batch_app_witness :
  batch (replicate 1000 true ++ [false; false])
  = batch (replicate 1000 true) ++ batch [false; false].
Proof. apply (batch_app 1). reflexivity. Defined.

(** X18.  A sequence of 1 to 1000 items is one chunk, the sequence itself:
    a map of at most 1000 groups is fetched in a single batch. *)
Theorem batch_single {A : Type} (items : list A) :
  0 < length items ≤ 1000 → batch items = [items].
Proof.
  intros Hlen. rewrite batch_chunks.
  replace ((length items + 999) / 1000) with 1.
  - cbn. unfold chunk, slice. cbn [Nat.mul Nat.add drop].
    f_equal. apply take_ge. lia.
  - apply Nat.div_unique with (length items - 1); lia.
Qed.

Lemma batch_single_witness : batch ["a@x.com"; "b@x.com"] = [["a@x.com"; "b@x.com"]].
Proof. apply batch_single. cbn. lia. Defined.

(** * From the listing to the memberships *)



